(** * depinject: a shallow embedding of the dependency-injection container

    The development follows the Go package [depinject]: the run-time type
    descriptions the container is keyed by ([reflect.Type]), the error
    values, the registration-time type check (check_type.go), the container
    with its resolvers (container.go, group.go), the configuration
    combinators (config.go) and the entry point (inject.go).

    Go code mutates the container through a pointer; here every operation
    is a function from the container to the new container and a result.
    The debug sink (logger, indentation, graphviz nodes and edges) only
    observes the container and is left out of it; location.go and debug.go,
    with the run of an injection, come after the container. *)

From Stdlib Require Import ZArith Ascii.
From stdpp Require Import base option list gmap strings fin_maps countable pretty.

Set Warnings "-register-all".

(** ** Package [reflect]: kinds, types and values *)

Module reflect.

(** Kinds whose types carry no element type. *)
Inductive PlainKind :=
| Invalid | Bool | Int | Int8 | Int16 | Int32 | Int64
| Uint | Uint8 | Uint16 | Uint32 | Uint64 | Uintptr
| Float32 | Float64 | Complex64 | Complex128
| Interface | String | Struct | UnsafePointer.

Inductive Kind :=
| Plain (k : PlainKind)
| Array | Chan | Func | Map | Pointer | Slice.

#[global] Instance PlainKind_eq_dec : EqDecision PlainKind.
Proof. solve_decision. Defined.

#[global] Instance Kind_eq_dec : EqDecision Kind.
Proof. solve_decision. Defined.

(** A type as [reflect.Type] shows it: [Name()], [PkgPath()], [String()],
    the method set (for an interface type, the methods it asks for) and
    the shape behind [Kind()], [Elem()], [Key()], [In(i)] and [Out(i)]. *)
Inductive rtype : Type :=
| Ty (name pkgPath str : string) (methods : list string) (sh : tshape)
with tshape : Type :=
| SPlain (k : PlainKind)
| SArray (len : nat) (elem : rtype)
| SChan (elem : rtype)
| SPointer (elem : rtype)
| SSlice (elem : rtype)
| SMap (key elem : rtype)
| SFunc (ins outs : tlist)
with tlist : Type :=
| tnil
| tcons (t : rtype) (ts : tlist).

Definition Name (t : rtype) : string := let 'Ty n _ _ _ _ := t in n.
Definition PkgPath (t : rtype) : string := let 'Ty _ p _ _ _ := t in p.
Definition String_ (t : rtype) : string := let 'Ty _ _ s _ _ := t in s.
Definition methods (t : rtype) : list string := let 'Ty _ _ _ m _ := t in m.
Definition shape (t : rtype) : tshape := let 'Ty _ _ _ _ sh := t in sh.

Definition shapeKind (sh : tshape) : Kind :=
  match sh with
  | SPlain k => Plain k
  | SArray _ _ => Array
  | SChan _ => Chan
  | SPointer _ => Pointer
  | SSlice _ => Slice
  | SMap _ _ => Map
  | SFunc _ _ => Func
  end.

Definition Kind_ (t : rtype) : Kind := shapeKind (shape t).

(** [Elem()] panics on a type that has no element; every call in the
    package is guarded by a test on the kind, and the embedding matches
    on the shape at those places. *)
Definition Elem (t : rtype) : option rtype :=
  match shape t with
  | SArray _ e | SChan e | SPointer e | SSlice e | SMap _ e => Some e
  | _ => None
  end.

Fixpoint to_list (ts : tlist) : list rtype :=
  match ts with
  | tnil => []
  | tcons t ts => t :: to_list ts
  end.

Fixpoint rtype_eq_dec (a b : rtype) {struct a} : {a = b} + {a <> b}
with tshape_eq_dec (a b : tshape) {struct a} : {a = b} + {a <> b}
with tlist_eq_dec (a b : tlist) {struct a} : {a = b} + {a <> b}.
Proof.
  - decide equality; exact (decide (_ = _)).
  - decide equality; exact (decide (_ = _)).
  - decide equality.
Defined.

#[global] Instance rtype_eqdec : EqDecision rtype := rtype_eq_dec.

Scheme rtype_mut := Induction for rtype Sort Prop
  with tshape_mut := Induction for tshape Sort Prop
  with tlist_mut := Induction for tlist Sort Prop.

Combined Scheme rtype_tshape_tlist_ind from rtype_mut, tshape_mut, tlist_mut.

(** The types that stand in a type at its pointer, slice, array, channel,
    map-key, map-value, parameter and result positions. *)
Definition shapeChildren (sh : tshape) : list rtype :=
  match sh with
  | SPlain _ => []
  | SArray _ e | SChan e | SPointer e | SSlice e => [e]
  | SMap k e => [k; e]
  | SFunc ins outs => to_list ins ++ to_list outs
  end.

Definition children (t : rtype) : list rtype := shapeChildren (shape t).

(** [T.Implements(I)]: the method set of [T] has every method of the
    interface type [I]. *)
Definition Implements (t iface : rtype) : bool :=
  forallb (fun m => bool_decide (m ∈ methods t)) (methods iface).

(** [reflect.SliceOf(t)]: the unnamed slice type of [t]. *)
Definition SliceOf (t : rtype) : rtype :=
  Ty "" "" ("[]" +:+ String_ t) [] (SSlice t).

(** [V.AssignableTo(T)]: whether a value of type [V] can be assigned to a
    variable of type [T]. Beyond the identity of the two types and the
    method sets, it compares what a type is made of down to parts that the
    descriptions above do not show (the fields of a struct type, the
    direction of a channel type, the types of the methods), so it is not
    computed here: the development takes the relation as given, and every
    statement holds for whatever relation it is. *)
Class Assignability : Type := AssignableTo : rtype -> rtype -> bool.

End reflect.

Abbreviation rtype := reflect.rtype.

(** ** location.go and the module key *)

(** A [Location] is an interface value holding a [*location]: the address
    of the record (what [==] and map keys compare) with the fields behind
    it, which never change. *)
Record Location : Type := mkLocation {
  loc_addr : N;
  loc_name : string;
  loc_pkg : string;
  loc_file : string;
  loc_line : Z
}.

#[global] Instance Location_eq_dec : EqDecision Location.
Proof. solve_decision. Defined.

#[global] Instance Location_countable : Countable Location.
Proof.
  refine (inj_countable'
    (fun l => (loc_addr l, loc_name l, loc_pkg l, loc_file l, loc_line l))
    (fun t => let '(a, n, p, f, i) := t in mkLocation a n p f i) _).
  intros []; reflexivity.
Defined.

(** formatFullName formats the package and function name. *)
Definition formatFullName (pkg name : string) : string := pkg +:+ "." +:+ name.

Definition Location_Name (f : Location) : string :=
  formatFullName (loc_pkg f) (loc_name f).

(** [formatSingleLine], what [%s] and [String()] print. *)
Definition Location_String (f : Location) : string :=
  loc_pkg f +:+ "." +:+ loc_name f +:+ " (" +:+ loc_file f +:+ ":" +:+ pretty (loc_line f) +:+ ")".

(** The module key, [*moduleKey] with its field [name]; nil is the global
    scope. *)
Record moduleKey : Type := mkModuleKey { mk_name : string }.

#[global] Instance moduleKey_eq_dec : EqDecision moduleKey.
Proof. solve_decision. Defined.

(** ** Errors and results *)

(** The error values the package builds: the sentinels made with
    [errors.New], the wrappers of github.com/pkg/errors, and the error
    structs of errors.go. *)
Inductive error : Type :=
| errors_New (msg : string)
| errors_Wrapf (cause : error) (msg : string)
| errors_WithStack (cause : error)
| fmt_Errorf_w (sentinel : error) (detail : error)
| ErrMultipleImplicitInterfaceBindings (Interface : rtype) (Matches : list rtype)
| ErrNoTypeForExplicitBindingFound (Implementation Interface ModuleName : string)
| ErrDuplicateDefinition (Type_ : rtype) (NewLocation : Location) (OldLocation : string)
| errors_Errorf (msg : string).

(** The sentinel at the root of an error: what [errors.Is] compares with. *)
Fixpoint Cause (e : error) : error :=
  match e with
  | errors_Wrapf c _ => Cause c
  | errors_WithStack c => Cause c
  | fmt_Errorf_w s _ => s
  | _ => e
  end.

(** What a Go call can come to: a value, a returned error, a run-time
    panic, or (for the functions that recurse through [call]) the end of
    the recursion budget of the model. *)
Inductive result (A : Type) : Type :=
| Ok (a : A)
| Err (e : error)
| Panic (msg : string)
| NoFuel.

Arguments Ok {A} a.
Arguments Err {A} e.
Arguments Panic {A} msg.
Arguments NoFuel {A}.

Definition is_Ok {A} (r : result A) : bool :=
  match r with Ok _ => true | _ => false end.

Definition is_Err {A} (r : result A) : bool :=
  match r with Err _ => true | _ => false end.

(** ** check_type.go: the registration-time check of a type *)

Definition ErrTypeNotExported : error := errors_New "type must be exported".
Definition ErrInternalPackage : error :=
  errors_New "type must not come from an internal package".

(** [strings.Split(s, sep)] for a one-byte separator. *)
Fixpoint strings_Split_aux (sep : ascii) (s acc : string) : list string :=
  match s with
  | EmptyString => [String.rev acc]
  | String c s' =>
      if Ascii.eqb c sep then String.rev acc :: strings_Split_aux sep s' EmptyString
      else strings_Split_aux sep s' (String c acc)
  end.

Definition strings_Split (s : string) (sep : ascii) : list string :=
  strings_Split_aux sep s EmptyString.

Definition slices_Contains (l : list string) (x : string) : bool :=
  existsb (String.eqb x) l.

(** isInternalPackage checks if the package path contains an "internal"
    directory. *)
Definition isInternalPackage (pkgPath : string) : bool :=
  slices_Contains (strings_Split pkgPath "/"%char) "internal".

(** isNamedType returns true if the type has both a name and package path. *)
Definition isNamedType (typ : rtype) : bool :=
  negb (String.eqb (reflect.Name typ) "") && negb (String.eqb (reflect.PkgPath typ) "").

Section CheckType.

(** The Go run time and package [unicode]: the conversion [[]rune(s)] of
    a string to its code points, and [unicode.IsLower]. *)
Variable rune : Type.
Variable runes : string -> list rune.
Variable unicode_IsLower : rune -> bool.

(** [!unicode.IsLower([]rune(name)[0])]; indexing an empty slice panics. *)
Definition isExported (name : string) : result bool :=
  match runes name with
  | [] => Panic "index out of range [0] with length 0"
  | r :: _ => Ok (negb (unicode_IsLower r))
  end.

Definition checkNamedType (typ : rtype) : result unit :=
  match isExported (reflect.Name typ) with
  | Ok false => Err (errors_Wrapf ErrTypeNotExported (reflect.String_ typ))
  | Ok true =>
      if isInternalPackage (reflect.PkgPath typ)
      then Err (errors_Wrapf ErrInternalPackage (reflect.String_ typ))
      else Ok tt
  | Err e => Err e
  | Panic m => Panic m
  | NoFuel => NoFuel
  end.

(** [isExportedType], [checkCompositeType] and the two loops of
    [checkFuncType] recurse through one another; [checkCompositeType]
    takes the shape its [switch typ.Kind()] inspects. *)
Fixpoint isExportedType (typ : rtype) : result unit :=
  if isNamedType typ then checkNamedType typ
  else checkCompositeType (reflect.shape typ)
with checkCompositeType (sh : reflect.tshape) : result unit :=
  match sh with
  | reflect.SArray _ e | reflect.SSlice e | reflect.SChan e | reflect.SPointer e =>
      isExportedType e
  | reflect.SMap k e =>
      match isExportedType k with
      | Ok _ => isExportedType e
      | r => r
      end
  | reflect.SFunc ins outs =>
      (* checkFuncType *)
      match checkTypes ins with
      | Ok _ => checkTypes outs
      | r => r
      end
  | reflect.SPlain _ => Ok tt
  end
with checkTypes (ts : reflect.tlist) : result unit :=
  match ts with
  | reflect.tnil => Ok tt
  | reflect.tcons t ts' =>
      match isExportedType t with
      | Ok _ => checkTypes ts'
      | r => r
      end
  end.

End CheckType.

(** ** Values, provider descriptors and resolvers *)

(** Modelled from the spec: the type a descriptor declares as input to ask
    for "the current scope identity". *)
Definition moduleKeyType : rtype :=
  reflect.Ty "ModuleKey" "cosmossdk.io/depinject" "depinject.ModuleKey"
    ["Name()"; "String()"] (reflect.SPlain reflect.Struct).

(** A [reflect.Value], as far as the container looks into it: the zero
    [Value], or a value with its type [v.Type()] and what it holds. The
    kind of a value is the kind of its type. The elements of a slice are
    held as [v.Index(i)] gives them, values of the element type of the
    slice; a nil slice is the zero value of its type. [VPlain] is a value
    the container does not look into. *)
Inductive Value : Type :=
| VInvalid
| VZero (t : rtype)
| VPlain (t : rtype) (repr : string)
| VPointer (t : rtype) (target : Value)
| VModuleKey (name : string)
| VMap (t : rtype) (entries : list (string * Value))
| VSlice (t : rtype) (elems : list Value).

(** [v.Type()], which panics on the zero [Value] ([None]). *)
Definition Value_Type (v : Value) : option rtype :=
  match v with
  | VInvalid => None
  | VZero t | VPlain t _ | VPointer t _ | VMap t _ | VSlice t _ => Some t
  | VModuleKey _ => Some moduleKeyType
  end.

(** [v.Kind()]; the zero [Value] has the kind [Invalid]. *)
Definition Value_Kind (v : Value) : reflect.Kind :=
  match Value_Type v with
  | Some t => reflect.Kind_ t
  | None => reflect.Plain reflect.Invalid
  end.

(** [v.Len()] and the elements [v.Index(0)], ..., [v.Index(v.Len()-1)] of
    a value of kind slice. *)
Definition Value_elems (v : Value) : list Value :=
  match v with
  | VSlice _ l => l
  | _ => []
  end.

Definition Value_Len (v : Value) : nat := length (Value_elems v).

Definition Value_Index (v : Value) (i : nat) : Value :=
  default VInvalid (Value_elems v !! i).

(** A value assigned to a variable of type [t] is held there with the type
    [t]: what it holds, with [t] for its type. *)
Definition Value_retype (t : rtype) (x : Value) : Value :=
  if decide (Value_Type x = Some t) then x
  else
    match x with
    | VInvalid => VInvalid
    | VZero _ => VZero t
    | VPlain _ repr => VPlain t repr
    | VPointer _ target => VPointer t target
    | VModuleKey name => VPlain t name
    | VMap _ entries => VMap t entries
    | VSlice _ elems => VSlice t elems
    end.

(** [reflect.Append(s, x)]: [s] must be of kind slice and [x] assignable to
    the element type of [s], or the call panics (where [x] is not
    assignable, with the message given); the element added is [x] as a
    value of the element type. *)
Definition reflect_Append `{!reflect.Assignability} (s x : Value) : result Value :=
  match Value_Type s with
  | None => Panic "reflect: call of reflect.Append on zero Value"
  | Some t =>
      match reflect.shape t with
      | reflect.SSlice e =>
          match Value_Type x with
          | None => Panic "reflect: call of reflect.Value.Set on zero Value"
          | Some V =>
              if reflect.AssignableTo V e
              then Ok (VSlice t (Value_elems s ++ [Value_retype e x]))
              else Panic ("reflect.Set: value of type " +:+ reflect.String_ V
                          +:+ " is not assignable to type " +:+ reflect.String_ e)
          end
      | _ => Panic "reflect: call of reflect.Append on a Value that is not a slice"
      end
  end.

(** [reflect.MakeSlice(typ, 0, cap)], which panics unless [typ] is a slice
    type. *)
Definition reflect_MakeSlice (typ : rtype) (cap : nat) : result Value :=
  match reflect.shape typ with
  | reflect.SSlice _ => Ok (VSlice typ [])
  | _ => Panic "reflect.MakeSlice of non-slice type"
  end.

(** The structs of a descriptor are declared in provider_desc.go, which is
    not among the sources; the fields are those container.go reads
    ([Inputs], [Type], [Fn], [Location]) and those the spec lists for a
    Descriptor (the optional mark of an input, the outputs). *)
Record providerInput : Type := mkInput {
  in_Type : rtype;
  in_Optional : bool
}.

Record providerOutput : Type := mkOutput { out_Type : rtype }.

(** What a call of the provider function comes to: it returns its output
    values and an error, nil or not, or it panics. *)
Inductive fnResult : Type :=
| fn_returns (out : list Value) (err : option error)
| fn_panics (v : string).

(** The provider function is pure: [Fn] maps the input values to what the
    call with them comes to. *)
Record providerDescriptor : Type := mkDescriptor {
  Inputs : list providerInput;
  Outputs : list providerOutput;
  Fn : list Value -> fnResult;
  Location_ : Location
}.

(** Go indexing [l[i]] with an [int] index: out of range is a panic. *)
Definition index {A} (l : list A) (i : Z) : option A :=
  if (i <? 0)%Z then None else l !! Z.to_nat i.

(** *** Objects behind pointers

    A pointer to a struct is written as the address with the fields that
    are set at allocation and never assigned again; the fields that are
    assigned later live in the store of the container, keyed by the address,
    where an address that was never written reads as the zero value of the
    fields (their state right after allocation). Two copies of a pointer
    therefore see one object. *)

(** Modelled from the spec: simple.go is not among the sources. A direct
    provider "resolves by invoking the owning Descriptor ... and caching the
    result for the container's lifetime (at-most-once invocation per
    Descriptor)"; group.go uses its fields [provider] and the method
    [resolveValues]. *)
Record simpleProvider : Type := mkSimpleProvider {
  sp_addr : N;
  sp_provider : providerDescriptor;
  sp_moduleKey : option moduleKey
}.

Record simpleProviderState : Type := mkSimpleProviderState {
  sp_called : bool;
  sp_values : list Value
}.

(** groupResolver handles resolution for many-per-container types
    (group.go); [typ] and [sliceType] are set by [newGroupResolver]. *)
Record groupResolver : Type := mkGroupResolver {
  g_addr : N;
  g_typ : rtype;
  g_sliceType : rtype
}.

Record groupResolverState : Type := mkGroupResolverState {
  g_idxsInValues : list Z;
  g_providers : list simpleProvider;
  g_resolved : bool;
  g_values : Value
}.

(** Modelled from the spec: module_dep.go is not among the sources. A
    descriptor with a scope-identity input is registered "once per invoking
    scope as a scoped provider": its values are kept per scope name. *)
Record moduleDepProvider : Type := mkModuleDepProvider {
  md_addr : N;
  md_provider : providerDescriptor
}.

(** Modelled from the spec: one_per_module.go is not among the sources. The
    scoped-map resolver has the "identical contribution model but keyed by
    the scope that registered each contribution". *)
Record onePerModuleResolver : Type := mkOnePerModuleResolver {
  o_addr : N;
  o_typ : rtype;
  o_mapType : rtype
}.

Record onePerModuleResolverState : Type := mkOnePerModuleResolverState {
  o_providers : list (moduleKey * simpleProvider * Z);
  o_resolved : bool;
  o_values : Value
}.

(** The implementations of the interface [resolver]. *)
Inductive resolver : Type :=
| simpleResolver (node : simpleProvider) (idxInValues : Z) (typ : rtype)
| of_groupResolver (g : groupResolver)
| sliceGroupResolver (g : groupResolver)
| moduleDepResolver (node : moduleDepProvider) (idxInValues : Z) (typ : rtype)
| of_onePerModuleResolver (o : onePerModuleResolver)
| mapOfOnePerModuleResolver (o : onePerModuleResolver).

(** ** container.go: the container *)

Record interfaceBinding : Type := mkInterfaceBinding {
  interfaceName : string;
  implTypeName : string;
  ib_moduleKey : option moduleKey;
  ib_resolver : option resolver
}.

Record invoker : Type := mkInvoker {
  inv_fn : providerDescriptor;
  inv_modKey : option moduleKey
}.

Record resolveFrame : Type := mkResolveFrame {
  rf_loc : Location;
  rf_typ : rtype
}.

(** container manages dependency injection and resolution. A value of the
    map [resolvers] is an interface value and may be nil ([None]). After the
    fields of the Go struct come the store of the objects its resolvers
    point to, the next free address, and [fnCalls], the history of the
    provider functions that were run (with their inputs), which the Go code
    does not keep and the statements about invocations read. *)
Record container : Type := mkContainer {
  resolvers : gmap string (option resolver);
  interfaceBindings : gmap string interfaceBinding;
  invokers : list invoker;
  moduleKeyContext : gmap string moduleKey;
  resolveStack : list resolveFrame;
  callerStack : list Location;
  callerMap : gmap Location bool;
  simpleProviders : gmap N simpleProviderState;
  groupResolvers : gmap N groupResolverState;
  moduleDepValues : gmap (N * string) (list Value);
  onePerModuleResolvers : gmap N onePerModuleResolverState;
  nextAddr : N;
  fnCalls : list (Location * list Value)
}.

(** newContainer creates a new dependency injection container. *)
Definition newContainer : container :=
  {| resolvers := ∅; interfaceBindings := ∅; invokers := [];
     moduleKeyContext := ∅; resolveStack := []; callerStack := [];
     callerMap := ∅; simpleProviders := ∅; groupResolvers := ∅;
     moduleDepValues := ∅; onePerModuleResolvers := ∅; nextAddr := 0%N;
     fnCalls := [] |}.

Definition set_resolvers (f : gmap string (option resolver) -> gmap string (option resolver))
    (c : container) : container :=
  mkContainer (f (resolvers c)) (interfaceBindings c) (invokers c) (moduleKeyContext c)
    (resolveStack c) (callerStack c) (callerMap c) (simpleProviders c) (groupResolvers c)
    (moduleDepValues c) (onePerModuleResolvers c) (nextAddr c) (fnCalls c).

Definition set_interfaceBindings (f : gmap string interfaceBinding -> gmap string interfaceBinding)
    (c : container) : container :=
  mkContainer (resolvers c) (f (interfaceBindings c)) (invokers c) (moduleKeyContext c)
    (resolveStack c) (callerStack c) (callerMap c) (simpleProviders c) (groupResolvers c)
    (moduleDepValues c) (onePerModuleResolvers c) (nextAddr c) (fnCalls c).

Definition set_invokers (f : list invoker -> list invoker) (c : container) : container :=
  mkContainer (resolvers c) (interfaceBindings c) (f (invokers c)) (moduleKeyContext c)
    (resolveStack c) (callerStack c) (callerMap c) (simpleProviders c) (groupResolvers c)
    (moduleDepValues c) (onePerModuleResolvers c) (nextAddr c) (fnCalls c).

Definition set_moduleKeyContext (f : gmap string moduleKey -> gmap string moduleKey)
    (c : container) : container :=
  mkContainer (resolvers c) (interfaceBindings c) (invokers c) (f (moduleKeyContext c))
    (resolveStack c) (callerStack c) (callerMap c) (simpleProviders c) (groupResolvers c)
    (moduleDepValues c) (onePerModuleResolvers c) (nextAddr c) (fnCalls c).

Definition set_resolveStack (f : list resolveFrame -> list resolveFrame) (c : container) : container :=
  mkContainer (resolvers c) (interfaceBindings c) (invokers c) (moduleKeyContext c)
    (f (resolveStack c)) (callerStack c) (callerMap c) (simpleProviders c) (groupResolvers c)
    (moduleDepValues c) (onePerModuleResolvers c) (nextAddr c) (fnCalls c).

Definition set_callerStack (f : list Location -> list Location) (c : container) : container :=
  mkContainer (resolvers c) (interfaceBindings c) (invokers c) (moduleKeyContext c)
    (resolveStack c) (f (callerStack c)) (callerMap c) (simpleProviders c) (groupResolvers c)
    (moduleDepValues c) (onePerModuleResolvers c) (nextAddr c) (fnCalls c).

Definition set_callerMap (f : gmap Location bool -> gmap Location bool) (c : container) : container :=
  mkContainer (resolvers c) (interfaceBindings c) (invokers c) (moduleKeyContext c)
    (resolveStack c) (callerStack c) (f (callerMap c)) (simpleProviders c) (groupResolvers c)
    (moduleDepValues c) (onePerModuleResolvers c) (nextAddr c) (fnCalls c).

Definition set_simpleProviders (f : gmap N simpleProviderState -> gmap N simpleProviderState)
    (c : container) : container :=
  mkContainer (resolvers c) (interfaceBindings c) (invokers c) (moduleKeyContext c)
    (resolveStack c) (callerStack c) (callerMap c) (f (simpleProviders c)) (groupResolvers c)
    (moduleDepValues c) (onePerModuleResolvers c) (nextAddr c) (fnCalls c).

Definition set_groupResolvers (f : gmap N groupResolverState -> gmap N groupResolverState)
    (c : container) : container :=
  mkContainer (resolvers c) (interfaceBindings c) (invokers c) (moduleKeyContext c)
    (resolveStack c) (callerStack c) (callerMap c) (simpleProviders c) (f (groupResolvers c))
    (moduleDepValues c) (onePerModuleResolvers c) (nextAddr c) (fnCalls c).

Definition set_moduleDepValues (f : gmap (N * string) (list Value) -> gmap (N * string) (list Value))
    (c : container) : container :=
  mkContainer (resolvers c) (interfaceBindings c) (invokers c) (moduleKeyContext c)
    (resolveStack c) (callerStack c) (callerMap c) (simpleProviders c) (groupResolvers c)
    (f (moduleDepValues c)) (onePerModuleResolvers c) (nextAddr c) (fnCalls c).

Definition set_onePerModuleResolvers
    (f : gmap N onePerModuleResolverState -> gmap N onePerModuleResolverState)
    (c : container) : container :=
  mkContainer (resolvers c) (interfaceBindings c) (invokers c) (moduleKeyContext c)
    (resolveStack c) (callerStack c) (callerMap c) (simpleProviders c) (groupResolvers c)
    (moduleDepValues c) (f (onePerModuleResolvers c)) (nextAddr c) (fnCalls c).

Definition set_nextAddr (f : N -> N) (c : container) : container :=
  mkContainer (resolvers c) (interfaceBindings c) (invokers c) (moduleKeyContext c)
    (resolveStack c) (callerStack c) (callerMap c) (simpleProviders c) (groupResolvers c)
    (moduleDepValues c) (onePerModuleResolvers c) (f (nextAddr c)) (fnCalls c).

Definition set_fnCalls (f : list (Location * list Value) -> list (Location * list Value))
    (c : container) : container :=
  mkContainer (resolvers c) (interfaceBindings c) (invokers c) (moduleKeyContext c)
    (resolveStack c) (callerStack c) (callerMap c) (simpleProviders c) (groupResolvers c)
    (moduleDepValues c) (onePerModuleResolvers c) (nextAddr c) (f (fnCalls c)).

(** *** Methods on the container as state transformers *)

Definition M (A : Type) : Type := container -> container * result A.

Definition ret {A} (a : A) : M A := fun c => (c, Ok a).
Definition fail {A} (e : error) : M A := fun c => (c, Err e).
Definition panic {A} (msg : string) : M A := fun c => (c, Panic msg).

(** A call that does not touch the container. *)
Definition lift {A} (r : result A) : M A := fun c => (c, r).

Definition bind {A B} (m : M A) (k : A -> M B) : M B :=
  fun c =>
    match m c with
    | (c', Ok a) => k a c'
    | (c', Err e) => (c', Err e)
    | (c', Panic msg) => (c', Panic msg)
    | (c', NoFuel) => (c', NoFuel)
    end.

Definition gets {A} (f : container -> A) : M A := fun c => (c, Ok (f c)).
Definition modify (f : container -> container) : M unit := fun c => (f c, Ok tt).

#[global] Instance M_ret : MRet M := @ret.
#[global] Instance M_bind : MBind M := fun A B k m => bind m k.

(** [for _, x := range l { if err := body(x); err != nil { return err } }] *)
Fixpoint forEach {A} (l : list A) (body : A -> M unit) : M unit :=
  match l with
  | [] => ret tt
  | x :: l' => body x;; forEach l' body
  end.

(** *** Sentinel errors (container.go, group.go, config.go) *)

Definition ErrCyclicDependency : error := errors_New "cyclic dependency detected".
Definition ErrModuleScopeRequired : error := errors_New "module scope required for this operation".
Definition ErrInvalidOutputType : error := errors_New "output type must be a pointer".
Definition ErrDuplicateModuleScope : error := errors_New "duplicate module-scoped dependencies".
Definition ErrInvalidInvoker : error := errors_New "invoker function should not return any outputs".
Definition ErrInvalidManyPerContainerType : error :=
  errors_New "invalid many-per-container type usage".
Definition ErrEmptyModuleName : error := errors_New "expected non-empty module name".

(** *** Binding management *)

Definition fullyQualifiedTypeName (typ : rtype) : string :=
  let pkgType :=
    match reflect.shape typ with
    | reflect.SPointer e | reflect.SSlice e | reflect.SMap _ e | reflect.SArray _ e => e
    | _ => typ
    end in
  let pkgPath := reflect.PkgPath pkgType in
  if String.eqb pkgPath "" then reflect.String_ typ
  else pkgPath +:+ "/" +:+ reflect.String_ typ.

Definition bindingKeyFromTypeName (typeName : string) (key : option moduleKey) : string :=
  match key with
  | None => typeName +:+ ";"
  | Some k => typeName +:+ ";" +:+ mk_name k
  end.

Definition bindingKeyFromType (typ : rtype) (key : option moduleKey) : string :=
  bindingKeyFromTypeName (fullyQualifiedTypeName typ) key.

Definition addBinding (p : interfaceBinding) : M unit :=
  modify (set_interfaceBindings
            <[bindingKeyFromTypeName (interfaceName p) (ib_moduleKey p) := p]>).

Definition addResolver (typ : rtype) (r : option resolver) : M unit :=
  modify (set_resolvers <[fullyQualifiedTypeName typ := r]>).

(** [res, found := c.resolvers[typeName]] *)
Definition resolverByTypeName (typeName : string) (c : container) : option resolver * bool :=
  match resolvers c !! typeName with
  | Some res => (res, true)
  | None => (None, false)
  end.

Definition resolverByType (typ : rtype) (c : container) : option resolver * bool :=
  resolverByTypeName (fullyQualifiedTypeName typ) c.

(** *** The active-call stack *)

Definition checkCyclicDependency (loc : Location) (c : container) : option error :=
  if default false (callerMap c !! loc)
  then Some (errors_Wrapf ErrCyclicDependency (Location_Name loc +:+ " -> " +:+ Location_Name loc))
  else None.

Definition pushCaller (loc : Location) (c : container) : container :=
  set_callerStack (fun s => s ++ [loc]) (set_callerMap <[loc := true]> c).

(** [c.callerStack[:len(c.callerStack)-1]] panics on the empty stack, after
    the [delete]. *)
Definition popCaller (loc : Location) : M unit :=
  fun c =>
    let c' := set_callerMap (delete loc) c in
    match callerStack c' with
    | [] => (c', Panic "slice bounds out of range [:-1]")
    | _ => (set_callerStack (fun s => take (length s - 1) s) c', Ok tt)
    end.

(** [defer d] registered before [body]: [d] runs when the body is left,
    with a value, an error or a panic, and a panic of [d] takes over. The
    end of the budget of the model is not an outcome of the Go code and
    stays what it is. *)
Definition defer {A} (d : M unit) (body : M A) : M A :=
  fun c =>
    let '(c1, r) := body c in
    match d c1, r with
    | (c2, _), NoFuel => (c2, NoFuel)
    | (c2, Panic msg), _ => (c2, Panic msg)
    | (c2, NoFuel), _ => (c2, NoFuel)
    | (c2, _), _ => (c2, r)
    end.

(** ** group.go *)

Definition manyPerContainerTypeType : rtype :=
  reflect.Ty "ManyPerContainerType" "cosmossdk.io/depinject" "depinject.ManyPerContainerType"
    ["IsManyPerContainerType()"] (reflect.SPlain reflect.Interface).

Definition isManyPerContainerType (t : rtype) : bool :=
  reflect.Implements t manyPerContainerTypeType.

Definition isManyPerContainerSliceType (typ : rtype) : bool :=
  match reflect.shape typ with
  | reflect.SSlice e => isManyPerContainerType e
  | _ => false
  end.

Definition groupResolver_zero : groupResolverState :=
  mkGroupResolverState [] [] false VInvalid.

(** The fields of [*g] that are assigned after allocation. *)
Definition groupResolver_state (g : groupResolver) (c : container) : groupResolverState :=
  default groupResolver_zero (groupResolvers c !! g_addr g).

Definition groupResolver_update (g : groupResolver)
    (f : groupResolverState -> groupResolverState) : M unit :=
  modify (fun c => set_groupResolvers <[g_addr g := f (groupResolver_state g c)]> c).

Definition groupResolver_getType (g : groupResolver) : rtype := g_sliceType g.

Definition groupResolver_describeLocation (g : groupResolver) : string :=
  "many-per-container type " +:+ reflect.String_ (g_typ g).

(** The loop of appendSlice, [slice = reflect.Append(slice, values.Index(i))],
    from [i] on and for [n] more rounds. *)
Fixpoint appendSlice_loop `{!reflect.Assignability} (values : Value) (i n : nat)
    (slice : Value) : result Value :=
  match n with
  | O => Ok slice
  | S n' =>
      match reflect_Append slice (Value_Index values i) with
      | Ok slice' => appendSlice_loop values (S i) n' slice'
      | other => other
      end
  end.

Definition appendSlice `{!reflect.Assignability} (slice values : Value) : result Value :=
  let n := Value_Len values in
  appendSlice_loop values 0 n slice.

Definition appendValue `{!reflect.Assignability} (slice value : Value) : result Value :=
  if decide (Value_Kind value = reflect.Slice) then appendSlice slice value
  else reflect_Append slice value.

(** groupResolver.resolve: the bare element type cannot be an input. *)
Definition groupResolver_resolve (g : groupResolver) (_ : option moduleKey) (_ : Location) : M Value :=
  fail (errors_Wrapf ErrInvalidManyPerContainerType
          (reflect.String_ (g_typ g)
           +:+ " is a many-per-container type and cannot be used as an input value, use "
           +:+ reflect.String_ (g_sliceType g) +:+ " instead")).

Definition groupResolver_addNode (g : groupResolver) (provider : simpleProvider) (idx : Z) : M unit :=
  groupResolver_update g (fun st =>
    mkGroupResolverState (g_idxsInValues st ++ [idx]) (g_providers st ++ [provider])
      (g_resolved st) (g_values st)).

(** [&groupResolver{typ: typ, sliceType: reflect.SliceOf(typ)}] at a fresh
    address. *)
Definition newGroupResolver (typ : rtype) : M groupResolver :=
  fun c => (set_nextAddr N.succ c, Ok (mkGroupResolver (nextAddr c) typ (reflect.SliceOf typ))).

Definition newSliceGroupResolver (base : groupResolver) : resolver := sliceGroupResolver base.

(** ** The order of [range] over a map

    Go visits the entries of a map in an order it does not fix. The two
    maps the container ranges over are [c.resolvers] and the set of matches
    of [findImplementingTypes]; an order for each is a listing of the
    entries, any permutation of them. *)
Record RangeOrder : Type := mkRangeOrder {
  range_resolvers : gmap string (option resolver) -> list (string * option resolver);
  range_resolvers_perm : forall m, range_resolvers m ≡ₚ map_to_list m;
  range_types : list rtype -> list rtype;
  range_types_perm : forall l, range_types l ≡ₚ l
}.

Definition resolver_getType (r : resolver) : rtype :=
  match r with
  | simpleResolver _ _ typ => typ
  | of_groupResolver g => groupResolver_getType g
  | sliceGroupResolver g => groupResolver_getType g
  | moduleDepResolver _ _ typ => typ
  | of_onePerModuleResolver o => o_mapType o
  | mapOfOnePerModuleResolver o => o_mapType o
  end.

(** newErrMultipleImplicitInterfaceBindings ranges over the matches to list
    them. *)
Definition newErrMultipleImplicitInterfaceBindings (ρ : RangeOrder)
    (iface : rtype) (matches : list rtype) : error :=
  ErrMultipleImplicitInterfaceBindings iface (range_types ρ matches).

Definition newErrNoTypeForExplicitBindingFound (binding : interfaceBinding) : error :=
  let moduleName :=
    match ib_moduleKey binding with
    | Some k => mk_name k
    | None => ""
    end in
  ErrNoTypeForExplicitBindingFound (implTypeName binding) (interfaceName binding) moduleName.

(** [matches[resolverType] = resolverType] on the set of matches, a list
    without repetition. *)
Definition matches_insert (t : rtype) (matches : list rtype) : list rtype :=
  if decide (t ∈ matches) then matches else matches ++ [t].

(** The loop of findImplementingTypes over the listed entries; calling
    [getType] on a nil resolver panics. *)
Fixpoint findImplementingTypes_loop (interfaceType : rtype)
    (entries : list (string * option resolver)) (matches : list rtype) : result (list rtype) :=
  match entries with
  | [] => Ok matches
  | (_, None) :: _ => Panic "invalid memory address or nil pointer dereference"
  | (_, Some r) :: rest =>
      let resolverType := resolver_getType r in
      if negb (bool_decide (reflect.Kind_ resolverType = reflect.Plain reflect.Interface))
         && reflect.Implements resolverType interfaceType
      then findImplementingTypes_loop interfaceType rest (matches_insert resolverType matches)
      else findImplementingTypes_loop interfaceType rest matches
  end.

Definition findImplementingTypes (ρ : RangeOrder) (interfaceType : rtype)
    (c : container) : result (list rtype) :=
  findImplementingTypes_loop interfaceType (range_resolvers ρ (resolvers c)) [].

Definition resolveInterfaceType (ρ : RangeOrder) (typ : rtype) : M (option resolver) :=
  if negb (bool_decide (reflect.Kind_ typ = reflect.Plain reflect.Interface)) then mret None
  else fun c =>
    match findImplementingTypes ρ typ c with
    | Ok [] => (c, Ok None)
    | Ok [resolverType] =>
        let '(res, _) := resolverByType resolverType c in
        (addResolver typ res;; mret res) c
    | Ok matches => (c, Err (newErrMultipleImplicitInterfaceBindings ρ typ matches))
    | Err e => (c, Err e)
    | Panic msg => (c, Panic msg)
    | NoFuel => (c, NoFuel)
    end.

(** Modelled from the spec: one_per_module.go is not among the sources. A
    type is one-per-module when it has the marker method, and the
    "scope-map-of-T shape" is the map from scope names to such a type. *)
Definition onePerModuleTypeType : rtype :=
  reflect.Ty "OnePerModuleType" "cosmossdk.io/depinject" "depinject.OnePerModuleType"
    ["IsOnePerModuleType()"] (reflect.SPlain reflect.Interface).

Definition isOnePerModuleType (t : rtype) : bool :=
  reflect.Implements t onePerModuleTypeType.

Definition isOnePerModuleMapType (typ : rtype) : bool :=
  match reflect.shape typ with
  | reflect.SMap k e =>
      isOnePerModuleType e && bool_decide (reflect.Kind_ k = reflect.Plain reflect.String)
  | _ => false
  end.

Definition getElementType (typ : rtype) : rtype :=
  if isManyPerContainerSliceType typ || isOnePerModuleMapType typ
  then default typ (reflect.Elem typ)
  else typ.

(** Modelled from the spec: [getExplicitResolver] is not among the sources.
    "An explicit InterfaceBinding for (type, scope) — falls back to the
    global-scope binding if no scope-specific one exists"; a binding whose
    implementation type was never registered is the MissingExplicitBinding
    error. *)
Definition getExplicitResolver (typ : rtype) (key : option moduleKey) : M (option resolver) :=
  fun c =>
    let pref :=
      match interfaceBindings c !! bindingKeyFromType typ key with
      | Some p => Some p
      | None => interfaceBindings c !! bindingKeyFromType typ None
      end in
    match pref with
    | None => (c, Ok None)
    | Some p =>
        match ib_resolver p with
        | Some r => (c, Ok (Some r))
        | None =>
            match resolverByTypeName (implTypeName p) c with
            | (res, true) => (c, Ok res)
            | (_, false) => (c, Err (newErrNoTypeForExplicitBindingFound p))
            end
        end
    end.

(** Modelled from the spec: the group resolver of an element type is made
    on first use and registered for the element type and, as its slice
    form, for the slice type. *)
Definition groupResolverFor (elemType : rtype) : M groupResolver :=
  fun c =>
    match resolverByType elemType c with
    | (Some (of_groupResolver g), _) => (c, Ok g)
    | _ =>
        (g ← newGroupResolver elemType;
         addResolver elemType (Some (of_groupResolver g));;
         addResolver (g_sliceType g) (Some (newSliceGroupResolver g));;
         mret g) c
    end.

(** Modelled from the spec: likewise for the scoped-map resolver. *)
Definition onePerModuleResolverFor (elemType mapType : rtype) : M onePerModuleResolver :=
  fun c =>
    match resolverByType elemType c with
    | (Some (of_onePerModuleResolver o), _) => (c, Ok o)
    | _ =>
        let o := mkOnePerModuleResolver (nextAddr c) elemType mapType in
        (modify (set_nextAddr N.succ);;
         addResolver elemType (Some (of_onePerModuleResolver o));;
         addResolver mapType (Some (mapOfOnePerModuleResolver o));;
         mret o) c
    end.

(** Modelled from the spec: [createContainerResolver] is not among the
    sources. "If the type is itself a collection-of-T or scope-map-of-T
    shape, unwrap to the group/scoped-map resolver for T." *)
Definition createContainerResolver (elemType typ : rtype) : M (option resolver) :=
  if isManyPerContainerSliceType typ then
    g ← groupResolverFor elemType; mret (Some (newSliceGroupResolver g))
  else
    o ← onePerModuleResolverFor elemType typ; mret (Some (mapOfOnePerModuleResolver o)).

Definition getResolver (ρ : RangeOrder) (typ : rtype) (key : option moduleKey) : M (option resolver) :=
  fun c =>
    match getExplicitResolver typ key c with
    | (c1, Ok None) =>
        match resolverByType typ c1 with
        | (r, true) => (c1, Ok r)
        | (_, false) =>
            let elemType := getElementType typ in
            if decide (elemType = typ) then resolveInterfaceType ρ typ c1
            else createContainerResolver elemType typ c1
        end
    | other => other
    end.

(** ** Resolution

    [call] runs a provider, whose inputs are resolved by resolvers, which
    run providers through [call] again. The functions below are written
    over [call_rec], the [call] of the nested invocations; [call] itself
    closes the knot with a budget on the depth of nesting. *)

Section Resolution.

Context {assignability : reflect.Assignability}.

Variable ρ : RangeOrder.
Variable call_rec : providerDescriptor -> option moduleKey -> M (list Value).

Definition simpleProvider_state (s : simpleProvider) (c : container) : simpleProviderState :=
  default (mkSimpleProviderState false []) (simpleProviders c !! sp_addr s).

(** Modelled from the spec: at-most-once invocation of the descriptor,
    the values cached for the container's lifetime. *)
Definition simpleProvider_resolveValues (s : simpleProvider) : M (list Value) :=
  st ← gets (simpleProvider_state s);
  if sp_called st then mret (sp_values st)
  else
    vals ← call_rec (sp_provider s) (sp_moduleKey s);
    modify (set_simpleProviders <[sp_addr s := mkSimpleProviderState true vals]>);;
    mret vals.

(** [values[idx]] *)
Definition valueAt (values : list Value) (idx : Z) : M Value :=
  match index values idx with
  | Some v => mret v
  | None => panic "index out of range"
  end.

(** Modelled from the spec: the direct resolver yields the output of its
    descriptor at its index. *)
Definition simpleResolver_resolve (node : simpleProvider) (idxInValues : Z)
    (_ : option moduleKey) (_ : Location) : M Value :=
  vals ← simpleProvider_resolveValues node;
  valueAt vals idxInValues.

(** The loop of groupResolver.resolveValues from its [i]-th provider. *)
Fixpoint groupResolver_resolveValues_loop (g : groupResolver) (i : nat)
    (providers : list simpleProvider) (result : Value) : M Value :=
  match providers with
  | [] => mret result
  | provider :: rest =>
      values ← simpleProvider_resolveValues provider;
      st ← gets (groupResolver_state g);
      match g_idxsInValues st !! i with
      | None => panic "index out of range"
      | Some idx =>
          value ← valueAt values idx;
          result ← lift (appendValue result value);
          groupResolver_resolveValues_loop g (S i) rest result
      end
  end.

Definition groupResolver_resolveValues (g : groupResolver) : M unit :=
  st ← gets (groupResolver_state g);
  result ← lift (reflect_MakeSlice (g_sliceType g) (length (g_providers st)));
  result ← groupResolver_resolveValues_loop g 0 (g_providers st) result;
  groupResolver_update g (fun st =>
    mkGroupResolverState (g_idxsInValues st) (g_providers st) true result).

Definition sliceGroupResolver_resolve (g : groupResolver) (_ : option moduleKey)
    (caller : Location) : M Value :=
  st ← gets (groupResolver_state g);
  (if negb (g_resolved st) then groupResolver_resolveValues g else mret tt);;
  st' ← gets (groupResolver_state g);
  mret (g_values st').

(** Modelled from the spec: a scoped provider runs once per invoking
    scope and needs a scope. *)
Definition moduleDepResolver_resolve (node : moduleDepProvider) (idxInValues : Z)
    (moduleKey : option moduleKey) (_ : Location) : M Value :=
  match moduleKey with
  | None => fail (errors_Wrapf ErrModuleScopeRequired (Location_Name (Location_ (md_provider node))))
  | Some k =>
      cached ← gets (fun c => moduleDepValues c !! (md_addr node, mk_name k));
      vals ← match cached with
             | Some vals => mret vals
             | None =>
                 vals ← call_rec (md_provider node) (Some k);
                 modify (set_moduleDepValues <[(md_addr node, mk_name k) := vals]>);;
                 mret vals
             end;
      valueAt vals idxInValues
  end.

Definition onePerModuleResolver_state (o : onePerModuleResolver) (c : container)
    : onePerModuleResolverState :=
  default (mkOnePerModuleResolverState [] false VInvalid) (onePerModuleResolvers c !! o_addr o).

(** Modelled from the spec: the scoped-map resolver, "exposed as a mapping
    from scope name to value", with the contribution model of the group
    resolver. *)
Fixpoint mapOfOnePerModuleResolver_loop
    (providers : list (moduleKey * simpleProvider * Z)) (entries : list (string * Value))
    : M (list (string * Value)) :=
  match providers with
  | [] => mret entries
  | (key, provider, idx) :: rest =>
      values ← simpleProvider_resolveValues provider;
      value ← valueAt values idx;
      mapOfOnePerModuleResolver_loop rest (entries ++ [(mk_name key, value)])
  end.

Definition mapOfOnePerModuleResolver_resolve (o : onePerModuleResolver)
    (_ : option moduleKey) (_ : Location) : M Value :=
  st ← gets (onePerModuleResolver_state o);
  if o_resolved st then mret (o_values st)
  else
    entries ← mapOfOnePerModuleResolver_loop (o_providers st) [];
    modify (fun c => set_onePerModuleResolvers
              <[o_addr o := mkOnePerModuleResolverState
                              (o_providers (onePerModuleResolver_state o c)) true (VMap (o_mapType o) entries)]> c);;
    mret (VMap (o_mapType o) entries).

(** Modelled from the spec: as for the group resolver, the bare element
    type is not an input. *)
Definition onePerModuleResolver_resolve (o : onePerModuleResolver)
    (_ : option moduleKey) (_ : Location) : M Value :=
  fail (errors_Errorf
          (reflect.String_ (o_typ o)
           +:+ " is a one-per-module type and cannot be used as an input value, use "
           +:+ reflect.String_ (o_mapType o) +:+ " instead")).

(** The method [resolve] of the interface [resolver]. *)
Definition resolver_resolve (r : resolver) (moduleKey : option moduleKey)
    (caller : Location) : M Value :=
  match r with
  | simpleResolver node idx _ => simpleResolver_resolve node idx moduleKey caller
  | of_groupResolver g => groupResolver_resolve g moduleKey caller
  | sliceGroupResolver g => sliceGroupResolver_resolve g moduleKey caller
  | moduleDepResolver node idx _ => moduleDepResolver_resolve node idx moduleKey caller
  | of_onePerModuleResolver o => onePerModuleResolver_resolve o moduleKey caller
  | mapOfOnePerModuleResolver o => mapOfOnePerModuleResolver_resolve o moduleKey caller
  end.

(** Modelled from the spec: [container.resolve] is not among the sources.
    A scope-identity input is the scope itself; otherwise the resolver of
    the type resolves; without a resolver an optional input is "passed as
    an explicit absence" and a required one is the MissingDependency
    error. *)
Definition resolve (input : providerInput) (moduleKey : option moduleKey)
    (caller : Location) : M Value :=
  if decide (in_Type input = moduleKeyType) then
    match moduleKey with
    | None => fail (errors_Wrapf ErrModuleScopeRequired (Location_Name caller))
    | Some k => mret (VModuleKey (mk_name k))
    end
  else
    vr ← getResolver ρ (in_Type input) moduleKey;
    match vr with
    | None =>
        if in_Optional input then mret (VZero (in_Type input))
        else fail (errors_Errorf ("can't resolve type "
                     +:+ fullyQualifiedTypeName (in_Type input)
                     +:+ " for " +:+ Location_String caller))
    | Some r => resolver_resolve r moduleKey caller
    end.

Fixpoint resolveInputs (inputs : list providerInput) (moduleKey : option moduleKey)
    (loc : Location) : M (list Value) :=
  match inputs with
  | [] => mret []
  | input :: rest =>
      val ← resolve input moduleKey loc;
      inVals ← resolveInputs rest moduleKey loc;
      mret (val :: inVals)
  end.

(** [out, err := provider.Fn(inVals)], recorded in [fnCalls]. *)
Definition runFn (provider : providerDescriptor) (inVals : list Value) : M (list Value) :=
  modify (set_fnCalls (fun h => h ++ [(Location_ provider, inVals)]));;
  match Fn provider inVals with
  | fn_returns _ (Some err) =>
      fail (errors_Wrapf err ("error calling provider " +:+ Location_String (Location_ provider)))
  | fn_returns out None => mret out
  | fn_panics v => panic v
  end.

(** The body of [call]. *)
Definition call_body (provider : providerDescriptor) (moduleKey : option moduleKey)
    : M (list Value) :=
  fun c =>
    let loc := Location_ provider in
    match checkCyclicDependency loc c with
    | Some err => (c, Err err)
    | None =>
        (modify (pushCaller loc);;
         defer (popCaller loc)
           (inVals ← resolveInputs (Inputs provider) moduleKey loc;
            runFn provider inVals)) c
    end.

End Resolution.

(** [call] with at most [fuel] invocations nested in one another. *)
Fixpoint call `{!reflect.Assignability} (ρ : RangeOrder) (fuel : nat)
    (provider : providerDescriptor) (moduleKey : option moduleKey) : M (list Value) :=
  match fuel with
  | O => fun c => (c, NoFuel)
  | S fuel' => call_body ρ (call ρ fuel') provider moduleKey
  end.

(** ** Registration *)

Definition stringType : rtype := reflect.Ty "string" "" "string" [] (reflect.SPlain reflect.String).

(** [reflect.MapOf(stringType, t)] *)
Definition MapOfString (t : rtype) : rtype :=
  reflect.Ty "" "" ("map[string]" +:+ reflect.String_ t) [] (reflect.SMap stringType t).

(** The value of [interface{}] handed to [Provide] or [Invoke], by what the
    extraction of its descriptor gives. Modelled from the spec:
    provider_desc.go is not among the sources; a Descriptor is "created at
    registration time from a function's declared signature". *)
Inductive providerValue : Type :=
| ProviderFunc (desc : providerDescriptor)
| NotAProvider (err : error).

(** Modelled from the spec: the extraction gives the descriptor of a
    function and an error for anything else. *)
Definition extractProviderDescriptor (provider : providerValue) : result providerDescriptor :=
  match provider with
  | ProviderFunc desc => Ok desc
  | NotAProvider err => Err err
  end.

(** Modelled from the spec: "invoker inputs are always optional". *)
Definition extractInvokerDescriptor (provider : providerValue) : result providerDescriptor :=
  match provider with
  | ProviderFunc desc =>
      Ok (mkDescriptor (map (fun i => mkInput (in_Type i) true) (Inputs desc))
            (Outputs desc) (Fn desc) (Location_ desc))
  | NotAProvider err => Err err
  end.

(** [addNode] returns the node it made, a [*simpleProvider] or a
    [*moduleDepProvider], as [interface{}]. *)
Inductive node : Type :=
| node_simpleProvider (sp : simpleProvider)
| node_moduleDepProvider (md : moduleDepProvider).

(** [for i, x := range l] with the index. *)
Fixpoint forEachIndexed {A} (i : Z) (l : list A) (body : Z -> A -> M unit) : M unit :=
  match l with
  | [] => mret tt
  | x :: l' => body i x;; forEachIndexed (i + 1)%Z l' body
  end.

(** Modelled from the spec: [hasModuleKeyParam] is not among the sources;
    the descriptor "declares a scope-identity input". *)
Definition hasModuleKeyParam (provider : providerDescriptor) : bool :=
  existsb (fun i => bool_decide (in_Type i = moduleKeyType)) (Inputs provider).

(** Modelled from the spec: the ScopeKey is "created once per distinct name
    and thereafter returned as the same identity object (interning)". *)
Definition createOrGetModuleKey (moduleName : string) : M moduleKey :=
  fun c =>
    match moduleKeyContext c !! moduleName with
    | Some k => (c, Ok k)
    | None =>
        let k := mkModuleKey moduleName in
        (set_moduleKeyContext <[moduleName := k]> c, Ok k)
    end.

Definition duplicateDefinitionError (typ : rtype) (newLoc : Location) (oldLoc : string) : error :=
  errors_WithStack (ErrDuplicateDefinition typ newLoc oldLoc).

(** The method [describeLocation] of a resolver: group.go for the group
    resolver. Modelled from the spec for the others: the registration site
    of the descriptor. *)
Definition resolver_describeLocation (r : resolver) : string :=
  match r with
  | simpleResolver n _ _ => Location_String (Location_ (sp_provider n))
  | of_groupResolver g | sliceGroupResolver g => groupResolver_describeLocation g
  | moduleDepResolver n _ _ => Location_String (Location_ (md_provider n))
  | of_onePerModuleResolver o | mapOfOnePerModuleResolver o =>
      "one-per-module type " +:+ reflect.String_ (o_typ o)
  end.

Definition ErrInvalidDebugConfig : error := errors_New "failed to create debug configuration".
Definition ErrProviderRegistration : error := errors_New "failed to register providers".

Section Injection.

Context {assignability : reflect.Assignability}.
Variable rune : Type.
Variable runes : string -> list rune.
Variable unicode_IsLower : rune -> bool.
Variable ρ : RangeOrder.

(** Modelled from the spec: [validateInput] is not among the sources.
    "For each declared input/output type, verify it belongs to the
    system's public type namespace". *)
Definition validateInput (typ : rtype) (key : option moduleKey) : M unit :=
  lift (isExportedType rune runes unicode_IsLower typ).

(** The resolver found only picks the node of the diagnostic graph. *)
Definition addInputTypeToGraph (typ : rtype) (provider : providerDescriptor)
    (key : option moduleKey) : M unit :=
  vr ← getResolver ρ typ key;
  mret tt.

Definition validateProviderInputs (provider : providerDescriptor) (key : option moduleKey)
    : M unit :=
  forEach (Inputs provider) (fun i =>
    validateInput (in_Type i) key;;
    addInputTypeToGraph (in_Type i) provider key).

(** Modelled from the spec: a contribution to the scoped-map resolver
    needs a scope, and "duplicate contributions from the same scope for
    the same type are a fatal duplicate-definition error". *)
Definition onePerModuleResolver_addNode (o : onePerModuleResolver) (provider : simpleProvider)
    (idx : Z) : M unit :=
  match sp_moduleKey provider with
  | None => fail (errors_Wrapf ErrModuleScopeRequired (reflect.String_ (o_typ o)))
  | Some k =>
      st ← gets (onePerModuleResolver_state o);
      if existsb (fun e => bool_decide (e.1.1 = k)) (o_providers st)
      then fail (errors_Wrapf ErrDuplicateModuleScope (mk_name k))
      else modify (set_onePerModuleResolvers
             <[o_addr o := mkOnePerModuleResolverState (o_providers st ++ [(k, provider, idx)])
                             (o_resolved st) (o_values st)]>)
  end.

(** Modelled from the spec: "register it as a direct provider for each of
    its output types (error on duplicate)"; "outputs marked as collection
    types route into the corresponding group/scoped-map resolver instead
    of a direct one". *)
Definition addOutput (sp : simpleProvider) (i : Z) (out : providerOutput) : M unit :=
  let typ := out_Type out in
  lift (isExportedType rune runes unicode_IsLower typ);;
  if isManyPerContainerSliceType typ then
    g ← groupResolverFor (default typ (reflect.Elem typ)); groupResolver_addNode g sp i
  else if isManyPerContainerType typ then
    g ← groupResolverFor typ; groupResolver_addNode g sp i
  else if isOnePerModuleType typ then
    o ← onePerModuleResolverFor typ (MapOfString typ); onePerModuleResolver_addNode o sp i
  else
    found ← gets (resolverByType typ);
    match found with
    | (Some r, true) =>
        fail (duplicateDefinitionError typ (Location_ (sp_provider sp)) (resolver_describeLocation r))
    | (None, true) =>
        fail (duplicateDefinitionError typ (Location_ (sp_provider sp)) "")
    | (_, false) => addResolver typ (Some (simpleResolver sp i typ))
    end.

(** Modelled from the spec: [addSimpleNode] is not among the sources. The
    node of the descriptor is made at a fresh address and each output is
    registered. *)
Definition addSimpleNode (provider : providerDescriptor) (key : option moduleKey) : M node :=
  addr ← gets nextAddr;
  modify (set_nextAddr N.succ);;
  let sp := mkSimpleProvider addr provider key in
  forEachIndexed 0 (Outputs provider) (addOutput sp);;
  mret (node_simpleProvider sp).

(** Modelled from the spec: "if it declares a scope-identity input ...
    register it once per invoking scope as a scoped provider". *)
Definition addModuleScopedNode (provider : providerDescriptor) : M node :=
  addr ← gets nextAddr;
  modify (set_nextAddr N.succ);;
  let md := mkModuleDepProvider addr provider in
  forEachIndexed 0 (Outputs provider) (fun i out =>
    let typ := out_Type out in
    lift (isExportedType rune runes unicode_IsLower typ);;
    found ← gets (resolverByType typ);
    match found with
    | (Some r, true) =>
        fail (duplicateDefinitionError typ (Location_ provider) (resolver_describeLocation r))
    | (None, true) => fail (duplicateDefinitionError typ (Location_ provider) "")
    | (_, false) => addResolver typ (Some (moduleDepResolver md i typ))
    end);;
  mret (node_moduleDepProvider md).

Definition addNode (provider : providerDescriptor) (key : option moduleKey) : M node :=
  validateProviderInputs provider key;;
  if negb (hasModuleKeyParam provider) then addSimpleNode provider key
  else addModuleScopedNode provider.

(** Modelled from the spec: invokers "run, in registration order, after
    the full provider graph is validated"; an invoker that "declares
    non-error outputs" is refused. *)
Definition addInvoker (provider : providerDescriptor) (key : option moduleKey) : M unit :=
  match Outputs provider with
  | [] => modify (set_invokers (fun l => l ++ [mkInvoker provider key]))
  | _ => fail ErrInvalidInvoker
  end.

(** Modelled from the spec: "supply(values) registers constant pre-built
    values as zero-input direct providers". A supplied value comes with
    its type. *)
Definition supply (value : rtype * Value) (loc : Location) : M unit :=
  n ← addSimpleNode (mkDescriptor [] [mkOutput value.1] (fun _ => fn_returns [value.2] None) loc) None;
  mret tt.

(** *** config.go *)

(** [containerConfig], a function on the container. *)
Definition Config : Type := M unit.

Definition apply (c : Config) : M unit := c.

Definition provide (key : option moduleKey) (providers : list providerValue) : M unit :=
  forEach providers (fun provider =>
    match extractProviderDescriptor provider with
    | Ok desc =>
        fun c =>
          match addNode desc key c with
          | (c', Err err) => (c', Err (errors_WithStack err))
          | (c', Ok _) => (c', Ok tt)
          | (c', Panic msg) => (c', Panic msg)
          | (c', NoFuel) => (c', NoFuel)
          end
    | Err err => fail (errors_WithStack err)
    | Panic msg => panic msg
    | NoFuel => lift NoFuel
    end).

Definition invoke (key : option moduleKey) (invokers : list providerValue) : M unit :=
  forEach invokers (fun invoker =>
    match extractInvokerDescriptor invoker with
    | Ok desc =>
        fun c =>
          match addInvoker desc key c with
          | (c', Err err) => (c', Err (errors_WithStack err))
          | other => other
          end
    | Err err => fail (errors_WithStack err)
    | Panic msg => panic msg
    | NoFuel => lift NoFuel
    end).

Definition bindInterface (inTypeName outTypeName moduleName : string) : M unit :=
  let mk := if String.eqb moduleName "" then None else Some (mkModuleKey moduleName) in
  addBinding (mkInterfaceBinding inTypeName outTypeName mk None).

Definition Provide (providers : list providerValue) : Config :=
  provide None providers.

Definition ProvideInModule (moduleName : string) (providers : list providerValue) : Config :=
  if String.eqb moduleName "" then fail ErrEmptyModuleName
  else key ← createOrGetModuleKey moduleName; provide (Some key) providers.

Definition Invoke (invokers : list providerValue) : Config :=
  invoke None invokers.

Definition InvokeInModule (moduleName : string) (invokers : list providerValue) : Config :=
  if String.eqb moduleName "" then fail ErrEmptyModuleName
  else key ← createOrGetModuleKey moduleName; invoke (Some key) invokers.

Definition BindInterface (inTypeName outTypeName : string) : Config :=
  bindInterface inTypeName outTypeName "".

Definition BindInterfaceInModule (moduleName inTypeName outTypeName : string) : Config :=
  bindInterface inTypeName outTypeName moduleName.

(** [loc] is [LocationFromCaller(1)], taken when [Supply] is called. *)
Definition Supply (loc : Location) (values : list (rtype * Value)) : Config :=
  forEach values (fun v =>
    fun c =>
      match supply v loc c with
      | (c', Err err) => (c', Err (errors_WithStack err))
      | other => other
      end).

Definition Error (err : error) : Config := fail (errors_WithStack err).

Definition Configs (configs : list Config) : Config :=
  forEach configs (fun cfg =>
    fun c =>
      match apply cfg c with
      | (c', Err err) => (c', Err (errors_WithStack err))
      | other => other
      end).

(** *** inject.go *)

(** Modelled from the spec: [container.build] is not among the sources.
    "Resolve each requested type in order and assign the result; finally
    run all registered invokers in registration order." An output is
    asked for by a pointer to fill, given here by the type of the
    pointer; the values assigned are returned. *)
Definition build (fuel : nat) (loc : Location) (outputs : list rtype) : M (list Value) :=
  inputs ← lift (foldr (fun typ acc =>
              match reflect.shape typ, acc with
              | reflect.SPointer e, Ok l => Ok (mkInput e false :: l)
              | reflect.SPointer _, other => other
              | _, _ => Err (errors_Wrapf ErrInvalidOutputType (reflect.String_ typ))
              end) (Ok []) outputs);
  vals ← resolveInputs ρ (call ρ fuel) inputs None loc;
  invs ← gets invokers;
  forEach invs (fun inv => call ρ fuel (inv_fn inv) (inv_modKey inv);; mret tt);;
  mret vals.

(** buildContainer creates and configures the dependency container. *)
Definition buildContainer (fuel : nat) (loc : Location) (config : Config)
    (outputs : list rtype) : result (list Value) :=
  let container := newContainer in
  match apply config container with
  | (container', Ok _) => (build fuel loc outputs container').2
  | (_, Err err) => Err (fmt_Errorf_w ErrProviderRegistration err)
  | (_, Panic msg) => Panic msg
  | (_, NoFuel) => NoFuel
  end.

(** [Inject], through [runInjection] and [performInjection]: the debug
    options never fail, and [handleInjectionError] hands the error on.
    [loc] is [LocationFromCaller(1)]. *)
Definition Inject (fuel : nat) (loc : Location) (containerConfig : Config)
    (outputs : list rtype) : result (list Value) :=
  buildContainer fuel loc containerConfig outputs.

End Injection.

(** ** Concrete objects for the examples *)

(** The order in which stdpp lists a map, as one order of [range]. *)
Definition mapOrder : RangeOrder :=
  mkRangeOrder map_to_list (fun m => reflexivity (map_to_list m)) id
    (fun l => reflexivity l).

(** Another one: the registry in the reverse order. *)
Definition reverseOrder : RangeOrder :=
  mkRangeOrder (fun m => reverse (map_to_list m)) (fun m => reverse_Permutation (map_to_list m))
    id (fun l => reflexivity l).

(** Assignability on the types of the examples, which are named types and
    the unnamed slice types of them: a type is assignable to itself and to
    an interface type it implements, and to no other type. *)
#[global] Instance identical_or_implemented : reflect.Assignability :=
  fun V T =>
    bool_decide (V = T)
    || (bool_decide (reflect.Kind_ T = reflect.Plain reflect.Interface)
        && reflect.Implements V T).

(** Names in ASCII: a code point per byte, lower case from a to z and
    upper case from A to Z. *)
Definition ascii_runes (s : string) : list N := map N_of_ascii (String.list_ascii_of_string s).
Definition ascii_IsLower (r : N) : bool := (97 <=? r)%N && (r <=? 122)%N.
Definition ascii_IsUpper (r : N) : bool := (65 <=? r)%N && (r <=? 90)%N.

Definition intType : rtype := reflect.Ty "int" "" "int" [] (reflect.SPlain reflect.Int).
Definition float64Type : rtype :=
  reflect.Ty "float64" "" "float64" [] (reflect.SPlain reflect.Float64).

(** [reflect.PointerTo(t)] *)
Definition PointerTo (t : rtype) : rtype :=
  reflect.Ty "" "" ("*" +:+ reflect.String_ t) [] (reflect.SPointer t).

Definition here : Location := mkLocation 0 "main" "example.com/app" "main.go" 1.

(** [f : int -> float64] and [g : float64 -> int], whatever they compute. *)
Definition provider_f (fn : list Value -> fnResult) : providerDescriptor :=
  mkDescriptor [mkInput intType false] [mkOutput float64Type] fn
    (mkLocation 1 "f" "example.com/app" "main.go" 10).

Definition provider_g (fn : list Value -> fnResult) : providerDescriptor :=
  mkDescriptor [mkInput float64Type false] [mkOutput intType] fn
    (mkLocation 2 "g" "example.com/app" "main.go" 20).

(** A provider of [int] without inputs. *)
Definition provider_five : providerDescriptor :=
  mkDescriptor [] [mkOutput intType] (fun _ => fn_returns [VPlain intType "5"] None)
    (mkLocation 3 "five" "example.com/app" "main.go" 30).

(** ** Vocabulary of the statements *)

(** The registry read as the claim has it: whatever is registered for a
    type can be found under a BindingKey of the type. *)
Definition registry_keyed_by_BindingKey : Prop :=
  forall (typ : rtype) (r : option resolver) (c : container),
    exists key : option moduleKey,
      resolvers (addResolver typ r c).1 !! bindingKeyFromType typ key = Some r.

(** [c.callerMap[l]]: whether [l] is in the caller set. *)
Definition callerSet (c : container) (l : Location) : bool :=
  default false (callerMap c !! l).

(** The active-call stack and the caller set of [c'] are those of [c]. *)
Definition same_callers (c c' : container) : Prop :=
  callerStack c' = callerStack c /\ forall l, callerSet c' l = callerSet c l.

(** The map behind the caller set holds [true] only: nothing in the
    package stores [false] in [callerMap]. *)
Definition callerMap_wf (c : container) : Prop :=
  forall l : Location, callerMap c !! l <> Some false.

(** For such a container, the stack and the map itself are those of [c]. *)
Definition same_callerMap (c c' : container) : Prop :=
  callerMap_wf c -> callerStack c' = callerStack c /\ callerMap c' = callerMap c.

(** An operation keeps the relation [R] between the container before and
    the container after. *)
Definition keeps (R : container -> container -> Prop) {A} (m : M A) : Prop :=
  forall c : container, R c (m c).1.

(** What one contributed value adds to the group: its elements when its
    kind is slice, itself otherwise. *)
Definition splice (value : Value) : list Value :=
  if decide (Value_Kind value = reflect.Slice) then Value_elems value else [value].

(** Whether [reflect.Append] takes [x] into a slice of the element type
    [T]: [x] is not the zero [Value] and its type is assignable to [T]. *)
Definition assignable_to `{!reflect.Assignability} (T : rtype) (x : Value) : bool :=
  match Value_Type x with
  | Some V => reflect.AssignableTo V T
  | None => false
  end.

(** [contributes call_rec g i providers c values c']: from the container
    [c], the providers, which stand in the group [g] from position [i] on,
    resolve one after the other, in the order of the list, and contribute
    [values], each the output at the index the group holds for the
    provider; [c'] is the container after the last one. *)
Inductive contributes (call_rec : providerDescriptor -> option moduleKey -> M (list Value))
    (g : groupResolver) : nat -> list simpleProvider -> container -> list Value -> container -> Prop :=
| contributes_nil i c : contributes call_rec g i [] c [] c
| contributes_cons i provider rest c c1 c2 outputs idx value values :
    simpleProvider_resolveValues call_rec provider c = (c1, Ok outputs) ->
    g_idxsInValues (groupResolver_state g c1) !! i = Some idx ->
    index outputs idx = Some value ->
    contributes call_rec g (S i) rest c1 values c2 ->
    contributes call_rec g i (provider :: rest) c (value :: values) c2.

(** A many-per-container type of strings, [type Tag string] with the marker
    method, and two providers: [tags_ab] gives the collection of "a" and
    "b", [tag_c] gives "c". *)
Definition TagType : rtype :=
  reflect.Ty "Tag" "example.com/app" "app.Tag" ["IsManyPerContainerType()"]
    (reflect.SPlain reflect.String).

Definition tag (s : string) : Value := VPlain TagType s.

Definition tags_ab : providerDescriptor :=
  mkDescriptor [] [mkOutput (reflect.SliceOf TagType)]
    (fun _ => fn_returns [VSlice (reflect.SliceOf TagType) [tag "a"; tag "b"]] None)
    (mkLocation 4 "TagsAB" "example.com/app" "main.go" 40).

Definition tag_c : providerDescriptor :=
  mkDescriptor [] [mkOutput TagType] (fun _ => fn_returns [tag "c"] None)
    (mkLocation 5 "TagC" "example.com/app" "main.go" 50).

(** The container with [tags_ab] and [tag_c] provided, the group of
    [TagType] in it and its two providers. *)
Definition tags_container : container :=
  (Provide N ascii_runes ascii_IsLower mapOrder
     [ProviderFunc tags_ab; ProviderFunc tag_c] newContainer).1.

Definition tags_group : groupResolver := mkGroupResolver 1 TagType (reflect.SliceOf TagType).
Definition tags_ab_node : simpleProvider := mkSimpleProvider 0 tags_ab None.
Definition tag_c_node : simpleProvider := mkSimpleProvider 2 tag_c None.

(** An invoker that asks for one [Tag], the bare element type. *)
Definition wants_tag : providerDescriptor :=
  mkDescriptor [mkInput TagType false] [] (fun _ => fn_returns [] None)
    (mkLocation 12 "WantsTag" "example.com/app" "main.go" 70).

(** A many-per-container type that is itself a slice type,
    [type Handlers []Handler] with the marker method, and a provider that
    gives one value of it, with two elements. *)
Definition HandlerType : rtype :=
  reflect.Ty "Handler" "example.com/app" "app.Handler" [] (reflect.SPlain reflect.Struct).

Definition HandlersType : rtype :=
  reflect.Ty "Handlers" "example.com/app" "app.Handlers" ["IsManyPerContainerType()"]
    (reflect.SSlice HandlerType).

Definition handlers_12 : Value :=
  VSlice HandlersType [VPlain HandlerType "h1"; VPlain HandlerType "h2"].

Definition ProvideHandlers : providerDescriptor :=
  mkDescriptor [] [mkOutput HandlersType] (fun _ => fn_returns [handlers_12] None)
    (mkLocation 11 "ProvideHandlers" "example.com/app" "main.go" 60).

(** The group of [Handlers] as [newGroupResolver] makes it, with the
    provider added by [addNode]. *)
Definition handlers_group : groupResolver :=
  mkGroupResolver 0 HandlersType (reflect.SliceOf HandlersType).

Definition handlers_node : simpleProvider := mkSimpleProvider 1 ProvideHandlers None.

Definition handlers_container : container :=
  (groupResolver_addNode handlers_group handlers_node 0 newContainer).1.


(** *** Types reached from a type *)

(** [reachable t u]: [u] is [t] or is reached from [t] through pointer,
    slice, array, channel, map-key, map-value and function parameter and
    result positions. *)
Inductive reachable : rtype -> rtype -> Prop :=
| reachable_refl t : reachable t t
| reachable_step t u v : u ∈ reflect.children t -> reachable u v -> reachable t v.

(** A named type, as the check takes it: a type that has a name and a
    package path, which a type declared in a package has and a predeclared
    type such as [int] has not. *)
Definition named (t : rtype) : Prop := reflect.Name t <> "" /\ reflect.PkgPath t <> "".

(** [visited t u]: as [reachable], but the positions of a named type are
    not entered. *)
Inductive visited : rtype -> rtype -> Prop :=
| visited_refl t : visited t t
| visited_step t u v : ~ named t -> u ∈ reflect.children t -> visited u v -> visited t v.

(** "internal" stands in the package path as a whole segment: at the start
    or after a "/", and at the end or before a "/". *)
Definition internal_segment (pkgPath : string) : Prop :=
  exists pre post,
    pkgPath = pre +:+ "internal" +:+ post
    /\ (pre = "" \/ exists pre', pre = pre' +:+ "/")
    /\ (post = "" \/ exists post', post = "/" +:+ post').

Section Acceptable.

Variable rune : Type.
Variable runes : string -> list rune.
Variable unicode_IsLower : rune -> bool.

(** The first code point of the name is a lower-case letter. *)
Definition lower_initial (name : string) : Prop :=
  exists r rest, runes name = r :: rest /\ unicode_IsLower r = true.

(** A named type is acceptable when its name does not start with a
    lower-case letter and its package path has no "internal" segment. *)
Definition acceptable (u : rtype) : Prop :=
  named u -> ~ lower_initial (reflect.Name u) /\ ~ internal_segment (reflect.PkgPath u).

(** [rejects u r]: [r] is the error of the check for the named type [u]. *)
Definition rejects (u : rtype) (r : result unit) : Prop :=
  (lower_initial (reflect.Name u)
   /\ r = Err (errors_Wrapf ErrTypeNotExported (reflect.String_ u)))
  \/ (~ lower_initial (reflect.Name u)
      /\ internal_segment (reflect.PkgPath u)
      /\ r = Err (errors_Wrapf ErrInternalPackage (reflect.String_ u))).

(** The outcome of a check over the types [S] it visits: it passes and all
    of them are acceptable, or it is the error of one of them. *)
Definition check_outcome (r : result unit) (S : rtype -> Prop) : Prop :=
  (r = Ok tt /\ forall u, S u -> acceptable u)
  \/ (exists u, S u /\ named u /\ rejects u r).

End Acceptable.

(** The types visited from the types of a list. *)
Definition visited_from (l : list rtype) (u : rtype) : Prop :=
  exists ch, ch ∈ l /\ visited ch u.

(** [type Foo []bar] in a package [app]: an exported slice type of an
    unexported struct type. *)
Definition barType : rtype :=
  reflect.Ty "bar" "example.com/app" "app.bar" [] (reflect.SPlain reflect.Struct).

Definition FooType : rtype :=
  reflect.Ty "Foo" "example.com/app" "app.Foo" [] (reflect.SSlice barType).

(** [type _T struct{}] in the package [app]: its name starts with a code
    point that is no letter, so it is not exported. *)
Definition underscoreType : rtype :=
  reflect.Ty "_T" "example.com/app" "app._T" [] (reflect.SPlain reflect.Struct).

(** *** Implementations of an interface in the registry *)

(** [implements_entry iface r]: the resolver [r] produces a non-interface
    type that implements [iface], the test of findImplementingTypes. *)
Definition implements_entry (iface : rtype) (r : resolver) : Prop :=
  reflect.Kind_ (resolver_getType r) <> reflect.Plain reflect.Interface
  /\ reflect.Implements (resolver_getType r) iface = true.

(** [matching c iface t]: a resolver registered in [c] produces [t] and
    passes the test. *)
Definition matching (c : container) (iface t : rtype) : Prop :=
  exists (k : string) (r : resolver),
    resolvers c !! k = Some (Some r) /\ resolver_getType r = t /\ implements_entry iface r.

(** A container in which the group resolver of [Tag] is registered as
    group.go has it: the [*groupResolver] for the bare type and its slice
    form for [[]Tag]. *)
Definition group_container : container :=
  (addResolver (reflect.SliceOf TagType) (Some (newSliceGroupResolver tags_group))
     (addResolver TagType (Some (of_groupResolver tags_group)) newContainer).1).1.

(** The empty interface, [interface{}]. *)
Definition anyType : rtype :=
  reflect.Ty "" "" "interface {}" [] (reflect.SPlain reflect.Interface).


(** *** Two runs of the build *)

(** The configurations written with the combinators of config.go. *)
Inductive ConfigExpr : Type :=
| CProvide (providers : list providerValue)
| CProvideInModule (moduleName : string) (providers : list providerValue)
| CInvoke (invokers : list providerValue)
| CInvokeInModule (moduleName : string) (invokers : list providerValue)
| CBindInterface (inTypeName outTypeName : string)
| CBindInterfaceInModule (moduleName inTypeName outTypeName : string)
| CSupply (loc : Location) (values : list (rtype * Value))
| CError (err : error)
| CConfigs (configs : list ConfigExpr).

Section Denote.

Variable rune : Type.
Variable runes : string -> list rune.
Variable unicode_IsLower : rune -> bool.
Variable ρ : RangeOrder.

(** The [Config] an expression stands for, in a run whose maps are ranged
    over in the order [ρ]. *)
Fixpoint denote (e : ConfigExpr) : Config :=
  match e with
  | CProvide providers => Provide rune runes unicode_IsLower ρ providers
  | CProvideInModule moduleName providers =>
      ProvideInModule rune runes unicode_IsLower ρ moduleName providers
  | CInvoke invokers => Invoke invokers
  | CInvokeInModule moduleName invokers => InvokeInModule moduleName invokers
  | CBindInterface inTypeName outTypeName => BindInterface inTypeName outTypeName
  | CBindInterfaceInModule moduleName inTypeName outTypeName =>
      BindInterfaceInModule moduleName inTypeName outTypeName
  | CSupply loc values => Supply rune runes unicode_IsLower loc values
  | CError err => Error err
  | CConfigs configs => Configs (map denote configs)
  end.

End Denote.

(** Two errors that are the same but for the order in which the
    ambiguous-binding error lists its matches. *)
Inductive error_sim : error -> error -> Prop :=
| error_sim_New msg : error_sim (errors_New msg) (errors_New msg)
| error_sim_Wrapf c1 c2 msg :
    error_sim c1 c2 -> error_sim (errors_Wrapf c1 msg) (errors_Wrapf c2 msg)
| error_sim_WithStack c1 c2 :
    error_sim c1 c2 -> error_sim (errors_WithStack c1) (errors_WithStack c2)
| error_sim_Errorf_w s d1 d2 :
    error_sim d1 d2 -> error_sim (fmt_Errorf_w s d1) (fmt_Errorf_w s d2)
| error_sim_Multiple iface l1 l2 :
    l1 ≡ₚ l2 ->
    error_sim (ErrMultipleImplicitInterfaceBindings iface l1)
      (ErrMultipleImplicitInterfaceBindings iface l2)
| error_sim_NoType a b m :
    error_sim (ErrNoTypeForExplicitBindingFound a b m) (ErrNoTypeForExplicitBindingFound a b m)
| error_sim_Duplicate t n o :
    error_sim (ErrDuplicateDefinition t n o) (ErrDuplicateDefinition t n o)
| error_sim_Errorf msg : error_sim (errors_Errorf msg) (errors_Errorf msg).

(** Two runs come to the same: the same values, or errors that are the
    same in the sense above, or the same panic. *)
Definition same_outcome {A} (r1 r2 : result A) : Prop :=
  match r1, r2 with
  | Ok a1, Ok a2 => a1 = a2
  | Err e1, Err e2 => error_sim e1 e2
  | Panic m1, Panic m2 => m1 = m2
  | NoFuel, NoFuel => True
  | _, _ => False
  end.

(** [m2] does as [m1] does, wherever [m1] does not run out of budget: the
    same container afterwards and the same outcome. *)
Definition follows {A} (m1 m2 : M A) : Prop :=
  forall c : container,
    (m1 c).2 <> NoFuel ->
    (m2 c).1 = (m1 c).1 /\ same_outcome (m1 c).2 (m2 c).2.

(** The ducks of binding_test.go: the interface [Duck], two
    implementations, and a provider that wants a [Duck]. *)
Definition DuckType : rtype :=
  reflect.Ty "Duck" "example.com/app" "app.Duck" ["quack()"] (reflect.SPlain reflect.Interface).

Definition MallardType : rtype :=
  reflect.Ty "Mallard" "example.com/app" "app.Mallard" ["quack()"] (reflect.SPlain reflect.Struct).

Definition CanvasbackType : rtype :=
  reflect.Ty "Canvasback" "example.com/app" "app.Canvasback" ["quack()"]
    (reflect.SPlain reflect.Struct).

Definition PondType : rtype :=
  reflect.Ty "Pond" "example.com/app" "app.Pond" [] (reflect.SPlain reflect.Struct).

Definition ProvideMallard : providerDescriptor :=
  mkDescriptor [] [mkOutput MallardType] (fun _ => fn_returns [VPlain MallardType "Mallard{}"] None)
    (mkLocation 6 "ProvideMallard" "example.com/app" "ducks.go" 10).

Definition ProvideCanvasback : providerDescriptor :=
  mkDescriptor [] [mkOutput CanvasbackType]
    (fun _ => fn_returns [VPlain CanvasbackType "Canvasback{}"] None)
    (mkLocation 7 "ProvideCanvasback" "example.com/app" "ducks.go" 20).

Definition ProvidePond : providerDescriptor :=
  mkDescriptor [mkInput DuckType false] [mkOutput PondType]
    (fun ducks =>
       match ducks with
       | [VPlain _ duck] => fn_returns [VPlain PondType ("Pond{" +:+ duck +:+ "}")] None
       | _ => fn_returns [] (Some (errors_Errorf "no duck"))
       end)
    (mkLocation 8 "ProvidePond" "example.com/app" "ducks.go" 30).

Definition one_duck : ConfigExpr :=
  CConfigs [CProvide [ProviderFunc ProvideMallard]; CProvide [ProviderFunc ProvidePond]].

Definition two_ducks : ConfigExpr :=
  CConfigs [CProvide [ProviderFunc ProvideMallard; ProviderFunc ProvideCanvasback];
            CProvide [ProviderFunc ProvidePond]].

(** *** The providers a container can run *)

Definition simpleProvider_Location (s : simpleProvider) : Location := Location_ (sp_provider s).

(** The descriptor behind a resolver is one of those at the locations [U]. *)
Definition resolver_known (U : list Location) (r : resolver) : Prop :=
  match r with
  | simpleResolver n _ _ => simpleProvider_Location n ∈ U
  | moduleDepResolver n _ _ => Location_ (md_provider n) ∈ U
  | _ => True
  end.

Definition resolver_known_opt (U : list Location) (r : option resolver) : Prop :=
  from_option (resolver_known U) True r.

(** [closed U c]: every descriptor the container [c] can come to run, from
    its registry, its bindings, its groups, its scoped maps and its
    invokers, is at a location of [U]. *)
Definition closed (U : list Location) (c : container) : Prop :=
  (forall k r, resolvers c !! k = Some (Some r) -> resolver_known U r)
  /\ (forall k b, interfaceBindings c !! k = Some b -> resolver_known_opt U (ib_resolver b))
  /\ (forall a st p, groupResolvers c !! a = Some st -> p ∈ g_providers st ->
        simpleProvider_Location p ∈ U)
  /\ (forall a st e, onePerModuleResolvers c !! a = Some st -> e ∈ o_providers st ->
        simpleProvider_Location e.1.2 ∈ U)
  /\ (forall inv, inv ∈ invokers c -> Location_ (inv_fn inv) ∈ U).

(** The locations of [U] that are not in the caller set: how deep calls
    can still nest. *)
Definition pending (U : list Location) (c : container) : nat :=
  length (filter (fun l => callerSet c l = false) U).

Definition resolver_locations (r : option resolver) : list Location :=
  match r with
  | Some (simpleResolver n _ _) => [simpleProvider_Location n]
  | Some (moduleDepResolver n _ _) => [Location_ (md_provider n)]
  | _ => []
  end.

(** The locations of all the descriptors in a container. *)
Definition universe (c : container) : list Location :=
  (map_to_list (resolvers c) ≫= fun kv => resolver_locations kv.2)
  ++ (map_to_list (interfaceBindings c) ≫= fun kb => resolver_locations (ib_resolver kb.2))
  ++ (map_to_list (groupResolvers c) ≫= fun ast => simpleProvider_Location <$> g_providers ast.2)
  ++ (map_to_list (onePerModuleResolvers c) ≫=
        fun ast => (fun e => simpleProvider_Location e.1.2) <$> o_providers ast.2)
  ++ ((fun inv => Location_ (inv_fn inv)) <$> invokers c).

(** [finishes U n m Q]: from a container closed in [U] where fewer than [n]
    locations of [U] are pending, the operation [m] does not run out of
    budget, leaves the container closed in [U] with the same callers, and
    returns values in [Q]. *)
Definition finishes (U : list Location) (n : nat) {A} (m : M A) (Q : A -> Prop) : Prop :=
  forall c : container,
    closed U c -> pending U c < n ->
    (m c).2 <> NoFuel
    /\ closed U (m c).1
    /\ same_callers c (m c).1
    /\ forall a, (m c).2 = Ok a -> Q a.

(** An operation that never runs out of budget: it does not call. *)
Definition within_budget {A} (m : M A) : Prop :=
  forall c : container, (m c).2 <> NoFuel.

(** The postcondition that holds of every value. *)
Definition any {A} (a : A) : Prop := True.

Definition providers_known (U : list Location) (providers : list simpleProvider) : Prop :=
  forall p, p ∈ providers -> simpleProvider_Location p ∈ U.

(** ** Vocabulary of the further properties *)

(** The byte [b] occurs in [s]. *)
Fixpoint has_byte (b : ascii) (s : string) : bool :=
  match s with
  | EmptyString => false
  | String c s' => Ascii.eqb c b || has_byte b s'
  end.

(** The scope name a module key stands for in a BindingKey. *)
Definition scopeName (key : option moduleKey) : string := from_option mk_name "" key.

(** The caller set mirrors the active-call stack: the stack holds no
    location twice and the set holds the locations of the stack. *)
Definition callers_mirror (c : container) : Prop :=
  NoDup (callerStack c) /\ forall l, callerSet c l = true <-> l ∈ callerStack c.

(** The container after the registrations [regs], in order. *)
Definition addResolvers (regs : list (rtype * option resolver)) (c : container) : container :=
  foldl (fun c reg => (addResolver reg.1 reg.2 c).1) c regs.

(** *** errors.go: the tests of the error types

    [_, ok := err.(T)] holds of the values of the struct type [T] only; a
    wrapper of github.com/pkg/errors or of [fmt.Errorf] has a type of its
    own. *)

(** IsMultipleImplicitBindingsError checks if an error is
    ErrMultipleImplicitInterfaceBindings. *)
Definition IsMultipleImplicitBindingsError (err : error) : bool :=
  match err with
  | ErrMultipleImplicitInterfaceBindings _ _ => true
  | _ => false
  end.

(** IsNoTypeForBindingError checks if an error is
    ErrNoTypeForExplicitBindingFound. *)
Definition IsNoTypeForBindingError (err : error) : bool :=
  match err with
  | ErrNoTypeForExplicitBindingFound _ _ _ => true
  | _ => false
  end.

(** IsDuplicateDefinitionError checks if an error is ErrDuplicateDefinition. *)
Definition IsDuplicateDefinitionError (err : error) : bool :=
  match err with
  | ErrDuplicateDefinition _ _ _ => true
  | _ => false
  end.

(** [resolved input c v c']: the input resolves to [v] from [c], which
    leaves [c']. *)
Inductive resolved_inputs `{!reflect.Assignability} (ρ : RangeOrder)
    (call_rec : providerDescriptor -> option moduleKey -> M (list Value))
    (key : option moduleKey) (loc : Location)
    : list providerInput -> container -> list Value -> container -> Prop :=
| resolved_nil c : resolved_inputs ρ call_rec key loc [] c [] c
| resolved_cons input rest c c1 c2 v vals :
    resolve ρ call_rec input key loc c = (c1, Ok v) ->
    resolved_inputs ρ call_rec key loc rest c1 vals c2 ->
    resolved_inputs ρ call_rec key loc (input :: rest) c (v :: vals) c2.

(** The errors of a configuration: the sentinel of the empty module name,
    or an error under [errors.WithStack]. *)
Definition registration_error (err : error) : Prop :=
  err = ErrEmptyModuleName \/ exists cause, err = errors_WithStack cause.

(** ** location.go: the name of a function

    [LocationFromPC] takes the name of a function from the run time and
    splits it into the package and the function. *)

(** [len(s)], in bytes. *)
Definition len (s : string) : Z := Z.of_nat (String.length s).

Fixpoint string_drop (n : nat) (s : string) : string :=
  match n, s with
  | O, _ => s
  | S _, EmptyString => EmptyString
  | S n', String _ s' => string_drop n' s'
  end.

Fixpoint string_take (n : nat) (s : string) : string :=
  match n, s with
  | O, _ => EmptyString
  | S _, EmptyString => EmptyString
  | S n', String a s' => String a (string_take n' s')
  end.

(** [s[lo:hi]]: out of [0 <= lo <= hi <= len(s)] is a panic. *)
Definition slice (s : string) (lo hi : Z) : result string :=
  if ((0 <=? lo) && (lo <=? hi) && (hi <=? len s))%Z
  then Ok (string_take (Z.to_nat (hi - lo)) (string_drop (Z.to_nat lo) s))
  else Panic "slice bounds out of range".

(** [s[lo:]] and [s[:hi]]. *)
Definition slice_from (s : string) (lo : Z) : result string := slice s lo (len s).
Definition slice_to (s : string) (hi : Z) : result string := slice s 0 hi.

(** [strings.Index(s, substr)]: the index of the first instance of
    [substr] in [s], or -1. *)
Fixpoint strings_Index (s substr : string) : Z :=
  if String.prefix substr s then 0%Z
  else
    match s with
    | EmptyString => (-1)%Z
    | String _ s' =>
        let i := strings_Index s' substr in
        if (i <? 0)%Z then (-1)%Z else (i + 1)%Z
    end.

(** [strings.LastIndex(s, substr)]: the index of the last instance of
    [substr] in [s], or -1. *)
Fixpoint strings_LastIndex (s substr : string) : Z :=
  match s with
  | EmptyString => if String.prefix substr EmptyString then 0%Z else (-1)%Z
  | String _ s' =>
      let i := strings_LastIndex s' substr in
      if (0 <=? i)%Z then (i + 1)%Z
      else if String.prefix substr s then 0%Z else (-1)%Z
  end.

Definition vendorPrefix : string := "/vendor/".

(** A result and what follows it. *)
Definition and_then {A B} (r : result A) (k : A -> result B) : result B :=
  match r with
  | Ok a => k a
  | Err e => Err e
  | Panic msg => Panic msg
  | NoFuel => NoFuel
  end.

Section SplitFuncName.

(** [url.QueryUnescape] of package net/url, with [None] for its error. *)
Variable url_QueryUnescape : string -> option string.

(** splitFuncName splits a function's full name into package and function
    parts. *)
Definition splitFuncName (function : string) : result (string * string) :=
  if String.eqb function "" then Ok ("", "")
  else
    let lastSlash := strings_LastIndex function "/" in
    let lastSlash := if (lastSlash <? 0)%Z then 0%Z else lastSlash in
    and_then (slice_from function lastSlash) (fun rest =>
    let firstDot := strings_Index rest "." in
    if (firstDot <? 0)%Z then Ok (function, "")
    else
      let idx := (lastSlash + firstDot)%Z in
      and_then (slice_to function idx) (fun packageName =>
      and_then (slice_from function (idx + 1)) (fun functionName =>
      (* Handle vendored packages *)
      let vendorIdx := strings_Index packageName vendorPrefix in
      and_then (if (0 <? vendorIdx)%Z
                then slice_from packageName (vendorIdx + len vendorPrefix)
                else Ok packageName) (fun packageName =>
      (* URL-decode package name *)
      let packageName :=
        match url_QueryUnescape packageName with
        | Some unescaped => unescaped
        | None => packageName
        end in
      Ok (packageName, functionName))))).

End SplitFuncName.

(** The part of a path after its last "/", the whole path if it has none. *)
Definition lastSegment (s : string) : string :=
  string_drop (Z.to_nat (strings_LastIndex s "/" + 1)) s.

(** [url.QueryUnescape]: "%" with two hexadecimal digits is the byte they
    write, "+" is a space, and a "%" without two hexadecimal digits is an
    error. *)
Definition unhex (c : ascii) : option N :=
  let n := N_of_ascii c in
  if ((48 <=? n) && (n <=? 57))%N then Some (n - 48)%N
  else if ((97 <=? n) && (n <=? 102))%N then Some (n - 97 + 10)%N
  else if ((65 <=? n) && (n <=? 70))%N then Some (n - 65 + 10)%N
  else None.

Fixpoint QueryUnescape (s : string) : option string :=
  match s with
  | EmptyString => Some EmptyString
  | String "%" (String h (String l s')) =>
      match unhex h, unhex l with
      | Some x, Some y =>
          option_map (String (ascii_of_N (x * 16 + y))) (QueryUnescape s')
      | _, _ => None
      end
  | String "%" _ => None
  | String "+" s' => option_map (String " ") (QueryUnescape s')
  | String c s' => option_map (String c) (QueryUnescape s')
  end.

(** ** debug.go: the debug configuration

    The functions a debug configuration holds are closures. A closure
    that the package makes is written as a constructor, with its body
    where it is called. A function that the caller of the package hands
    over is nil or a function known by an identifier; the package only
    calls it, and the call is recorded and then returns or panics. *)

(** A [func(string)] or [func()] of the caller: nil, or the function [id].
    [panics n arg] is the value the call with the argument [arg], made
    after [n] events, panics with, if it panics. *)
Inductive callerFunc : Type :=
| func_nil
| func_of (id : N) (panics : nat -> string -> option string).

(** What a logger prints to: a [func(string)] of the caller, or the standard
    output or error of [StdoutLogger] and [StderrLogger]. *)
Inductive logSink : Type :=
| sink_func (f : callerFunc)
| sink_Stdout
| sink_Stderr.

(** A member of [loggers]: a logger given with [Logger], or the closure of
    [initLogBuf], which appends to [*c.logBuf]. *)
Inductive logger : Type :=
| logger_to (sink : logSink)
| logger_logBuf.

#[global] Instance logger_logBuf_dec (l : logger) : Decision (l = logger_logBuf).
Proof. destruct l; [right; discriminate | left; reflexivity]. Defined.

(** A member of [visualizers]: a function of the caller, or the closure of
    [addFileVisualizer]. *)
Inductive visualizer : Type :=
| visualizer_func (f : callerFunc)
| visualizer_file (filename : string).

(** A member of [cleanup]: a function of the caller, or the closure of
    [AutoDebug], [func() { deleteIfExists(filename) }]. *)
Inductive cleanupFunc : Type :=
| cleanup_func (f : callerFunc)
| cleanup_deleteIfExists (filename : string).

(** A [DebugOption]: the nil interface value, or the closure one of the
    constructors of debug.go returns. *)
Inductive DebugOption : Type :=
| nilDebugOption
| Visualizer (visualizer : callerFunc)
| LogVisualizer
| FileVisualizer (filename : string)
| Logger (logger : logSink)
| OnError (option : DebugOption)
| OnSuccess (option : DebugOption)
| DebugCleanup (cleanup : cleanupFunc)
| DebugOptions (options : list DebugOption).

(** What the configuration does to the world around it, in order: the
    calls of a logger, of a visualizer and of a cleanup function of the
    caller, and the files written and removed. *)
Inductive debugEvent : Type :=
| ev_logged (sink : logSink) (msg : string)
| ev_visualized (id : N) (dotGraph : string)
| ev_cleaned (id : N)
| ev_WriteFile (filename data : string)
| ev_Remove (filename : string).

(** debugConfig. [dc_graph] is the rendering [c.graph.String()] of the
    graph; [dc_events] is not a field of the Go struct: it records the
    calls of the functions of the caller and of the operating system. *)
Record debugConfig : Type := mkDebugConfig {
  dc_loggers : list logger;
  dc_indentStr : string;
  dc_logBuf : option (list string);
  dc_graph : string;
  dc_visualizers : list visualizer;
  dc_logVisualizer : bool;
  dc_onError : DebugOption;
  dc_onSuccess : DebugOption;
  dc_cleanup : list cleanupFunc;
  dc_events : list debugEvent
}.

Definition set_dc_loggers (f : list logger -> list logger) (c : debugConfig) : debugConfig :=
  mkDebugConfig (f (dc_loggers c)) (dc_indentStr c) (dc_logBuf c) (dc_graph c)
    (dc_visualizers c) (dc_logVisualizer c) (dc_onError c) (dc_onSuccess c) (dc_cleanup c)
    (dc_events c).

Definition set_dc_indentStr (f : string -> string) (c : debugConfig) : debugConfig :=
  mkDebugConfig (dc_loggers c) (f (dc_indentStr c)) (dc_logBuf c) (dc_graph c)
    (dc_visualizers c) (dc_logVisualizer c) (dc_onError c) (dc_onSuccess c) (dc_cleanup c)
    (dc_events c).

Definition set_dc_logBuf (f : option (list string) -> option (list string)) (c : debugConfig)
    : debugConfig :=
  mkDebugConfig (dc_loggers c) (dc_indentStr c) (f (dc_logBuf c)) (dc_graph c)
    (dc_visualizers c) (dc_logVisualizer c) (dc_onError c) (dc_onSuccess c) (dc_cleanup c)
    (dc_events c).

Definition set_dc_graph (f : string -> string) (c : debugConfig) : debugConfig :=
  mkDebugConfig (dc_loggers c) (dc_indentStr c) (dc_logBuf c) (f (dc_graph c))
    (dc_visualizers c) (dc_logVisualizer c) (dc_onError c) (dc_onSuccess c) (dc_cleanup c)
    (dc_events c).

Definition set_dc_visualizers (f : list visualizer -> list visualizer) (c : debugConfig)
    : debugConfig :=
  mkDebugConfig (dc_loggers c) (dc_indentStr c) (dc_logBuf c) (dc_graph c)
    (f (dc_visualizers c)) (dc_logVisualizer c) (dc_onError c) (dc_onSuccess c) (dc_cleanup c)
    (dc_events c).

Definition set_dc_logVisualizer (b : bool) (c : debugConfig) : debugConfig :=
  mkDebugConfig (dc_loggers c) (dc_indentStr c) (dc_logBuf c) (dc_graph c)
    (dc_visualizers c) b (dc_onError c) (dc_onSuccess c) (dc_cleanup c) (dc_events c).

Definition set_dc_onError (o : DebugOption) (c : debugConfig) : debugConfig :=
  mkDebugConfig (dc_loggers c) (dc_indentStr c) (dc_logBuf c) (dc_graph c)
    (dc_visualizers c) (dc_logVisualizer c) o (dc_onSuccess c) (dc_cleanup c) (dc_events c).

Definition set_dc_onSuccess (o : DebugOption) (c : debugConfig) : debugConfig :=
  mkDebugConfig (dc_loggers c) (dc_indentStr c) (dc_logBuf c) (dc_graph c)
    (dc_visualizers c) (dc_logVisualizer c) (dc_onError c) o (dc_cleanup c) (dc_events c).

Definition set_dc_cleanup (f : list cleanupFunc -> list cleanupFunc) (c : debugConfig)
    : debugConfig :=
  mkDebugConfig (dc_loggers c) (dc_indentStr c) (dc_logBuf c) (dc_graph c)
    (dc_visualizers c) (dc_logVisualizer c) (dc_onError c) (dc_onSuccess c) (f (dc_cleanup c))
    (dc_events c).

Definition set_dc_events (f : list debugEvent -> list debugEvent) (c : debugConfig)
    : debugConfig :=
  mkDebugConfig (dc_loggers c) (dc_indentStr c) (dc_logBuf c) (dc_graph c)
    (dc_visualizers c) (dc_logVisualizer c) (dc_onError c) (dc_onSuccess c) (dc_cleanup c)
    (f (dc_events c)).

(** The methods on the debug configuration as state transformers. *)
Definition DM (A : Type) : Type := debugConfig -> debugConfig * result A.

Definition DM_ret {A} (a : A) : DM A := fun c => (c, Ok a).
Definition DM_panic {A} (msg : string) : DM A := fun c => (c, Panic msg).

Definition DM_bind {A B} (m : DM A) (k : A -> DM B) : DM B :=
  fun c =>
    match m c with
    | (c', Ok a) => k a c'
    | (c', Err e) => (c', Err e)
    | (c', Panic msg) => (c', Panic msg)
    | (c', NoFuel) => (c', NoFuel)
    end.

Definition DM_modify (f : debugConfig -> debugConfig) : DM unit := fun c => (f c, Ok tt).

(** [m] and then [k], whatever [m] returns. *)
Definition DM_seq {B} (m : DM unit) (k : DM B) : DM B := DM_bind m (fun _ => k).

(** [for _, x := range l { body(x) }] *)
Fixpoint DM_forEach {A} (l : list A) (body : A -> DM unit) : DM unit :=
  match l with
  | [] => DM_ret tt
  | x :: l' => DM_seq (body x) (DM_forEach l' body)
  end.

Definition defaultDebugFile : string := "debug_container.dot".

(** The call [f(arg)] of a function of the caller, recorded as [ev]: the
    call of a nil function panics, and the function itself returns or
    panics. *)
Definition call_callerFunc (f : callerFunc) (ev : N -> debugEvent) (arg : string) : DM unit :=
  match f with
  | func_nil => DM_panic "invalid memory address or nil pointer dereference"
  | func_of id panics =>
      fun c =>
        let c' := set_dc_events (fun evs => evs ++ [ev id]) c in
        match panics (length (dc_events c)) arg with
        | Some v => (c', Panic v)
        | None => (c', Ok tt)
        end
  end.

(** The call of a sink with a message; [fmt.Fprintln] to the standard
    output or error returns. *)
Definition call_sink (sink : logSink) (s : string) : DM unit :=
  match sink with
  | sink_func f => call_callerFunc f (fun _ => ev_logged sink s) s
  | sink_Stdout | sink_Stderr => DM_modify (set_dc_events (fun evs => evs ++ [ev_logged sink s]))
  end.

(** The call [logger(s)] of a member of [loggers]; the closure of
    [initLogBuf] appends [s] to the slice behind the pointer [c.logBuf]. *)
Definition call_logger (l : logger) (s : string) : DM unit :=
  match l with
  | logger_to sink => call_sink sink s
  | logger_logBuf =>
      fun c =>
        match dc_logBuf c with
        | None => (c, Panic "invalid memory address or nil pointer dereference")
        | Some buf => (set_dc_logBuf (fun _ => Some (buf ++ [s])) c, Ok tt)
        end
  end.

Definition initLogBuf : DM unit :=
  fun c =>
    match dc_logBuf c with
    | None =>
        (set_dc_loggers (fun l => l ++ [logger_logBuf]) (set_dc_logBuf (fun _ => Some []) c),
         Ok tt)
    | Some _ => (c, Ok tt)
    end.

Definition sendBufferedLogs (sink : logSink) : DM unit :=
  fun c =>
    match dc_logBuf c with
    | Some buf => DM_forEach buf (call_sink sink) c
    | None => (c, Ok tt)
    end.

Definition indentLogger : DM unit := DM_modify (set_dc_indentStr (fun s => s +:+ " ")).

(** [c.indentStr = c.indentStr[1:]] panics on the empty string. *)
Definition dedentLogger : DM unit :=
  fun c =>
    match dc_indentStr c with
    | EmptyString => (c, Panic "slice bounds out of range [1:0]")
    | String _ s => (set_dc_indentStr (fun _ => s) c, Ok tt)
    end.

(** [c.logf(format, args...)], where [msg] is what [format] and [args]
    print: the indentation, which holds spaces only, goes before it. *)
Definition logf (msg : string) : DM unit :=
  fun c => DM_forEach (dc_loggers c) (fun l => call_logger l (dc_indentStr c +:+ msg)) c.

Definition addFuncVisualizer (f : callerFunc) : DM unit :=
  DM_modify (set_dc_visualizers (fun l => l ++ [visualizer_func f])).

Definition enableLogVisualizer : DM unit := DM_modify (set_dc_logVisualizer true).

Definition addFileVisualizer (filename : string) : DM unit :=
  DM_modify (set_dc_visualizers (fun l => l ++ [visualizer_file filename])).

(** [applyConfig], on the closure each constructor returns. *)
Fixpoint applyConfig (opt : DebugOption) : DM unit :=
  match opt with
  | nilDebugOption => DM_panic "invalid memory address or nil pointer dereference"
  | Visualizer visualizer => addFuncVisualizer visualizer
  | LogVisualizer => enableLogVisualizer
  | FileVisualizer filename => addFileVisualizer filename
  | Logger logger =>
      DM_seq (call_sink logger "Initializing logger")
        (DM_seq (DM_modify (set_dc_loggers (fun l => l ++ [logger_to logger])))
           (sendBufferedLogs logger))
  | OnError option => DM_seq initLogBuf (DM_modify (set_dc_onError option))
  | OnSuccess option => DM_seq initLogBuf (DM_modify (set_dc_onSuccess option))
  | DebugCleanup cleanup => DM_modify (set_dc_cleanup (fun l => l ++ [cleanup]))
  | DebugOptions options =>
      (fix each (options : list DebugOption) : DM unit :=
         match options with
         | [] => DM_ret tt
         | opt :: rest => DM_seq (applyConfig opt) (each rest)
         end) options
  end.

(** StdoutLogger and StderrLogger route logging output to stdout and to
    stderr. *)
Definition StdoutLogger : DebugOption := Logger sink_Stdout.
Definition StderrLogger : DebugOption := Logger sink_Stderr.

(** Debug sets default debug options (stderr output and file
    visualization). *)
Definition Debug : DebugOption := DebugOptions [StderrLogger; FileVisualizer defaultDebugFile].

(** AutoDebug enables Debug on error and cleans up files on success. *)
Definition AutoDebug : DebugOption :=
  DebugOptions [OnError Debug;
                OnSuccess (DebugCleanup (cleanup_deleteIfExists defaultDebugFile))].

Section DebugRun.

(** The operating system and package fmt, at the moment of a call (the
    number of events before it): whether [os.WriteFile] and
    [filepath.Abs] fail and what they give, whether [os.Stat] finds the
    file, and how an error prints with [%v] and with [%+v]. *)
Variable os_WriteFile : nat -> string -> string -> option error.
Variable filepath_Abs : nat -> string -> option string.
Variable os_Stat : nat -> string -> bool.
Variable fmt_v : error -> string.
Variable fmt_plus_v : error -> string.

(** The rendering of the graph [graphviz.NewGraph()] makes. *)
Variable graphviz_NewGraph : string.

Definition newDebugConfig : debugConfig :=
  mkDebugConfig [] "" None graphviz_NewGraph [] false nilDebugOption nilDebugOption [] [].

Definition saveGraphToFile (filename : string) : DM (option error) :=
  fun c =>
    match os_WriteFile (length (dc_events c)) filename (dc_graph c) with
    | Some err => (c, Ok (Some err))
    | None =>
        let c := set_dc_events (fun evs => evs ++ [ev_WriteFile filename (dc_graph c)]) c in
        match filepath_Abs (length (dc_events c)) filename with
        | Some path =>
            DM_seq (logf ("Saved graph of container to " +:+ path)) (DM_ret None) c
        | None => (c, Ok None)
        end
    end.

Definition deleteIfExists (filename : string) : DM unit :=
  fun c =>
    if os_Stat (length (dc_events c)) filename
    then (set_dc_events (fun evs => evs ++ [ev_Remove filename]) c, Ok tt)
    else (c, Ok tt).

(** The call [v(dotStr)] of a member of [visualizers]. *)
Definition call_visualizer (v : visualizer) (dotStr : string) : DM unit :=
  match v with
  | visualizer_func f => call_callerFunc f (fun id => ev_visualized id dotStr) dotStr
  | visualizer_file filename =>
      DM_bind (saveGraphToFile filename) (fun err =>
        match err with
        | Some err =>
            logf ("Error saving graphviz file " +:+ filename +:+ ": " +:+ fmt_plus_v err)
        | None => DM_ret tt
        end)
  end.

Definition generateGraph : DM unit :=
  fun c =>
    let dotStr := dc_graph c in
    DM_seq (if dc_logVisualizer c then logf ("DOT Graph: " +:+ dotStr) else DM_ret tt)
      (fun c => DM_forEach (dc_visualizers c) (fun v => call_visualizer v dotStr) c) c.

(** The call [cleanup()] of a member of [cleanup]. *)
Definition call_cleanup (f : cleanupFunc) : DM unit :=
  match f with
  | cleanup_func f => call_callerFunc f ev_cleaned ""
  | cleanup_deleteIfExists filename => deleteIfExists filename
  end.

(** runCleanup executes cleanup functions. *)
Definition runCleanup : DM unit :=
  fun c => DM_forEach (dc_cleanup c) call_cleanup c.

(** *** inject.go: the run of an injection *)

(** What the container does with the debug configuration it embeds: it
    logs, moves the indentation and draws the graph. *)
Inductive debugCall : Type :=
| do_logf (msg : string)
| do_indentLogger
| do_dedentLogger
| do_graph (dotGraph : string).

Definition run_debugCall (a : debugCall) : DM unit :=
  match a with
  | do_logf msg => logf msg
  | do_indentLogger => indentLogger
  | do_dedentLogger => dedentLogger
  | do_graph g => DM_modify (set_dc_graph (fun _ => g))
  end.

(** [buildContainer(cfg, opts)] as the debug configuration sees it: the
    calls the container makes, and what it comes to, nil, an error or a
    panic. *)
Definition containerRun (calls : list debugCall) (outcome : result unit) : DM unit :=
  DM_seq (DM_forEach calls run_debugCall) (fun c => (c, outcome)).

(** performInjection executes the main injection logic. *)
Definition performInjection (debugOpt : DebugOption) (build : DM unit) : DM unit :=
  DM_seq (match debugOpt with
          | nilDebugOption => DM_ret tt
          | _ => applyConfig debugOpt
          end) build.

(** handleInjectionError processes errors during injection. *)
Definition handleInjectionError (err : error) : DM unit :=
  DM_seq (logf ("Error: " +:+ fmt_v err))
    (fun c =>
       match dc_onError c with
       | nilDebugOption => (c, Err err)
       | onError =>
           match applyConfig onError c with
           | (c', Err err2) =>
               (c', Err (errors_Errorf ("error handling failed: " +:+ fmt_v err2
                                        +:+ " (original error: " +:+ fmt_v err +:+ ")")))
           | (c', Ok _) => (c', Err err)
           | (c', Panic msg) => (c', Panic msg)
           | (c', NoFuel) => (c', NoFuel)
           end
       end).

(** handleInjectionSuccess handles successful injection. *)
Definition handleInjectionSuccess : DM unit :=
  fun c =>
    match dc_onSuccess c with
    | nilDebugOption => (c, Ok tt)
    | onSuccess =>
        match applyConfig onSuccess c with
        | (c', Err err) =>
            (c', Err (errors_Errorf ("success handling failed: " +:+ fmt_v err)))
        | other => other
        end
    end.

(** A deferred function, which runs when the body is left, also by a
    panic; its own panic takes over. *)
Definition DM_defer {A} (d : DM unit) (body : DM A) : DM A :=
  fun c =>
    let '(c1, r) := body c in
    match d c1 with
    | (c2, Panic msg) => (c2, Panic msg)
    | (c2, _) => (c2, r)
    end.

(** runInjection handles the main injection process; [newDebugConfig]
    never fails. *)
Definition runInjection (debugOpt : DebugOption) (build : DM unit) : debugConfig * result unit :=
  DM_defer (DM_seq generateGraph runCleanup)
    (fun c =>
       match performInjection debugOpt build c with
       | (c', Err err) => handleInjectionError err c'
       | (c', Ok _) => handleInjectionSuccess c'
       | other => other
       end) newDebugConfig.

End DebugRun.

(** *** Vocabulary of the statements on the debug configuration *)

(** A function of the caller that returns whenever it is called: it is
    not nil and it never panics. *)
Definition returns (f : callerFunc) : Prop :=
  match f with
  | func_nil => False
  | func_of _ panics => forall n arg, panics n arg = None
  end.

Definition sink_returns (sink : logSink) : Prop :=
  match sink with
  | sink_func f => returns f
  | sink_Stdout | sink_Stderr => True
  end.

Definition logger_returns (l : logger) : Prop :=
  match l with
  | logger_to sink => sink_returns sink
  | logger_logBuf => True
  end.

Definition visualizer_returns (v : visualizer) : Prop :=
  match v with
  | visualizer_func f => returns f
  | visualizer_file _ => True
  end.

Definition cleanup_returns (f : cleanupFunc) : Prop :=
  match f with
  | cleanup_func f => returns f
  | cleanup_deleteIfExists _ => True
  end.

(** An option that can be applied and used: neither the option nor one it
    bundles is nil, and the functions of the caller it holds return. The
    option it sets for the error or the success may be nil, and then is
    not applied. *)
Inductive applicable : DebugOption -> Prop :=
| applicable_Visualizer f : returns f -> applicable (Visualizer f)
| applicable_LogVisualizer : applicable LogVisualizer
| applicable_FileVisualizer filename : applicable (FileVisualizer filename)
| applicable_Logger sink : sink_returns sink -> applicable (Logger sink)
| applicable_OnError o : o = nilDebugOption \/ applicable o -> applicable (OnError o)
| applicable_OnSuccess o : o = nilDebugOption \/ applicable o -> applicable (OnSuccess o)
| applicable_DebugCleanup f : cleanup_returns f -> applicable (DebugCleanup f)
| applicable_DebugOptions options : Forall applicable options -> applicable (DebugOptions options).

(** The sinks among the loggers, in their order, and the number of times
    the closure of the buffer stands among them. *)
Definition sinks (loggers : list logger) : list logSink :=
  omap (fun l => match l with logger_to sink => Some sink | logger_logBuf => None end) loggers.

Definition buffers (loggers : list logger) : nat :=
  length (filter (fun l => l = logger_logBuf) loggers).

(** The closure of the buffer is among the loggers once when there is a
    buffer and not at all when there is none; the options set for the
    error and for the success can be applied; and the loggers, the
    visualizers and the cleanup functions return. *)
Definition config_wf (c : debugConfig) : Prop :=
  buffers (dc_loggers c) = (match dc_logBuf c with Some _ => 1 | None => 0 end)%nat
  /\ (dc_onError c = nilDebugOption \/ applicable (dc_onError c))
  /\ (dc_onSuccess c = nilDebugOption \/ applicable (dc_onSuccess c))
  /\ Forall logger_returns (dc_loggers c)
  /\ Forall visualizer_returns (dc_visualizers c)
  /\ Forall cleanup_returns (dc_cleanup c).

(** The configuration after a line went to the loggers: to each sink, and
    once to the buffer if there is one. *)
Definition logged (line : string) (c : debugConfig) : debugConfig :=
  set_dc_events (fun evs => evs ++ map (fun sink => ev_logged sink line) (sinks (dc_loggers c)))
    (set_dc_logBuf (option_map (fun buf => buf ++ [line])) c).

(** The configuration after a call of the container that does not panic. *)
Definition after_debugCall (a : debugCall) (c : debugConfig) : debugConfig :=
  match a with
  | do_logf msg => logged (dc_indentStr c +:+ msg) c
  | do_indentLogger => set_dc_indentStr (fun s => s +:+ " ") c
  | do_dedentLogger => set_dc_indentStr (string_drop 1) c
  | do_graph g => set_dc_graph (fun _ => g) c
  end.

(** The calls never take the indentation, [indent] at their start, below
    nothing. *)
Fixpoint dedents_ok (indent : nat) (calls : list debugCall) : bool :=
  match calls with
  | [] => true
  | do_indentLogger :: rest => dedents_ok (S indent) rest
  | do_dedentLogger :: rest =>
      match indent with
      | O => false
      | S indent' => dedents_ok indent' rest
      end
  | _ :: rest => dedents_ok indent rest
  end.

(** The lines the calls log, from the indentation [indent]. *)
Fixpoint transcript (indent : string) (calls : list debugCall) : list string :=
  match calls with
  | [] => []
  | do_logf msg :: rest => (indent +:+ msg) :: transcript indent rest
  | do_indentLogger :: rest => transcript (indent +:+ " ") rest
  | do_dedentLogger :: rest => transcript (string_drop 1 indent) rest
  | do_graph _ :: rest => transcript indent rest
  end.

(** The indentation after the calls. *)
Definition indent_after (indent : string) (calls : list debugCall) : string :=
  foldl (fun s a =>
           match a with
           | do_indentLogger => s +:+ " "
           | do_dedentLogger => string_drop 1 s
           | _ => s
           end) indent calls.

(** The graph after the calls. *)
Definition graph_after (g : string) (calls : list debugCall) : string :=
  foldl (fun g a => match a with do_graph g' => g' | _ => g end) g calls.

(** * Properties *)

(** ** Group resolver: the bare element type *)




(** ** Configuration: the module name *)

(** C10. Applied to any container, [ProvideInModule] and [InvokeInModule]
    with the empty module name fail with [ErrEmptyModuleName], "expected
    non-empty module name", and leave the container as it was;
    [BindInterfaceInModule] with the empty module name does not fail: it
    stores the binding under the key of the global scope, as
    [BindInterface] does. *)
Theorem empty_module_name :
  forall (rune : Type) (runes : string -> list rune) (unicode_IsLower : rune -> bool)
         (ρ : RangeOrder) (providers invokers : list providerValue)
         (inTypeName outTypeName : string) (c : container),
    apply (ProvideInModule rune runes unicode_IsLower ρ "" providers) c
      = (c, Err ErrEmptyModuleName)
    /\ apply (InvokeInModule "" invokers) c = (c, Err ErrEmptyModuleName)
    /\ ErrEmptyModuleName = errors_New "expected non-empty module name"
    /\ apply (BindInterfaceInModule "" inTypeName outTypeName) c
       = apply (BindInterface inTypeName outTypeName) c
    /\ apply (BindInterfaceInModule "" inTypeName outTypeName) c
       = (set_interfaceBindings
            <[bindingKeyFromTypeName inTypeName None
                := mkInterfaceBinding inTypeName outTypeName None None]> c,
          Ok tt).
Proof.
  intros. repeat split.
Qed.

(** ** The active-call stack *)

(** C1. When the location of the descriptor is in the caller set, [call]
    returns the cyclic-dependency error and the container is as before: no
    input was resolved (the nested [call] plays no part) and the provider
    function was not run. In particular, with [f : int -> float64] and
    [g : float64 -> int] provided, asking for [int] fails with
    [ErrCyclicDependency]. *)
Theorem call_cyclic_dependency {assignability : reflect.Assignability} :
  (forall (ρ : RangeOrder) (call_rec : providerDescriptor -> option moduleKey -> M (list Value))
          (fuel : nat) (provider : providerDescriptor) (key : option moduleKey) (c : container),
      callerSet c (Location_ provider) = true ->
      let loc := Location_ provider in
      let e := errors_Wrapf ErrCyclicDependency (Location_Name loc +:+ " -> " +:+ Location_Name loc) in
      call_body ρ call_rec provider key c = (c, Err e)
      /\ call ρ (S fuel) provider key c = (c, Err e))
  /\ (forall (rune : Type) (runes : string -> list rune) (unicode_IsLower : rune -> bool)
             (ρ : RangeOrder) (fuel : nat) (ff gf : list Value -> fnResult),
        exists e,
          Inject ρ (3 + fuel) here
            (Provide rune runes unicode_IsLower ρ
               [ProviderFunc (provider_f ff); ProviderFunc (provider_g gf)])
            [PointerTo intType] = Err e
          /\ Cause e = ErrCyclicDependency).
Proof.
  split.
  - intros ρ call_rec fuel provider key c H loc e.
    assert (Hb : forall rec, call_body ρ rec provider key c = (c, Err e)).
    { intros rec. subst loc e. unfold call_body, checkCyclicDependency.
      unfold callerSet in H. rewrite H. reflexivity. }
    split; [apply Hb|].
    change (call ρ (S fuel) provider key c) with (call_body ρ (call ρ fuel) provider key c).
    apply Hb.
  - intros. eexists. split.
    + vm_compute. reflexivity.
    + reflexivity.
Qed.

(** The hypothesis of C1 at a container where [five] is being called. *)
Lemma call_cyclic_dependency_witness :
  callerSet (pushCaller (Location_ provider_five) newContainer) (Location_ provider_five)
    = true
  /\ call mapOrder 1 provider_five None (pushCaller (Location_ provider_five) newContainer)
     = (pushCaller (Location_ provider_five) newContainer,
        Err (errors_Wrapf ErrCyclicDependency
               "example.com/app.five -> example.com/app.five")).
Proof.
  split.
  - vm_compute. reflexivity.
  - apply (proj1 call_cyclic_dependency mapOrder (call mapOrder 0) 0 provider_five None).
    vm_compute. reflexivity.
Defined.

(** ** The keys of the registry *)

(** C4, as stated, does not hold: the resolver registered for [int] is
    under the key "int", and no BindingKey of [int], "int;" followed by the
    scope, finds it. *)
Lemma registry_not_keyed_by_BindingKey : ~ registry_keyed_by_BindingKey.
Proof.
  intros H. destruct (H intType None newContainer) as [key Hkey].
  unfold addResolver, modify in Hkey. simpl in Hkey.
  rewrite lookup_insert_ne in Hkey.
  - rewrite lookup_empty in Hkey. discriminate Hkey.
  - destruct key as [k|]; simpl; discriminate.
Qed.

(** C4, amended. A BindingKey is the type name, ";" and the scope name or
    nothing; [addBinding] files an interface binding under the BindingKey
    of its interface name and scope. The resolver registry is keyed by the
    fully-qualified type name alone: [addResolver] writes there,
    [resolverByType] reads there, and so a type has one resolver, the last
    one registered, whatever the scope. *)
Theorem registry_keys :
  (forall (typeName : string) (key : option moduleKey),
      bindingKeyFromTypeName typeName key = typeName +:+ ";" +:+ from_option mk_name "" key)
  /\ (forall (p : interfaceBinding) (c : container),
        interfaceBindings (addBinding p c).1
        = <[bindingKeyFromTypeName (interfaceName p) (ib_moduleKey p) := p]> (interfaceBindings c))
  /\ (forall (typ : rtype) (r : option resolver) (c : container),
        resolvers (addResolver typ r c).1 = <[fullyQualifiedTypeName typ := r]> (resolvers c))
  /\ (forall (typ : rtype) (c : container),
        resolverByType typ c
        = match resolvers c !! fullyQualifiedTypeName typ with
          | Some res => (res, true)
          | None => (None, false)
          end)
  /\ (forall (typ : rtype) (r r' : option resolver) (c : container),
        resolverByType typ (addResolver typ r' (addResolver typ r c).1).1 = (r', true)).
Proof.
  repeat split.
  - intros typeName [k|]; reflexivity.
  - intros typ r r' c. unfold resolverByType, resolverByTypeName, addResolver, modify. simpl.
    now rewrite lookup_insert_eq.
Qed.

(** ** Operations that leave the active-call stack alone *)

Create HintDb keeps.

Section Keeps.

Context {assignability : reflect.Assignability}.

(** A relation between the container before and the container after that
    looks at the stack and the map of callers only, and that [call]
    restores around its body. *)
Variable R : container -> container -> Prop.
Hypothesis R_frame :
  forall c c', callerStack c' = callerStack c -> callerMap c' = callerMap c -> R c c'.
Hypothesis R_trans : forall c1 c2 c3, R c1 c2 -> R c2 c3 -> R c1 c3.
Hypothesis R_push_pop :
  forall loc c c1,
    checkCyclicDependency loc c = None ->
    R (pushCaller loc c) c1 ->
    R c (popCaller loc c1).1.

Lemma keeps_ret {A} (a : A) : keeps R (mret a).
Proof. intros c. now apply R_frame. Qed.

Lemma keeps_fail {A} (e : error) : keeps R (@fail A e).
Proof. intros c. now apply R_frame. Qed.

Lemma keeps_panic {A} (msg : string) : keeps R (@panic A msg).
Proof. intros c. now apply R_frame. Qed.

Lemma keeps_lift {A} (r : result A) : keeps R (lift r).
Proof. intros c. now apply R_frame. Qed.

Lemma keeps_gets {A} (f : container -> A) : keeps R (gets f).
Proof. intros c. now apply R_frame. Qed.

Lemma keeps_modify (f : container -> container) :
  (forall c, callerStack (f c) = callerStack c /\ callerMap (f c) = callerMap c) ->
  keeps R (modify f).
Proof. intros H c. destruct (H c). now apply R_frame. Qed.

Lemma keeps_bind {A B} (m : M A) (k : A -> M B) :
  keeps R m -> (forall a, keeps R (k a)) -> keeps R (m ≫= k).
Proof.
  intros Hm Hk c. unfold mbind, M_bind, bind.
  specialize (Hm c). destruct (m c) as [c1 [a| | |]]; simpl in *; try exact Hm.
  exact (R_trans _ _ _ Hm (Hk a c1)).
Qed.

Ltac keeps_step :=
  match goal with
  | |- keeps R (mret _) => apply keeps_ret
  | |- keeps R (ret _) => apply keeps_ret
  | |- keeps R (fail _) => apply keeps_fail
  | |- keeps R (panic _) => apply keeps_panic
  | |- keeps R (lift _) => apply keeps_lift
  | |- keeps R (gets _) => apply keeps_gets
  | |- keeps R (modify _) => apply keeps_modify; intros; split; reflexivity
  | |- keeps R (_ ≫= _) => apply keeps_bind; [|intros ?]
  | |- keeps R (match ?x with _ => _ end) => destruct x
  | |- keeps R (if ?b then _ else _) => destruct b
  | |- keeps R _ => solve [auto with keeps]
  end.

Ltac keeps := repeat keeps_step.

(** The goal at a container [c], for an operation applied to [c]. *)
Ltac keeps_at c :=
  match goal with
  | |- R c (?m c).1 =>
      let K := fresh "K" in
      assert (K : keeps R m) by keeps; exact (K c)
  | |- _ => now apply R_frame
  end.

Lemma keeps_addResolver typ r : keeps R (addResolver typ r).
Proof. unfold addResolver. keeps. Qed.

Lemma keeps_newGroupResolver typ : keeps R (newGroupResolver typ).
Proof. intros c. now apply R_frame. Qed.

Lemma keeps_groupResolver_update g f : keeps R (groupResolver_update g f).
Proof. unfold groupResolver_update. keeps. Qed.

#[local] Hint Resolve keeps_addResolver keeps_newGroupResolver keeps_groupResolver_update : keeps.

Lemma keeps_groupResolverFor elemType : keeps R (groupResolverFor elemType).
Proof.
  intros c. unfold groupResolverFor.
  destruct (resolverByType elemType c) as [[[]|] ?]; keeps_at c.
Qed.

Lemma keeps_onePerModuleResolverFor elemType mapType :
  keeps R (onePerModuleResolverFor elemType mapType).
Proof.
  intros c. unfold onePerModuleResolverFor.
  destruct (resolverByType elemType c) as [[[]|] ?]; keeps_at c.
Qed.

#[local] Hint Resolve keeps_groupResolverFor keeps_onePerModuleResolverFor : keeps.

Lemma keeps_createContainerResolver elemType typ :
  keeps R (createContainerResolver elemType typ).
Proof. unfold createContainerResolver. keeps. Qed.

Lemma keeps_getExplicitResolver typ key : keeps R (getExplicitResolver typ key).
Proof.
  intros c. unfold getExplicitResolver.
  repeat match goal with
         | |- context [match ?x with _ => _ end] => destruct x
         end; now apply R_frame.
Qed.

Lemma keeps_resolveInterfaceType ρ typ : keeps R (resolveInterfaceType ρ typ).
Proof.
  unfold resolveInterfaceType.
  destruct (negb _); [keeps|].
  intros c.
  destruct (findImplementingTypes ρ typ c) as [[|t [|t' l]]| | |]; try now apply R_frame.
  destruct (resolverByType t c) as [res ?]. keeps_at c.
Qed.

#[local] Hint Resolve keeps_createContainerResolver keeps_getExplicitResolver
  keeps_resolveInterfaceType : keeps.

Lemma keeps_getResolver ρ typ key : keeps R (getResolver ρ typ key).
Proof.
  intros c. unfold getResolver.
  pose proof (keeps_getExplicitResolver typ key c) as H.
  destruct (getExplicitResolver typ key c) as [c1 [[r|]| | |]]; simpl in *; try exact H.
  destruct (resolverByType typ c1) as [r []]; simpl; [exact H|].
  destruct (decide _).
  - exact (R_trans _ _ _ H (keeps_resolveInterfaceType ρ typ c1)).
  - exact (R_trans _ _ _ H (keeps_createContainerResolver (getElementType typ) typ c1)).
Qed.

#[local] Hint Resolve keeps_getResolver : keeps.

Variable ρ : RangeOrder.
Variable call_rec : providerDescriptor -> option moduleKey -> M (list Value).
Hypothesis keeps_call_rec : forall provider key, keeps R (call_rec provider key).

#[local] Hint Resolve keeps_call_rec : keeps.

Lemma keeps_simpleProvider_resolveValues s :
  keeps R (simpleProvider_resolveValues call_rec s).
Proof. unfold simpleProvider_resolveValues. keeps. Qed.

Lemma keeps_valueAt values idx : keeps R (valueAt values idx).
Proof. unfold valueAt. keeps. Qed.

#[local] Hint Resolve keeps_simpleProvider_resolveValues keeps_valueAt : keeps.

Lemma keeps_groupResolver_resolveValues_loop g providers :
  forall i result,
    keeps R (groupResolver_resolveValues_loop call_rec g i providers result).
Proof. induction providers as [|p rest IH]; intros i result; simpl; keeps. Qed.

#[local] Hint Resolve keeps_groupResolver_resolveValues_loop : keeps.

Lemma keeps_groupResolver_resolveValues g :
  keeps R (groupResolver_resolveValues call_rec g).
Proof. unfold groupResolver_resolveValues. keeps. Qed.

#[local] Hint Resolve keeps_groupResolver_resolveValues : keeps.

Lemma keeps_mapOfOnePerModuleResolver_loop providers :
  forall entries, keeps R (mapOfOnePerModuleResolver_loop call_rec providers entries).
Proof.
  induction providers as [|[[k p] idx] rest IH]; intros entries; simpl; keeps.
Qed.

#[local] Hint Resolve keeps_mapOfOnePerModuleResolver_loop : keeps.

Lemma keeps_resolver_resolve r key caller :
  keeps R (resolver_resolve call_rec r key caller).
Proof.
  destruct r; simpl;
    unfold simpleResolver_resolve, groupResolver_resolve, sliceGroupResolver_resolve,
      moduleDepResolver_resolve, onePerModuleResolver_resolve,
      mapOfOnePerModuleResolver_resolve;
    keeps.
Qed.

#[local] Hint Resolve keeps_resolver_resolve : keeps.

Lemma keeps_resolve input key caller : keeps R (resolve ρ call_rec input key caller).
Proof. unfold resolve. keeps. Qed.

#[local] Hint Resolve keeps_resolve : keeps.

Lemma keeps_resolveInputs inputs key loc :
  keeps R (resolveInputs ρ call_rec inputs key loc).
Proof. induction inputs as [|input rest IH]; simpl; keeps. Qed.

Lemma keeps_runFn provider inVals : keeps R (runFn provider inVals).
Proof. unfold runFn. keeps. Qed.

#[local] Hint Resolve keeps_resolveInputs keeps_runFn : keeps.

(** [call] pushes the location, runs the body, which keeps [R], and pops
    the location when the body is left. *)
Lemma keeps_call_body provider key : keeps R (call_body ρ call_rec provider key).
Proof.
  intros c. unfold call_body.
  destruct (checkCyclicDependency (Location_ provider) c) eqn:E; [now apply R_frame|].
  set (loc := Location_ provider) in *.
  set (body := (inVals ← resolveInputs ρ call_rec (Inputs provider) key loc;
                runFn provider inVals)).
  assert (K : keeps R body) by (subst body; keeps).
  change ((modify (pushCaller loc);; defer (popCaller loc) body) c)
    with (defer (popCaller loc) body (pushCaller loc c)).
  unfold defer. specialize (K (pushCaller loc c)).
  destruct (body (pushCaller loc c)) as [c1 r]. cbn [fst] in K.
  pose proof (R_push_pop loc c c1 E K) as H2.
  destruct (popCaller loc c1) as [c2 rd]. destruct r, rd; exact H2.
Qed.

End Keeps.

Lemma keeps_call {assignability : reflect.Assignability} R :
  (forall c c', callerStack c' = callerStack c -> callerMap c' = callerMap c -> R c c') ->
  (forall c1 c2 c3, R c1 c2 -> R c2 c3 -> R c1 c3) ->
  (forall loc c c1,
      checkCyclicDependency loc c = None ->
      R (pushCaller loc c) c1 ->
      R c (popCaller loc c1).1) ->
  forall ρ fuel provider key, keeps R (call ρ fuel provider key).
Proof.
  intros R_frame R_trans R_push_pop ρ.
  induction fuel as [|fuel IH]; intros provider key.
  - intros c. now apply R_frame.
  - simpl. apply keeps_call_body; assumption.
Qed.

Lemma take_removes_last {A} (s : list A) (x : A) :
  take (length (s ++ [x]) - 1) (s ++ [x]) = s.
Proof.
  rewrite length_app. simpl.
  replace (length s + 1 - 1) with (length s) by lia. apply take_app_length.
Qed.

Lemma popCaller_nonempty loc c1 s :
  callerStack c1 = s ++ [loc] ->
  popCaller loc c1
  = (set_callerStack (fun s => take (length s - 1) s) (set_callerMap (delete loc) c1), Ok tt).
Proof.
  intros Hs. unfold popCaller. simpl. rewrite Hs.
  destruct (s ++ [loc]) eqn:E; [destruct s; discriminate E | reflexivity].
Qed.

(** The stack and the caller set around a call. *)
Lemma same_callers_push_pop loc c c1 :
  checkCyclicDependency loc c = None ->
  same_callers (pushCaller loc c) c1 ->
  same_callers c (popCaller loc c1).1.
Proof.
  unfold checkCyclicDependency. intros Hcheck [Hs Hc]. simpl in Hs.
  assert (Hloc : callerSet c loc = false).
  { unfold callerSet. destruct (default false (callerMap c !! loc)); [discriminate | reflexivity]. }
  rewrite (popCaller_nonempty loc c1 (callerStack c) Hs).
  split; simpl.
  - rewrite Hs. apply take_removes_last.
  - intros l. unfold callerSet. simpl. destruct (decide (loc = l)) as [<-|Hne].
    + rewrite lookup_delete_eq. symmetry. exact Hloc.
    + rewrite lookup_delete_ne by assumption.
      specialize (Hc l). unfold callerSet in Hc. simpl in Hc.
      rewrite lookup_insert_ne in Hc by assumption. exact Hc.
Qed.

Lemma callerMap_wf_pushCaller loc c : callerMap_wf c -> callerMap_wf (pushCaller loc c).
Proof.
  intros H l. simpl. destruct (decide (loc = l)) as [->|Hne].
  - rewrite lookup_insert_eq. discriminate.
  - rewrite lookup_insert_ne by assumption. apply H.
Qed.

(** The stack and the map of callers around a call, when the map holds
    [true] only. *)
Lemma same_callerMap_push_pop loc c c1 :
  checkCyclicDependency loc c = None ->
  same_callerMap (pushCaller loc c) c1 ->
  same_callerMap c (popCaller loc c1).1.
Proof.
  unfold checkCyclicDependency. intros Hcheck H Hwf.
  destruct (H (callerMap_wf_pushCaller loc c Hwf)) as [Hs Hc]. simpl in Hs, Hc.
  assert (Hloc : callerMap c !! loc = None).
  { destruct (callerMap c !! loc) as [[]|] eqn:E; [discriminate Hcheck| |reflexivity].
    destruct (Hwf _ E). }
  rewrite (popCaller_nonempty loc c1 (callerStack c) Hs).
  split; simpl.
  - rewrite Hs. apply take_removes_last.
  - rewrite Hc. apply delete_insert_id. exact Hloc.
Qed.

Lemma same_callerMap_trans c1 c2 c3 :
  same_callerMap c1 c2 -> same_callerMap c2 c3 -> same_callerMap c1 c3.
Proof.
  intros H12 H23 Hwf. destruct (H12 Hwf) as [Hs Hc].
  assert (Hwf2 : callerMap_wf c2) by (intros l; rewrite Hc; apply Hwf).
  destruct (H23 Hwf2). split; congruence.
Qed.

Lemma same_callers_trans c1 c2 c3 :
  same_callers c1 c2 -> same_callers c2 c3 -> same_callers c1 c3.
Proof.
  intros [Hs Hc] [Hs' Hc']. split; [congruence|]. intros l. now rewrite Hc', Hc.
Qed.

(** C7. For every invocation of [call] on a container, when [call]
    returns, the active-call stack is exactly what it was and the caller
    set has exactly the members it had, whether [call] returns values, the
    cyclic-dependency error, an error of the resolution of an input, an
    error of the provider function, or panics; and in a container whose
    map of callers holds [true] only, as every container the package
    makes, the map itself is what it was. *)
Theorem call_restores_callers {assignability : reflect.Assignability} :
  forall (ρ : RangeOrder) (fuel : nat) (provider : providerDescriptor)
         (key : option moduleKey) (c : container),
    let c' := (call ρ fuel provider key c).1 in
    callerStack c' = callerStack c
    /\ (forall l, callerSet c' l = callerSet c l)
    /\ (callerMap_wf c -> callerMap c' = callerMap c).
Proof.
  intros ρ fuel provider key c c'.
  assert (H1 : same_callers c c').
  { apply (keeps_call same_callers); [| exact same_callers_trans | exact same_callers_push_pop].
    intros c0 c0' Hs Hc. split; [exact Hs|]. intros l. unfold callerSet. now rewrite Hc. }
  assert (H2 : same_callerMap c c').
  { apply (keeps_call same_callerMap);
      [| exact same_callerMap_trans | exact same_callerMap_push_pop].
    intros c0 c0' Hs Hc _. split; assumption. }
  destruct H1 as [Hs Hc]. split; [exact Hs|]. split; [exact Hc|].
  intros Hwf. apply (H2 Hwf).
Qed.

Lemma newContainer_callerMap_wf : callerMap_wf newContainer.
Proof. intros l. simpl. rewrite lookup_empty. discriminate. Qed.

(** C7 at the new container, calling [five]. *)
Lemma call_restores_callers_witness :
  callerMap_wf newContainer
  /\ (call mapOrder 2 provider_five None newContainer).2 = Ok [VPlain intType "5"]
  /\ callerStack (call mapOrder 2 provider_five None newContainer).1 = []
  /\ callerMap (call mapOrder 2 provider_five None newContainer).1 = ∅.
Proof.
  split; [exact newContainer_callerMap_wf|]. split; [reflexivity|].
  pose proof (call_restores_callers mapOrder 2 provider_five None newContainer) as H.
  cbv zeta in H. destruct H as (Hs & _ & Hm).
  split; [exact Hs | exact (Hm newContainer_callerMap_wf)].
Defined.

(** ** Group resolver: the slice form *)

Section GroupAppend.

Context {assignability : reflect.Assignability}.

Lemma Value_retype_same (t : rtype) (x : Value) :
  Value_Type x = Some t -> Value_retype t x = x.
Proof. intros H. unfold Value_retype. now rewrite decide_True. Qed.

Lemma reflect_Append_assignable (t e : rtype) (acc : list Value) (x : Value) :
  reflect.shape t = reflect.SSlice e ->
  assignable_to e x = true ->
  reflect_Append (VSlice t acc) x = Ok (VSlice t (acc ++ [Value_retype e x])).
Proof.
  intros Ht Hx. unfold reflect_Append, assignable_to in *. cbn [Value_Type Value_elems].
  rewrite Ht. destruct (Value_Type x) as [V|]; [|discriminate Hx].
  now rewrite Hx.
Qed.

Lemma reflect_Append_not_assignable (t e : rtype) (acc : list Value) (x : Value) :
  reflect.shape t = reflect.SSlice e ->
  assignable_to e x = false ->
  exists msg, reflect_Append (VSlice t acc) x = Panic msg.
Proof.
  intros Ht Hx. unfold reflect_Append, assignable_to in *. cbn [Value_Type Value_elems].
  rewrite Ht. destruct (Value_Type x) as [V|]; [|eexists; reflexivity].
  rewrite Hx. eexists; reflexivity.
Qed.

(** The loop of appendSlice over the elements [l] of the value: it takes
    them all when each is assignable, and panics otherwise. *)
Lemma appendSlice_loop_elems (t e : rtype) (values : Value) :
  reflect.shape t = reflect.SSlice e ->
  forall n i acc,
    i + n <= Value_Len values ->
    let l := take n (drop i (Value_elems values)) in
    if forallb (assignable_to e) l
    then appendSlice_loop values i n (VSlice t acc)
         = Ok (VSlice t (acc ++ map (Value_retype e) l))
    else exists msg, appendSlice_loop values i n (VSlice t acc) = Panic msg.
Proof.
  intros Ht. unfold Value_Len.
  induction n as [|n IH]; intros i acc Hi; cbn zeta.
  - cbn. now rewrite app_nil_r.
  - destruct (lookup_lt_is_Some_2 (Value_elems values) i ltac:(lia)) as [x Hx].
    rewrite (drop_S _ x i Hx). cbn [take forallb map appendSlice_loop].
    unfold Value_Index. rewrite Hx. change (default VInvalid (Some x)) with x.
    destruct (assignable_to e x) eqn:Ex; cbn [andb].
    + rewrite (reflect_Append_assignable t e acc x Ht Ex).
      specialize (IH (S i) (acc ++ [Value_retype e x]) ltac:(lia)). cbn zeta in IH.
      destruct (forallb (assignable_to e) (take n (drop (S i) (Value_elems values)))).
      * rewrite IH, <- app_assoc. reflexivity.
      * exact IH.
    + destruct (reflect_Append_not_assignable t e acc x Ht Ex) as [msg ->].
      exists msg. reflexivity.
Qed.

(** appendValue adds what the value splices to, each element as a value
    of the element type, or panics at the first that is not assignable. *)
Lemma appendValue_splice (t e : rtype) (acc : list Value) (value : Value) :
  reflect.shape t = reflect.SSlice e ->
  if forallb (assignable_to e) (splice value)
  then appendValue (VSlice t acc) value
       = Ok (VSlice t (acc ++ map (Value_retype e) (splice value)))
  else exists msg, appendValue (VSlice t acc) value = Panic msg.
Proof.
  intros Ht. unfold appendValue, splice. destruct (decide _).
  - unfold appendSlice.
    pose proof (appendSlice_loop_elems t e value Ht (Value_Len value) 0 acc ltac:(lia)) as H.
    cbn zeta in H. rewrite drop_0 in H. unfold Value_Len in H at 1 2 3.
    rewrite firstn_all in H. exact H.
  - cbn [forallb map]. destruct (assignable_to e value) eqn:Ex; cbn [andb].
    + apply (reflect_Append_assignable t e); assumption.
    + apply (reflect_Append_not_assignable t e); assumption.
Qed.

Lemma groupResolver_resolveValues_loop_contributes call_rec g (t e : rtype) :
  reflect.shape t = reflect.SSlice e ->
  forall i providers c values c',
    contributes call_rec g i providers c values c' ->
    forall acc,
      if forallb (assignable_to e) (flat_map splice values)
      then groupResolver_resolveValues_loop call_rec g i providers (VSlice t acc) c
           = (c', Ok (VSlice t (acc ++ map (Value_retype e) (flat_map splice values))))
      else exists c'' msg,
             groupResolver_resolveValues_loop call_rec g i providers (VSlice t acc) c
             = (c'', Panic msg).
Proof.
  intros Ht.
  induction 1 as [i c|i provider rest c c1 c2 outputs idx value values Hp Hi Hv _ IH];
    intros acc.
  - cbn. now rewrite app_nil_r.
  - cbn [flat_map groupResolver_resolveValues_loop].
    unfold mbind, M_bind, bind. rewrite Hp. unfold gets. rewrite Hi.
    unfold valueAt. rewrite Hv. unfold mret, M_ret, ret, lift.
    rewrite forallb_app, map_app.
    pose proof (appendValue_splice t e acc value Ht) as Hv'.
    destruct (forallb (assignable_to e) (splice value)); cbn [andb].
    + rewrite Hv'.
      specialize (IH (acc ++ map (Value_retype e) (splice value))).
      destruct (forallb (assignable_to e) (flat_map splice values)).
      * rewrite IH, <- app_assoc. reflexivity.
      * exact IH.
    + destruct Hv' as [msg ->]. exists c1, msg. reflexivity.
Qed.

Lemma reflect_Append_within_budget (s x : Value) : reflect_Append s x <> NoFuel.
Proof.
  unfold reflect_Append.
  destruct (Value_Type s) as [t|]; [|discriminate].
  destruct (reflect.shape t); try discriminate.
  destruct (Value_Type x) as [V|]; [|discriminate].
  destruct (reflect.AssignableTo V elem); discriminate.
Qed.

Lemma appendSlice_loop_within_budget (values : Value) :
  forall n i slice, appendSlice_loop values i n slice <> NoFuel.
Proof.
  induction n as [|n IH]; intros i slice; cbn [appendSlice_loop]; [discriminate|].
  pose proof (reflect_Append_within_budget slice (Value_Index values i)) as Hn.
  destruct (reflect_Append slice (Value_Index values i)); try discriminate; [apply IH|].
  exact Hn.
Qed.

Lemma appendValue_within_budget (slice value : Value) : appendValue slice value <> NoFuel.
Proof.
  unfold appendValue, appendSlice. destruct (decide _).
  - apply appendSlice_loop_within_budget.
  - apply reflect_Append_within_budget.
Qed.

Lemma reflect_MakeSlice_within_budget (typ : rtype) (cap : nat) :
  reflect_MakeSlice typ cap <> NoFuel.
Proof. unfold reflect_MakeSlice. destruct (reflect.shape typ); discriminate. Qed.

End GroupAppend.

Lemma groupResolver_state_insert (g : groupResolver) (st : groupResolverState) (c : container) :
  groupResolver_state g (set_groupResolvers <[g_addr g := st]> c) = st.
Proof. unfold groupResolver_state. simpl. now rewrite lookup_insert_eq. Qed.

(** Registration puts contributions at the end, so the order of the list
    of providers of a group is the order of registration. *)
Lemma groupResolver_addNode_appends (g : groupResolver) (provider : simpleProvider)
    (idx : Z) (c : container) :
  let c' := (groupResolver_addNode g provider idx c).1 in
  g_providers (groupResolver_state g c') = g_providers (groupResolver_state g c) ++ [provider]
  /\ g_idxsInValues (groupResolver_state g c')
     = g_idxsInValues (groupResolver_state g c) ++ [idx].
Proof.
  cbn [groupResolver_addNode groupResolver_update modify fst].
  rewrite groupResolver_state_insert. split; reflexivity.
Qed.



Example tags_group_registered :
  resolverByType (reflect.SliceOf TagType) tags_container
    = (Some (sliceGroupResolver tags_group), true)
  /\ resolverByType TagType tags_container = (Some (of_groupResolver tags_group), true)
  /\ g_providers (groupResolver_state tags_group tags_container) = [tags_ab_node; tag_c_node]
  /\ g_idxsInValues (groupResolver_state tags_group tags_container) = [0%Z; 0%Z].
Proof. vm_compute. repeat split. Qed.


(** C5. After a successful resolution of the slice form of a
    many-per-container type, the group is marked resolved and holds the
    sequence returned; and a resolution of a group that is marked resolved
    returns the sequence it holds and leaves the whole container as it is,
    so that no provider is invoked ([fnCalls] does not grow, and the nested
    [call] plays no part). In particular the next resolution returns the
    same sequence. *)
Theorem sliceGroupResolver_resolve_idempotent {assignability : reflect.Assignability} :
  forall (call_rec : providerDescriptor -> option moduleKey -> M (list Value))
         (g : groupResolver) (key : option moduleKey) (caller : Location)
         (c c' : container) (v : Value),
    sliceGroupResolver_resolve call_rec g key caller c = (c', Ok v) ->
    g_resolved (groupResolver_state g c') = true
    /\ g_values (groupResolver_state g c') = v
    /\ (forall call_rec' key' caller' c'',
          g_resolved (groupResolver_state g c'') = true ->
          g_values (groupResolver_state g c'') = v ->
          sliceGroupResolver_resolve call_rec' g key' caller' c'' = (c'', Ok v))
    /\ (forall call_rec' key' caller',
          sliceGroupResolver_resolve call_rec' g key' caller' c' = (c', Ok v)).
Proof.
  intros call_rec g key caller c c' v H.
  assert (Hcached : forall call_rec' key' caller' c'',
            g_resolved (groupResolver_state g c'') = true ->
            g_values (groupResolver_state g c'') = v ->
            sliceGroupResolver_resolve call_rec' g key' caller' c'' = (c'', Ok v)).
  { intros call_rec' key' caller' c'' Hr Hv.
    unfold sliceGroupResolver_resolve, mbind, M_bind, bind, gets. rewrite Hr. cbn.
    now rewrite Hv. }
  assert (Hpost : g_resolved (groupResolver_state g c') = true
                  /\ g_values (groupResolver_state g c') = v).
  { revert H. unfold sliceGroupResolver_resolve, mbind, M_bind, bind, gets.
    destruct (g_resolved (groupResolver_state g c)) eqn:Hr; cbn [negb].
    - cbn. intros [= <- <-]. split; [exact Hr | reflexivity].
    - unfold groupResolver_resolveValues, mbind, M_bind, bind, gets, lift.
      destruct (reflect_MakeSlice _ _) as [result0| | |]; try discriminate.
      destruct (groupResolver_resolveValues_loop call_rec g 0 _ _ c) as [c1 [result| | |]];
        try discriminate.
      unfold groupResolver_update, modify. cbn [fst snd].
      intros [= <- <-]. rewrite !groupResolver_state_insert. split; reflexivity. }
  destruct Hpost as [Hr Hv]. repeat split; try assumption.
  intros call_rec' key' caller'. apply Hcached; assumption.
Qed.

(** C5 at the container with [tags_ab] and [tag_c]: the first resolution
    runs the two providers, the second one runs none. *)
Lemma sliceGroupResolver_resolve_idempotent_witness :
  let r1 := sliceGroupResolver_resolve (call mapOrder 1) tags_group None here tags_container in
  r1.2 = Ok (VSlice (reflect.SliceOf TagType) [tag "a"; tag "b"; tag "c"])
  /\ length (fnCalls r1.1) = 2
  /\ sliceGroupResolver_resolve (call mapOrder 1) tags_group None here r1.1
     = (r1.1, Ok (VSlice (reflect.SliceOf TagType) [tag "a"; tag "b"; tag "c"])).
Proof.
  intros r1.
  assert (H1 : r1 = (r1.1, Ok (VSlice (reflect.SliceOf TagType) [tag "a"; tag "b"; tag "c"])))
    by (vm_compute; reflexivity).
  split; [now rewrite H1|]. split; [vm_compute; reflexivity|].
  exact (proj2 (proj2 (proj2 (sliceGroupResolver_resolve_idempotent (call mapOrder 1)
           tags_group None here tags_container r1.1 _ H1))) (call mapOrder 1) None here).
Defined.


(** ** Strings *)

#[local] Arguments String.append !s1 s2 : simpl nomatch.

Lemma string_app_assoc (s1 s2 s3 : string) : (s1 +:+ s2) +:+ s3 = s1 +:+ (s2 +:+ s3).
Proof. induction s1 as [|a s1 IH]; simpl; [reflexivity | f_equal; exact IH]. Qed.

Lemma string_app_nil_r (s : string) : s +:+ "" = s.
Proof. induction s as [|a s IH]; simpl; [reflexivity | f_equal; exact IH]. Qed.

(** ** The segments of a path *)

Lemma string_rev_app (s acc : string) : String.rev_app s acc = String.rev s +:+ acc.
Proof.
  unfold String.rev. revert acc. induction s as [|a s IH]; intros acc; simpl; [reflexivity|].
  rewrite (IH (String a acc)), (IH (String a "")), string_app_assoc. reflexivity.
Qed.

Lemma string_rev_cons (a : ascii) (s : string) :
  String.rev (String a s) = String.rev s +:+ String a "".
Proof. unfold String.rev at 1. simpl. apply string_rev_app. Qed.

Lemma strings_Split_aux_last (sep : ascii) (s acc : string) :
  has_byte sep s = false -> strings_Split_aux sep s acc = [String.rev acc +:+ s].
Proof.
  revert acc. induction s as [|a s IH]; intros acc; simpl.
  - intros _. now rewrite string_app_nil_r.
  - intros H. apply orb_false_iff in H as [Ha Hs]. rewrite Ha.
    rewrite (IH _ Hs), string_rev_cons, string_app_assoc. reflexivity.
Qed.

Lemma strings_Split_aux_first (sep : ascii) (a b acc : string) :
  has_byte sep a = false ->
  strings_Split_aux sep (a +:+ String sep b) acc
  = (String.rev acc +:+ a) :: strings_Split_aux sep b "".
Proof.
  revert acc. induction a as [|x a IH]; intros acc; simpl.
  - intros _. rewrite Ascii.eqb_refl. now rewrite string_app_nil_r.
  - intros H. apply orb_false_iff in H as [Hx Ha]. rewrite Hx.
    rewrite (IH _ Ha), string_rev_cons, string_app_assoc. reflexivity.
Qed.

Lemma strings_Split_aux_later (sep : ascii) (x a b : string) :
  x ∈ strings_Split_aux sep b "" ->
  forall acc, x ∈ strings_Split_aux sep (a +:+ String sep b) acc.
Proof.
  intros Hx. induction a as [|y a IH]; intros acc; simpl.
  - rewrite Ascii.eqb_refl. now apply list_elem_of_further.
  - destruct (Ascii.eqb y sep); [apply list_elem_of_further|]; apply IH.
Qed.

(** A segment of the split stands in the string between separators or the
    ends of the string. *)
Lemma strings_Split_aux_segment (sep : ascii) (x s : string) :
  forall acc,
    x ∈ strings_Split_aux sep s acc ->
    exists pre post,
      String.rev acc +:+ s = pre +:+ x +:+ post
      /\ (pre = "" \/ exists pre', pre = pre' +:+ String sep "")
      /\ (post = "" \/ exists post', post = String sep post').
Proof.
  induction s as [|a s IH]; intros acc; simpl.
  - intros H. apply list_elem_of_singleton in H as ->.
    exists "", "". split; [|split; left; reflexivity].
    simpl. now rewrite !string_app_nil_r.
  - destruct (Ascii.eqb_spec a sep) as [->|Hne].
    + intros H. apply elem_of_cons in H as [->|H].
      * exists "", (String sep s). split; [reflexivity|].
        split; [left; reflexivity | right; eexists; reflexivity].
      * destruct (IH "" H) as (pre & post & E & Hpre & Hpost). simpl in E.
        exists (String.rev acc +:+ String sep "" +:+ pre), post.
        split; [|split; [right|exact Hpost]].
        -- rewrite E, !string_app_assoc. reflexivity.
        -- destruct Hpre as [->|[pre' ->]].
           ++ exists (String.rev acc). now rewrite string_app_nil_r.
           ++ exists (String.rev acc +:+ String sep "" +:+ pre').
              rewrite !string_app_assoc. reflexivity.
    + intros H. destruct (IH _ H) as (pre & post & E & Hpre & Hpost).
      exists pre, post. split; [|split; assumption].
      rewrite <- E, string_rev_cons, string_app_assoc. reflexivity.
Qed.

Lemma slices_Contains_elem_of (l : list string) (x : string) :
  slices_Contains l x = true <-> x ∈ l.
Proof.
  unfold slices_Contains. rewrite existsb_exists. split.
  - intros (y & Hy & E). apply String.eqb_eq in E as ->. now apply list_elem_of_In.
  - intros H. exists x. split; [now apply list_elem_of_In | apply String.eqb_refl].
Qed.

Lemma isInternalPackage_internal_segment (pkgPath : string) :
  isInternalPackage pkgPath = true <-> internal_segment pkgPath.
Proof.
  unfold isInternalPackage, internal_segment. rewrite slices_Contains_elem_of.
  unfold strings_Split. split.
  - intros H. apply strings_Split_aux_segment in H. exact H.
  - intros (pre & post & -> & Hpre & Hpost).
    assert (Hx : forall acc, acc = "" ->
              "internal" ∈ strings_Split_aux "/" ("internal" +:+ post) acc).
    { intros acc ->. destruct Hpost as [->|[post' ->]].
      - rewrite string_app_nil_r. rewrite strings_Split_aux_last by reflexivity.
        apply list_elem_of_here.
      - change ("/" +:+ post') with (String "/" post').
        rewrite strings_Split_aux_first by reflexivity. apply list_elem_of_here. }
    destruct Hpre as [->|[pre' ->]].
    + apply Hx. reflexivity.
    + rewrite string_app_assoc. change ("/" +:+ "internal" +:+ post)
        with (String "/" ("internal" +:+ post)).
      apply strings_Split_aux_later. apply Hx. reflexivity.
Qed.

#[local] Arguments String.append : simpl never.

(** ** The registration-time check of a type *)


Lemma isNamedType_named (t : rtype) : isNamedType t = true <-> named t.
Proof.
  unfold isNamedType, named. rewrite andb_true_iff, !negb_true_iff.
  split; intros [H1 H2]; split.
  - intros E. rewrite E in H1. discriminate H1.
  - intros E. rewrite E in H2. discriminate H2.
  - destruct (String.eqb_spec (reflect.Name t) ""); [contradiction | reflexivity].
  - destruct (String.eqb_spec (reflect.PkgPath t) ""); [contradiction | reflexivity].
Qed.

Lemma isNamedType_not_named (t : rtype) : isNamedType t = false <-> ~ named t.
Proof.
  rewrite <- isNamedType_named. destruct (isNamedType t); split; congruence.
Qed.

Section CheckTypeSpec.

Variable rune : Type.
Variable runes : string -> list rune.
Variable unicode_IsLower : rune -> bool.
Hypothesis runes_nonempty : forall s : string, s <> "" -> runes s <> [].

#[local] Abbreviation isExported' := (isExported rune runes unicode_IsLower).
#[local] Abbreviation isExportedType' := (isExportedType rune runes unicode_IsLower).
#[local] Abbreviation checkCompositeType' := (checkCompositeType rune runes unicode_IsLower).
#[local] Abbreviation checkTypes' := (checkTypes rune runes unicode_IsLower).
#[local] Abbreviation lower_initial' := (lower_initial rune runes unicode_IsLower).
#[local] Abbreviation acceptable' := (acceptable rune runes unicode_IsLower).
#[local] Abbreviation rejects' := (rejects rune runes unicode_IsLower).
#[local] Abbreviation check_outcome' := (check_outcome rune runes unicode_IsLower).

(** What isExported answers on a name that is not empty. *)
Lemma isExported_lower_initial (name : string) :
  name <> "" ->
  (isExported' name = Ok false /\ lower_initial' name)
  \/ (isExported' name = Ok true /\ ~ lower_initial' name).
Proof.
  intros Hne. unfold isExported, lower_initial.
  destruct (runes name) as [|r rest] eqn:Er; [destruct (runes_nonempty name Hne Er)|].
  destruct (unicode_IsLower r) eqn:El; cbn [negb].
  - left. split; [reflexivity|]. exists r, rest. split; [reflexivity | exact El].
  - right. split; [reflexivity|]. intros (r' & rest' & [= <- <-] & El'). congruence.
Qed.

Lemma check_outcome_named (t : rtype) :
  named t ->
  check_outcome' (checkNamedType rune runes unicode_IsLower t) (visited t).
Proof.
  intros Hn. unfold checkNamedType.
  destruct (isExported_lower_initial (reflect.Name t) (proj1 Hn)) as [[-> Hl]|[-> Hl]].
  - right. exists t. split; [apply visited_refl|]. split; [exact Hn|].
    left. split; [exact Hl | reflexivity].
  - destruct (isInternalPackage (reflect.PkgPath t)) eqn:Ei.
    + right. exists t. split; [apply visited_refl|]. split; [exact Hn|].
      right. split; [exact Hl|]. split; [|reflexivity].
      apply isInternalPackage_internal_segment, Ei.
    + left. split; [reflexivity|]. intros u Hu.
      destruct Hu as [|t u v Hun]; [|contradiction].
      intros _. split; [exact Hl|].
      intros Hi. apply isInternalPackage_internal_segment in Hi. congruence.
Qed.

Lemma check_outcome_seq (r1 r2 : result unit) (l1 l2 : list rtype) :
  check_outcome' r1 (visited_from l1) ->
  check_outcome' r2 (visited_from l2) ->
  check_outcome'
    (match r1 with
     | Ok _ => r2
     | Err e => Err e
     | Panic msg => Panic msg
     | NoFuel => NoFuel
     end) (visited_from (l1 ++ l2)).
Proof.
  intros [[-> H1]|(u & (ch & Hch & Hv) & Hn & Hr)] H2.
  - destruct H2 as [[-> H2]|(u & (ch & Hch & Hv) & Hn & Hr)].
    + left. split; [reflexivity|]. intros u (ch & Hch & Hv).
      apply elem_of_app in Hch as [Hch|Hch]; [apply H1 | apply H2]; exists ch; auto.
    + right. exists u. split; [|split; assumption].
      exists ch. split; [apply elem_of_app; right; exact Hch | exact Hv].
  - right. exists u.
    assert (Hr1 : match r1 with
                  | Ok _ => r2
                  | Err e => Err e
                  | Panic msg => Panic msg
                  | NoFuel => NoFuel
                  end = r1).
    { destruct Hr as [[_ ->]|(_ & _ & ->)]; reflexivity. }
    rewrite Hr1. split; [|split; assumption].
    exists ch. split; [apply elem_of_app; left; exact Hch | exact Hv].
Qed.

Lemma check_outcome_one (t : rtype) :
  check_outcome' (isExportedType' t) (visited t) ->
  check_outcome' (isExportedType' t) (visited_from [t]).
Proof.
  intros [[E H]|(u & Hv & Hn & Hr)].
  - left. split; [exact E|]. intros u (ch & Hch & Hv).
    apply list_elem_of_singleton in Hch as ->. apply H, Hv.
  - right. exists u. split; [|split; assumption].
    exists t. split; [apply list_elem_of_here | exact Hv].
Qed.

Lemma check_outcome_all :
  (forall t, check_outcome' (isExportedType' t) (visited t))
  /\ (forall sh, check_outcome' (checkCompositeType' sh) (visited_from (reflect.shapeChildren sh)))
  /\ (forall ts, check_outcome' (checkTypes' ts) (visited_from (reflect.to_list ts))).
Proof.
  apply reflect.rtype_tshape_tlist_ind.
  - (* a type *)
    intros name pkgPath str ms sh IH.
    set (t := reflect.Ty name pkgPath str ms sh).
    change (isExportedType' t)
      with (if isNamedType t then checkNamedType rune runes unicode_IsLower t
            else checkCompositeType' sh).
    destruct (isNamedType t) eqn:Hn.
    { apply check_outcome_named, isNamedType_named, Hn. }
    apply isNamedType_not_named in Hn.
    destruct IH as [[E H]|(u & (ch & Hch & Hv) & Hnu & Hr)].
    + left. split; [exact E|]. intros u Hu.
      inversion Hu as [t0 E0 E1|t0 ch v _ Hch Hv E0 E1]; subst.
      * intros Hn'. contradiction.
      * apply H. exists ch. split; assumption.
    + right. exists u. split; [|split; assumption].
      apply (visited_step t ch u Hn Hch Hv).
  - (* plain *)
    intros k. left. split; [reflexivity|]. intros u (ch & Hch & _). inversion Hch.
  - intros len e IH. apply (check_outcome_one e IH).
  - intros e IH. apply (check_outcome_one e IH).
  - intros e IH. apply (check_outcome_one e IH).
  - intros e IH. apply (check_outcome_one e IH).
  - intros k IHk e IHe. simpl.
    apply (check_outcome_seq _ _ [k] [e] (check_outcome_one k IHk) (check_outcome_one e IHe)).
  - intros ins IHi outs IHo. simpl. apply (check_outcome_seq _ _ _ _ IHi IHo).
  - left. split; [reflexivity|]. intros u (ch & Hch & _). inversion Hch.
  - intros t IHt ts IHts. simpl.
    apply (check_outcome_seq _ _ [t] _ (check_outcome_one t IHt) IHts).
Qed.

Lemma rejects_not_acceptable (u : rtype) (r : result unit) :
  named u -> rejects' u r -> r <> Ok tt /\ ~ acceptable' u.
Proof.
  intros Hn [[E ->]|(E & Ei & ->)]; (split; [discriminate|]); intros H;
    destruct (H Hn) as [H1 H2]; contradiction.
Qed.

End CheckTypeSpec.


Lemma ascii_runes_nonempty : forall s : string, s <> "" -> ascii_runes s <> [].
Proof. intros [|a s] H; [destruct (H eq_refl) | discriminate]. Qed.


(** ** Implicit interface binding *)

(** C2, as stated, does not hold: in a container with the group of [Tag],
    two registered resolvers, the group resolver under the name of [Tag]
    and its slice form under the name of [[]Tag], produce a non-interface
    type that implements [interface{}]; yet asking for [interface{}] is not
    an ambiguous-binding error, for the two produce one type: the resolver
    registered under the name of that type is returned. *)
Lemma getResolver_two_resolvers_one_type :
  resolvers group_container !! "example.com/app/app.Tag"
    = Some (Some (of_groupResolver tags_group))
  /\ resolvers group_container !! "example.com/app/[]app.Tag"
     = Some (Some (sliceGroupResolver tags_group))
  /\ implements_entry anyType (of_groupResolver tags_group)
  /\ implements_entry anyType (sliceGroupResolver tags_group)
  /\ of_groupResolver tags_group <> sliceGroupResolver tags_group
  /\ interfaceBindings group_container = ∅
  /\ resolvers group_container !! fullyQualifiedTypeName anyType = None
  /\ (getResolver mapOrder anyType None group_container).2
     = Ok (Some (sliceGroupResolver tags_group))
  /\ (getResolver reverseOrder anyType None group_container).2
     = Ok (Some (sliceGroupResolver tags_group)).
Proof.
  repeat split; try discriminate; vm_compute; reflexivity.
Qed.

Lemma matches_insert_NoDup (t : rtype) (matches : list rtype) :
  NoDup matches -> NoDup (matches_insert t matches).
Proof.
  intros H. unfold matches_insert. destruct (decide (t ∈ matches)) as [|Hn]; [exact H|].
  apply NoDup_app. split; [exact H|]. split; [|apply NoDup_singleton].
  intros x Hx Hx'. apply list_elem_of_singleton in Hx' as ->. exact (Hn Hx).
Qed.

Lemma elem_of_matches_insert (t t' : rtype) (matches : list rtype) :
  t' ∈ matches_insert t matches <-> t' = t \/ t' ∈ matches.
Proof.
  unfold matches_insert. destruct (decide (t ∈ matches)) as [Hin|Hn].
  - split; [auto|]. intros [->|H]; assumption.
  - rewrite elem_of_app, list_elem_of_singleton. tauto.
Qed.

Lemma implements_entry_test (iface : rtype) (r : resolver) :
  negb (bool_decide (reflect.Kind_ (resolver_getType r) = reflect.Plain reflect.Interface))
  && reflect.Implements (resolver_getType r) iface = true
  <-> implements_entry iface r.
Proof.
  unfold implements_entry. rewrite andb_true_iff, negb_true_iff, bool_decide_eq_false.
  reflexivity.
Qed.

(** The loop of findImplementingTypes over entries without a nil resolver:
    it ends with the set of the types that pass the test, each once. *)
Lemma findImplementingTypes_loop_spec (iface : rtype) (entries : list (string * option resolver)) :
  (forall k, (k, None) ∉ entries) ->
  forall matches, NoDup matches ->
    exists l,
      findImplementingTypes_loop iface entries matches = Ok l
      /\ NoDup l
      /\ forall t, t ∈ l <->
           t ∈ matches
           \/ exists k r, (k, Some r) ∈ entries /\ resolver_getType r = t
                          /\ implements_entry iface r.
Proof.
  induction entries as [|[k [r|]] rest IH]; intros Hnil matches Hnd.
  - exists matches. split; [reflexivity|]. split; [exact Hnd|].
    intros t. split; [auto|]. intros [H|(k & r & H & _)]; [exact H | inversion H].
  - assert (Hnil' : forall k', (k', None) ∉ rest).
    { intros k' H. apply (Hnil k'). now apply list_elem_of_further. }
    cbn [findImplementingTypes_loop].
    destruct (negb _ && _) eqn:Etest.
    + apply implements_entry_test in Etest.
      destruct (IH Hnil' _ (matches_insert_NoDup (resolver_getType r) matches Hnd))
        as (l & El & Hl & Hin).
      exists l. split; [exact El|]. split; [exact Hl|].
      intros t. rewrite Hin, elem_of_matches_insert. split.
      * intros [[->|H]|(k' & r' & H & Ht & Hi)]; [right|left; exact H|right].
        -- exists k, r. split; [apply list_elem_of_here | split; [reflexivity | exact Etest]].
        -- exists k', r'. split; [now apply list_elem_of_further | split; assumption].
      * intros [H|(k' & r' & H & Ht & Hi)]; [left; right; exact H|].
        apply elem_of_cons in H as [[= <- <-]|H].
        -- left. left. now symmetry.
        -- right. exists k', r'. split; [|split]; assumption.
    + assert (Hno : ~ implements_entry iface r).
      { intros H. apply implements_entry_test in H. congruence. }
      destruct (IH Hnil' _ Hnd) as (l & El & Hl & Hin).
      exists l. split; [exact El|]. split; [exact Hl|].
      intros t. rewrite Hin. split.
      * intros [H|(k' & r' & H & Ht & Hi)]; [left; exact H|right].
        exists k', r'. split; [now apply list_elem_of_further | split; assumption].
      * intros [H|(k' & r' & H & Ht & Hi)]; [left; exact H|].
        apply elem_of_cons in H as [[= <- <-]|H]; [destruct (Hno Hi)|].
        right. exists k', r'. split; [|split]; assumption.
  - destruct (Hnil k). apply list_elem_of_here.
Qed.

Lemma elem_of_range_resolvers (ρ : RangeOrder) (m : gmap string (option resolver))
    (k : string) (v : option resolver) :
  (k, v) ∈ range_resolvers ρ m <-> m !! k = Some v.
Proof. rewrite (range_resolvers_perm ρ m). apply elem_of_map_to_list. Qed.

(** findImplementingTypes in a registry without nil: whatever the order of
    [range], the matches are the types of [matching], each once. *)
Lemma findImplementingTypes_spec (ρ : RangeOrder) (iface : rtype) (c : container) :
  (forall k, resolvers c !! k <> Some None) ->
  exists l,
    findImplementingTypes ρ iface c = Ok l
    /\ NoDup l
    /\ forall t, t ∈ l <-> matching c iface t.
Proof.
  intros Hnil. unfold findImplementingTypes.
  destruct (findImplementingTypes_loop_spec iface (range_resolvers ρ (resolvers c))) with (matches := @nil rtype)
    as (l & El & Hl & Hin).
  - intros k H. apply elem_of_range_resolvers in H. exact (Hnil k H).
  - apply NoDup_nil_2.
  - exists l. split; [exact El|]. split; [exact Hl|].
    intros t. rewrite Hin. unfold matching. split.
    + intros [H|(k & r & H & Ht & Hi)]; [inversion H|].
      apply elem_of_range_resolvers in H.
      exists k, r. split; [|split]; assumption.
    + intros (k & r & H & Ht & Hi). right.
      apply (elem_of_range_resolvers ρ) in H.
      exists k, r. split; [|split]; assumption.
Qed.

Lemma getElementType_interface (typ : rtype) :
  reflect.Kind_ typ = reflect.Plain reflect.Interface -> getElementType typ = typ.
Proof.
  unfold getElementType, isManyPerContainerSliceType, isOnePerModuleMapType, reflect.Kind_.
  destruct (reflect.shape typ); try discriminate. reflexivity.
Qed.

(** Without an explicit binding and without a resolver under the name of
    the type, getResolver for an interface type is resolveInterfaceType. *)
Lemma getResolver_interface_unbound (ρ : RangeOrder) (typ : rtype) (key : option moduleKey)
    (c : container) :
  reflect.Kind_ typ = reflect.Plain reflect.Interface ->
  interfaceBindings c !! bindingKeyFromType typ key = None ->
  interfaceBindings c !! bindingKeyFromType typ None = None ->
  resolvers c !! fullyQualifiedTypeName typ = None ->
  getResolver ρ typ key c = resolveInterfaceType ρ typ c.
Proof.
  intros Hk Hb Hb0 Hr. unfold getResolver, getExplicitResolver.
  rewrite Hb, Hb0. unfold resolverByType, resolverByTypeName. rewrite Hr.
  rewrite (getElementType_interface typ Hk). destruct (decide (typ = typ)); [reflexivity|].
  congruence.
Qed.

(** C2, amended. For an interface type without an explicit binding and
    without a resolver registered under its own name, in a registry
    without nil entries, getResolver goes by the distinct types that the
    registered resolvers produce and that are non-interface types
    implementing the interface, however many resolvers produce each, and in
    any order of [range]: with none, it returns no resolver and no error
    and leaves the container as it is; with exactly one, it returns the
    resolver registered under the name of that type and stores it under the
    name of the interface type, where the next lookup finds it; with two or
    more, it fails with the ambiguous-binding error, whose list holds each
    such type, once. *)
Theorem getResolver_implicit_binding :
  forall (ρ : RangeOrder) (typ : rtype) (key : option moduleKey) (c : container),
    reflect.Kind_ typ = reflect.Plain reflect.Interface ->
    interfaceBindings c !! bindingKeyFromType typ key = None ->
    interfaceBindings c !! bindingKeyFromType typ None = None ->
    resolvers c !! fullyQualifiedTypeName typ = None ->
    (forall k, resolvers c !! k <> Some None) ->
    ((forall t, ~ matching c typ t) -> getResolver ρ typ key c = (c, Ok None))
    /\ (forall t,
          matching c typ t -> (forall t', matching c typ t' -> t' = t) ->
          let res := (resolverByType t c).1 in
          let c' := (addResolver typ res c).1 in
          getResolver ρ typ key c = (c', Ok res)
          /\ resolverByType typ c' = (res, true)
          /\ forall ρ', getResolver ρ' typ key c' = (c', Ok res))
    /\ (forall t1 t2,
          matching c typ t1 -> matching c typ t2 -> t1 <> t2 ->
          exists Matches,
            getResolver ρ typ key c
            = (c, Err (ErrMultipleImplicitInterfaceBindings typ Matches))
            /\ NoDup Matches
            /\ forall t, t ∈ Matches <-> matching c typ t).
Proof.
  intros ρ typ key c Hk Hb Hb0 Hr Hnil.
  rewrite (getResolver_interface_unbound ρ typ key c Hk Hb Hb0 Hr).
  unfold resolveInterfaceType. rewrite Hk.
  rewrite bool_decide_eq_true_2 by reflexivity. cbn [negb].
  destruct (findImplementingTypes_spec ρ typ c Hnil) as (l & El & Hl & Hin).
  rewrite El. split; [|split].
  - intros Hnone. destruct l as [|t l]; [reflexivity|].
    destruct (Hnone t). apply Hin. apply list_elem_of_here.
  - intros t Ht Huniq.
    assert (El1 : l = [t]).
    { destruct l as [|t0 l]; [apply Hin in Ht; inversion Ht|].
      assert (t0 = t) as -> by (apply Huniq, Hin, list_elem_of_here).
      destruct l as [|t1 l]; [reflexivity|].
      assert (t1 = t) as ->
        by (apply Huniq, Hin, list_elem_of_further, list_elem_of_here).
      apply NoDup_cons in Hl as [Hl _]. destruct Hl. apply list_elem_of_here. }
    subst l. destruct (resolverByType t c) as [res found] eqn:Eres.
    cbn [fst]. split; [reflexivity|].
    assert (Hfound : resolverByType typ (addResolver typ res c).1 = (res, true)).
    { unfold resolverByType, resolverByTypeName, addResolver, modify. cbn.
      now rewrite lookup_insert_eq. }
    split; [exact Hfound|].
    intros ρ'. revert Hfound.
    assert (Hib : interfaceBindings (addResolver typ res c).1 = interfaceBindings c)
      by reflexivity.
    generalize dependent (addResolver typ res c).1. intros c' Hib Hfound.
    unfold getResolver, getExplicitResolver. rewrite Hib, Hb, Hb0. now rewrite Hfound.
  - intros t1 t2 H1 H2 Hne.
    apply Hin in H1. apply Hin in H2.
    assert (E2 : exists a b l', l = a :: b :: l').
    { destruct l as [|a [|b l']].
      - inversion H1.
      - apply list_elem_of_singleton in H1, H2. congruence.
      - eauto. }
    destruct E2 as (a & b & l' & ->).
    exists (range_types ρ (a :: b :: l')). split; [reflexivity|]. split.
    + rewrite (range_types_perm ρ). exact Hl.
    + intros t. rewrite (range_types_perm ρ). apply Hin.
Qed.

Lemma group_container_entries (k : string) (v : option resolver) :
  resolvers group_container !! k = Some v ->
  v = Some (of_groupResolver tags_group) \/ v = Some (sliceGroupResolver tags_group).
Proof.
  intros H. apply elem_of_map_to_list in H.
  assert (E : map_to_list (resolvers group_container)
              = [("example.com/app/[]app.Tag", Some (sliceGroupResolver tags_group));
                 ("example.com/app/app.Tag", Some (of_groupResolver tags_group))])
    by (vm_compute; reflexivity).
  rewrite E in H.
  apply elem_of_cons in H as [[= _ ->]|H]; [right; reflexivity|].
  apply list_elem_of_singleton in H as [= _ ->]. left; reflexivity.
Qed.

(** C2, amended, at the container with the group of [Tag], asked for
    [interface{}]: the one type produced is [[]Tag], and the resolver
    under its name is returned and stored for [interface{}]. *)
Lemma getResolver_implicit_binding_witness :
  reflect.Kind_ anyType = reflect.Plain reflect.Interface
  /\ interfaceBindings group_container !! bindingKeyFromType anyType None = None
  /\ resolvers group_container !! fullyQualifiedTypeName anyType = None
  /\ (forall k, resolvers group_container !! k <> Some None)
  /\ matching group_container anyType (reflect.SliceOf TagType)
  /\ (forall t', matching group_container anyType t' -> t' = reflect.SliceOf TagType)
  /\ getResolver mapOrder anyType None group_container
     = ((addResolver anyType (Some (sliceGroupResolver tags_group)) group_container).1,
        Ok (Some (sliceGroupResolver tags_group))).
Proof.
  assert (Hk : reflect.Kind_ anyType = reflect.Plain reflect.Interface) by reflexivity.
  assert (Hb : interfaceBindings group_container !! bindingKeyFromType anyType None = None)
    by (vm_compute; reflexivity).
  assert (Hr : resolvers group_container !! fullyQualifiedTypeName anyType = None)
    by (vm_compute; reflexivity).
  assert (Hnil : forall k, resolvers group_container !! k <> Some None).
  { intros k H. destruct (group_container_entries k None H); discriminate. }
  assert (Hm : matching group_container anyType (reflect.SliceOf TagType)).
  { exists "example.com/app/[]app.Tag", (sliceGroupResolver tags_group).
    split; [vm_compute; reflexivity|]. split; [reflexivity|].
    split; [discriminate | reflexivity]. }
  assert (Hu : forall t', matching group_container anyType t' -> t' = reflect.SliceOf TagType).
  { intros t' (k & r & H & <- & _).
    destruct (group_container_entries k _ H) as [[= ->]|[= ->]]; reflexivity. }
  repeat (split; [assumption|]).
  exact (proj1 (proj1 (proj2 (getResolver_implicit_binding mapOrder anyType None group_container
                                Hk Hb Hb Hr Hnil))
                  (reflect.SliceOf TagType) Hm Hu)).
Defined.

(** ** Two runs of the build: the order of [range] and the budget *)

Lemma error_sim_refl (e : error) : error_sim e e.
Proof. induction e; constructor; auto. Qed.

Lemma error_sim_sym (e1 e2 : error) : error_sim e1 e2 -> error_sim e2 e1.
Proof. induction 1; constructor; auto. now symmetry. Qed.

Lemma same_outcome_refl {A} (r : result A) : same_outcome r r.
Proof. destruct r; simpl; auto using error_sim_refl. Qed.

Lemma same_outcome_sym {A} (r1 r2 : result A) : same_outcome r1 r2 -> same_outcome r2 r1.
Proof. destruct r1, r2; simpl; auto using error_sim_sym. Qed.

Lemma follows_refl {A} (m : M A) : follows m m.
Proof. intros c _. split; [reflexivity | apply same_outcome_refl]. Qed.

Lemma follows_bind {A B} (m1 m2 : M A) (k1 k2 : A -> M B) :
  follows m1 m2 -> (forall a, follows (k1 a) (k2 a)) -> follows (m1 ≫= k1) (m2 ≫= k2).
Proof.
  intros Hm Hk c. unfold mbind, M_bind, bind. specialize (Hm c).
  destruct (m1 c) as [c1 r1], (m2 c) as [c2 r2]. cbn [fst snd] in Hm.
  destruct r1 as [a| | |]; intros Hne;
    try (destruct Hm as [-> Hr]; [discriminate|];
         destruct r2; cbn in Hr; try contradiction; subst; cbn; auto; fail).
  - destruct Hm as [-> Hr]; [discriminate|].
    destruct r2 as [a2| | |]; cbn in Hr; try contradiction. subst a2.
    apply Hk. exact Hne.
  - destruct Hne. reflexivity.
Qed.

Lemma follows_defer {A} (d : M unit) (b1 b2 : M A) :
  follows b1 b2 -> follows (defer d b1) (defer d b2).
Proof.
  intros Hb c. unfold defer. specialize (Hb c).
  destruct (b1 c) as [c1 r1], (b2 c) as [c2 r2]. cbn [fst snd] in Hb.
  intros Hne.
  assert (Hr1 : r1 <> NoFuel).
  { intros ->. apply Hne. destruct (d c1) as [? []]; reflexivity. }
  destruct (Hb Hr1) as [-> Hr].
  destruct (d c1) as [c3 rd].
  destruct r1, r2; cbn in Hr; try contradiction; try congruence; subst;
    destruct rd; cbn; auto using error_sim_refl.
Qed.

Lemma follows_forEach {A} (l : list A) (body1 body2 : A -> M unit) :
  (forall x, follows (body1 x) (body2 x)) -> follows (forEach l body1) (forEach l body2).
Proof.
  intros H. induction l as [|x l IH]; simpl; [apply follows_refl|].
  apply follows_bind; [apply H | intros _; exact IH].
Qed.

Create HintDb follows.

Ltac follows_step :=
  match goal with
  | |- follows ?m ?m => apply follows_refl
  | |- follows (_ ≫= _) (_ ≫= _) => apply follows_bind; [|intros ?]
  | |- follows (defer _ _) (defer _ _) => apply follows_defer
  | |- follows (forEach _ _) (forEach _ _) => apply follows_forEach; intros ?
  | |- follows (match ?x with _ => _ end) (match ?x with _ => _ end) => destruct x
  | |- follows (if ?b then _ else _) (if ?b then _ else _) => destruct b
  | |- follows _ _ => solve [auto with follows]
  end.

Ltac follows := repeat follows_step.

Lemma entries_nil_or_not (entries : list (string * option resolver)) :
  (exists k, (k, None) ∈ entries) \/ (forall k, (k, None) ∉ entries).
Proof.
  induction entries as [|[k [r|]] rest [[k' H]|H]].
  - right. intros k H. inversion H.
  - left. exists k'. now apply list_elem_of_further.
  - right. intros k' H'. apply elem_of_cons in H' as [[= _]|H']. exact (H k' H').
  - left. exists k. apply list_elem_of_here.
  - left. exists k. apply list_elem_of_here.
Qed.

Lemma findImplementingTypes_loop_nil (iface : rtype) (entries : list (string * option resolver)) :
  (exists k, (k, None) ∈ entries) ->
  forall matches,
    findImplementingTypes_loop iface entries matches
    = Panic "invalid memory address or nil pointer dereference".
Proof.
  induction entries as [|[k [r|]] rest IH]; intros [k' H] matches.
  - inversion H.
  - apply elem_of_cons in H as [[= _]|H].
    cbn [findImplementingTypes_loop]. destruct (negb _ && _); apply IH; eauto.
  - reflexivity.
Qed.

(** findImplementingTypes in two orders of [range]: the same panic, or the
    same set of matches. *)
Lemma findImplementingTypes_orders (ρ1 ρ2 : RangeOrder) (iface : rtype) (c : container) :
  (findImplementingTypes ρ1 iface c = Panic "invalid memory address or nil pointer dereference"
   /\ findImplementingTypes ρ2 iface c = Panic "invalid memory address or nil pointer dereference")
  \/ (exists l1 l2,
        findImplementingTypes ρ1 iface c = Ok l1
        /\ findImplementingTypes ρ2 iface c = Ok l2
        /\ l1 ≡ₚ l2).
Proof.
  destruct (entries_nil_or_not (range_resolvers ρ1 (resolvers c))) as [[k H]|H].
  - left. unfold findImplementingTypes. split; apply findImplementingTypes_loop_nil.
    + eauto.
    + exists k. apply elem_of_range_resolvers. now apply (elem_of_range_resolvers ρ1).
  - right.
    assert (Hnil : forall k, resolvers c !! k <> Some None).
    { intros k Hk. apply (H k). now apply elem_of_range_resolvers. }
    destruct (findImplementingTypes_spec ρ1 iface c Hnil) as (l1 & E1 & N1 & I1).
    destruct (findImplementingTypes_spec ρ2 iface c Hnil) as (l2 & E2 & N2 & I2).
    exists l1, l2. split; [exact E1|]. split; [exact E2|].
    apply NoDup_Permutation; [exact N1 | exact N2|].
    intros t. now rewrite I1, I2.
Qed.

Lemma follows_resolveInterfaceType (ρ1 ρ2 : RangeOrder) (typ : rtype) :
  follows (resolveInterfaceType ρ1 typ) (resolveInterfaceType ρ2 typ).
Proof.
  unfold resolveInterfaceType. destruct (negb _); [apply follows_refl|].
  intros c _.
  destruct (findImplementingTypes_orders ρ1 ρ2 typ c) as [[-> ->]|(l1 & l2 & -> & -> & Hp)].
  - split; reflexivity.
  - destruct l1 as [|t1 [|t1' l1]].
    + apply Permutation_nil_l in Hp as <-. split; reflexivity.
    + apply Permutation_singleton_l in Hp as <-.
      split; [reflexivity | apply same_outcome_refl].
    + destruct l2 as [|t2 [|t2' l2]];
        try (apply Permutation_length in Hp; discriminate Hp).
      split; [reflexivity|]. cbn. constructor.
      now rewrite (range_types_perm ρ1), (range_types_perm ρ2).
Qed.

Lemma follows_getResolver (ρ1 ρ2 : RangeOrder) (typ : rtype) (key : option moduleKey) :
  follows (getResolver ρ1 typ key) (getResolver ρ2 typ key).
Proof.
  intros c. unfold getResolver.
  destruct (getExplicitResolver typ key c) as [c1 [[r|]| | |]];
    try (intros _; split; [reflexivity | apply same_outcome_refl]).
  destruct (resolverByType typ c1) as [r []];
    [intros _; split; [reflexivity | apply same_outcome_refl]|].
  destruct (decide _); [apply follows_resolveInterfaceType | apply follows_refl].
Qed.

#[local] Hint Resolve follows_getResolver : follows.

Section Follows.

Context {assignability : reflect.Assignability}.

Variables ρ1 ρ2 : RangeOrder.
Variables rec1 rec2 : providerDescriptor -> option moduleKey -> M (list Value).
Hypothesis follows_rec : forall provider key, follows (rec1 provider key) (rec2 provider key).

#[local] Hint Resolve follows_rec : follows.

Lemma follows_simpleProvider_resolveValues s :
  follows (simpleProvider_resolveValues rec1 s) (simpleProvider_resolveValues rec2 s).
Proof. unfold simpleProvider_resolveValues. follows. Qed.

#[local] Hint Resolve follows_simpleProvider_resolveValues : follows.

Lemma follows_groupResolver_resolveValues_loop g providers :
  forall i result,
    follows (groupResolver_resolveValues_loop rec1 g i providers result)
      (groupResolver_resolveValues_loop rec2 g i providers result).
Proof. induction providers as [|p rest IH]; intros i result; simpl; follows. Qed.

#[local] Hint Resolve follows_groupResolver_resolveValues_loop : follows.

Lemma follows_groupResolver_resolveValues g :
  follows (groupResolver_resolveValues rec1 g) (groupResolver_resolveValues rec2 g).
Proof. unfold groupResolver_resolveValues. follows. Qed.

#[local] Hint Resolve follows_groupResolver_resolveValues : follows.

Lemma follows_mapOfOnePerModuleResolver_loop providers :
  forall entries,
    follows (mapOfOnePerModuleResolver_loop rec1 providers entries)
      (mapOfOnePerModuleResolver_loop rec2 providers entries).
Proof.
  induction providers as [|[[k p] idx] rest IH]; intros entries; simpl; follows.
Qed.

#[local] Hint Resolve follows_mapOfOnePerModuleResolver_loop : follows.

Lemma follows_resolver_resolve r key caller :
  follows (resolver_resolve rec1 r key caller) (resolver_resolve rec2 r key caller).
Proof.
  destruct r; simpl;
    unfold simpleResolver_resolve, sliceGroupResolver_resolve, moduleDepResolver_resolve,
      mapOfOnePerModuleResolver_resolve;
    follows.
Qed.

#[local] Hint Resolve follows_resolver_resolve : follows.

Lemma follows_resolve input key caller :
  follows (resolve ρ1 rec1 input key caller) (resolve ρ2 rec2 input key caller).
Proof. unfold resolve. follows. Qed.

#[local] Hint Resolve follows_resolve : follows.

Lemma follows_resolveInputs inputs key loc :
  follows (resolveInputs ρ1 rec1 inputs key loc) (resolveInputs ρ2 rec2 inputs key loc).
Proof. induction inputs as [|input rest IH]; simpl; follows. Qed.

#[local] Hint Resolve follows_resolveInputs : follows.

Lemma follows_call_body provider key :
  follows (call_body ρ1 rec1 provider key) (call_body ρ2 rec2 provider key).
Proof.
  intros c. unfold call_body.
  destruct (checkCyclicDependency (Location_ provider) c);
    [intros _; split; [reflexivity | apply same_outcome_refl]|].
  revert c.
  change (follows
            (modify (pushCaller (Location_ provider));;
             defer (popCaller (Location_ provider))
               (inVals ← resolveInputs ρ1 rec1 (Inputs provider) key (Location_ provider);
                runFn provider inVals))
            (modify (pushCaller (Location_ provider));;
             defer (popCaller (Location_ provider))
               (inVals ← resolveInputs ρ2 rec2 (Inputs provider) key (Location_ provider);
                runFn provider inVals))).
  follows.
Qed.

End Follows.

(** A run with more budget, and another order of [range], does as the run
    that does not run out of budget. *)
Lemma follows_call {assignability : reflect.Assignability} (ρ1 ρ2 : RangeOrder) :
  forall fuel1 fuel2, fuel1 <= fuel2 ->
    forall provider key, follows (call ρ1 fuel1 provider key) (call ρ2 fuel2 provider key).
Proof.
  induction fuel1 as [|fuel1 IH]; intros fuel2 Hle provider key.
  - intros c Hne. destruct Hne. reflexivity.
  - destruct fuel2 as [|fuel2]; [lia|].
    simpl. apply follows_call_body. intros p k. apply IH. lia.
Qed.

Section FollowsInjection.

Context {assignability : reflect.Assignability}.

Variable rune : Type.
Variable runes : string -> list rune.
Variable unicode_IsLower : rune -> bool.
Variables ρ1 ρ2 : RangeOrder.

Lemma follows_validateProviderInputs provider key :
  follows (validateProviderInputs rune runes unicode_IsLower ρ1 provider key)
    (validateProviderInputs rune runes unicode_IsLower ρ2 provider key).
Proof. unfold validateProviderInputs, addInputTypeToGraph. follows. Qed.

#[local] Hint Resolve follows_validateProviderInputs : follows.

Lemma follows_addNode provider key :
  follows (addNode rune runes unicode_IsLower ρ1 provider key)
    (addNode rune runes unicode_IsLower ρ2 provider key).
Proof. unfold addNode. follows. Qed.

Lemma follows_provide key providers :
  follows (provide rune runes unicode_IsLower ρ1 key providers)
    (provide rune runes unicode_IsLower ρ2 key providers).
Proof.
  unfold provide. apply follows_forEach. intros provider.
  destruct (extractProviderDescriptor provider) as [desc| | |]; try apply follows_refl.
  intros c. pose proof (follows_addNode desc key c) as H.
  destruct (addNode rune runes unicode_IsLower ρ1 desc key c) as [c1 r1],
    (addNode rune runes unicode_IsLower ρ2 desc key c) as [c2 r2].
  cbn [fst snd] in H. intros Hne.
  destruct r1; try (destruct Hne; reflexivity; fail);
    (destruct H as [-> Hr]; [discriminate|]);
    destruct r2; cbn in Hr; try contradiction; subst; cbn; split;
      auto using error_sim.
Qed.

#[local] Hint Resolve follows_provide : follows.

Lemma follows_Configs (l1 l2 : list Config) :
  Forall2 follows l1 l2 -> follows (Configs l1) (Configs l2).
Proof.
  unfold Configs. induction 1 as [|cfg1 cfg2 l1 l2 Hc _ IH]; simpl; [apply follows_refl|].
  apply follows_bind; [|intros _; exact IH].
  intros c. specialize (Hc c). unfold apply.
  destruct (cfg1 c) as [c1 r1], (cfg2 c) as [c2 r2]. cbn [fst snd] in Hc. intros Hne.
  destruct r1; try (destruct Hne; reflexivity; fail);
    (destruct Hc as [-> Hr]; [discriminate|]);
    destruct r2; cbn in Hr; try contradiction; subst; cbn; split;
      auto using error_sim.
Qed.

Lemma follows_denote (e : ConfigExpr) :
  follows (denote rune runes unicode_IsLower ρ1 e) (denote rune runes unicode_IsLower ρ2 e).
Proof.
  revert e. fix IH 1. intros [ps|name ps|invs|name invs|i o|name i o|loc vs|err|configs];
    try apply follows_refl.
  - apply follows_provide.
  - cbn [denote]. unfold ProvideInModule. follows.
  - cbn [denote]. apply follows_Configs.
    induction configs as [|e configs IHc]; constructor; [apply IH | exact IHc].
Qed.

Lemma follows_build (fuel1 fuel2 : nat) loc outputs :
  fuel1 <= fuel2 -> follows (build ρ1 fuel1 loc outputs) (build ρ2 fuel2 loc outputs).
Proof.
  intros Hle. unfold build.
  pose proof (follows_call ρ1 ρ2 fuel1 fuel2 Hle).
  pose proof (follows_resolveInputs ρ1 ρ2 _ _ (follows_call ρ1 ρ2 fuel1 fuel2 Hle)).
  follows.
Qed.

(** The build in two runs, the second with at least the budget of the
    first: when the first does not run out of budget, the second comes to
    the same. *)
Lemma Inject_follows (fuel1 fuel2 : nat) loc (e : ConfigExpr) outputs :
  fuel1 <= fuel2 ->
  Inject ρ1 fuel1 loc (denote rune runes unicode_IsLower ρ1 e) outputs <> NoFuel ->
  same_outcome
    (Inject ρ1 fuel1 loc (denote rune runes unicode_IsLower ρ1 e) outputs)
    (Inject ρ2 fuel2 loc (denote rune runes unicode_IsLower ρ2 e) outputs).
Proof.
  intros Hle. unfold Inject, buildContainer, apply.
  pose proof (follows_denote e newContainer) as Hd.
  destruct (denote rune runes unicode_IsLower ρ1 e newContainer) as [c1 r1],
    (denote rune runes unicode_IsLower ρ2 e newContainer) as [c2 r2].
  cbn [fst snd] in Hd. intros Hne.
  destruct r1; try (destruct Hne; reflexivity; fail);
    (destruct Hd as [-> Hr]; [discriminate|]);
    destruct r2; cbn in Hr; try contradiction; subst; cbn; auto using error_sim.
  apply (follows_build fuel1 fuel2 loc outputs Hle c1). exact Hne.
Qed.

End FollowsInjection.

(** ** The budget suffices *)

Lemma closed_universe (c : container) : closed (universe c) c.
Proof.
  unfold closed, universe. repeat split.
  - intros k r H. apply elem_of_map_to_list in H.
    assert (Hin : forall l, l ∈ resolver_locations (Some r) ->
              l ∈ map_to_list (resolvers c) ≫= (fun kv => resolver_locations kv.2)).
    { intros l Hl. apply list_elem_of_bind. exists (k, Some r). split; assumption. }
    destruct r; simpl; try exact I; apply elem_of_app; left; apply Hin; apply list_elem_of_here.
  - intros k b H. apply elem_of_map_to_list in H.
    assert (Hin : forall l, l ∈ resolver_locations (ib_resolver b) ->
              l ∈ map_to_list (interfaceBindings c) ≫=
                    (fun kb => resolver_locations (ib_resolver kb.2))).
    { intros l Hl. apply list_elem_of_bind. exists (k, b). split; assumption. }
    unfold resolver_known_opt. destruct (ib_resolver b) as [[]|]; simpl; try exact I;
      apply elem_of_app; right; apply elem_of_app; left; apply Hin; apply list_elem_of_here.
  - intros a st p H Hp. apply elem_of_map_to_list in H.
    do 2 (apply elem_of_app; right). apply elem_of_app; left.
    apply list_elem_of_bind. exists (a, st). split; [|exact H].
    apply list_elem_of_fmap. exists p. split; [reflexivity | exact Hp].
  - intros a st e H He. apply elem_of_map_to_list in H.
    do 3 (apply elem_of_app; right). apply elem_of_app; left.
    apply list_elem_of_bind. exists (a, st). split; [|exact H].
    apply (list_elem_of_fmap_2 (fun e => simpleProvider_Location e.1.2)). exact He.
  - intros inv H. do 4 (apply elem_of_app; right).
    apply (list_elem_of_fmap_2 (fun inv => Location_ (inv_fn inv))). exact H.
Qed.

Lemma same_callers_refl (c : container) : same_callers c c.
Proof. split; reflexivity. Qed.

Lemma same_callers_frame (c c' : container) :
  callerStack c' = callerStack c -> callerMap c' = callerMap c -> same_callers c c'.
Proof. intros Hs Hc. split; [exact Hs|]. intros l. unfold callerSet. now rewrite Hc. Qed.

Lemma pending_same_callers (U : list Location) (c c' : container) :
  same_callers c c' -> pending U c' = pending U c.
Proof.
  intros [_ Hc]. unfold pending. f_equal. apply list_filter_iff.
  intros l. now rewrite Hc.
Qed.

Lemma closed_addResolver (U : list Location) (typ : rtype) (res : option resolver)
    (c : container) :
  resolver_known_opt U res -> closed U c -> closed U (addResolver typ res c).1.
Proof.
  intros Hres (H1 & H2 & H3 & H4 & H5). repeat split; try assumption.
  intros k r. cbn. destruct (decide (fullyQualifiedTypeName typ = k)) as [<-|Hne].
  - rewrite lookup_insert_eq. intros [= ->]. exact Hres.
  - rewrite lookup_insert_ne by assumption. apply H1.
Qed.

Lemma closed_groupResolvers_insert (U : list Location) (a : N) (st : groupResolverState)
    (c : container) :
  providers_known U (g_providers st) -> closed U c ->
  closed U (set_groupResolvers <[a := st]> c).
Proof.
  intros Hst (H1 & H2 & H3 & H4 & H5). repeat split; try assumption.
  intros a' st' p. cbn. destruct (decide (a = a')) as [<-|Hne].
  - rewrite lookup_insert_eq. intros [= <-]. apply Hst.
  - rewrite lookup_insert_ne by assumption. apply H3.
Qed.

Lemma closed_onePerModuleResolvers_insert (U : list Location) (a : N)
    (st : onePerModuleResolverState) (c : container) :
  (forall e, e ∈ o_providers st -> simpleProvider_Location e.1.2 ∈ U) -> closed U c ->
  closed U (set_onePerModuleResolvers <[a := st]> c).
Proof.
  intros Hst (H1 & H2 & H3 & H4 & H5). repeat split; try assumption.
  intros a' st' p. cbn. destruct (decide (a = a')) as [<-|Hne].
  - rewrite lookup_insert_eq. intros [= <-]. apply Hst.
  - rewrite lookup_insert_ne by assumption. apply H4.
Qed.

Lemma closed_groupResolver_state (U : list Location) (g : groupResolver) (c : container) :
  closed U c -> providers_known U (g_providers (groupResolver_state g c)).
Proof.
  intros (_ & _ & H3 & _) p. unfold groupResolver_state.
  destruct (groupResolvers c !! g_addr g) as [st|] eqn:E; simpl.
  - apply (H3 _ _ _ E).
  - intros H. inversion H.
Qed.

Lemma closed_onePerModuleResolver_state (U : list Location) (o : onePerModuleResolver)
    (c : container) :
  closed U c ->
  forall e, e ∈ o_providers (onePerModuleResolver_state o c) -> simpleProvider_Location e.1.2 ∈ U.
Proof.
  intros (_ & _ & _ & H4 & _) e. unfold onePerModuleResolver_state.
  destruct (onePerModuleResolvers c !! o_addr o) as [st|] eqn:E; simpl.
  - apply (H4 _ _ _ E).
  - intros H. inversion H.
Qed.

Lemma closed_resolverByTypeName (U : list Location) (typeName : string) (c : container) :
  closed U c -> resolver_known_opt U (resolverByTypeName typeName c).1.
Proof.
  intros (H1 & _). unfold resolverByTypeName.
  destruct (resolvers c !! typeName) as [[r|]|] eqn:E; simpl; try exact I.
  apply (H1 _ _ E).
Qed.

Create HintDb finishes.

Section Finishes.

Variable U : list Location.
Variable n : nat.

Ltac fin_split := split; [|split; [|split]].

Lemma finishes_ret {A} (a : A) (Q : A -> Prop) : Q a -> finishes U n (mret a) Q.
Proof.
  intros HQ c Hc _. fin_split;
    [discriminate | exact Hc | apply same_callers_refl | now intros a' [= <-]].
Qed.

Lemma finishes_fail {A} (e : error) (Q : A -> Prop) : finishes U n (fail e) Q.
Proof.
  intros c Hc _. fin_split; [discriminate | exact Hc | apply same_callers_refl | discriminate].
Qed.

Lemma finishes_panic {A} (msg : string) (Q : A -> Prop) : finishes U n (panic msg) Q.
Proof.
  intros c Hc _. fin_split; [discriminate | exact Hc | apply same_callers_refl | discriminate].
Qed.

Lemma finishes_lift {A} (r : result A) (Q : A -> Prop) :
  r <> NoFuel -> (forall a, r = Ok a -> Q a) -> finishes U n (lift r) Q.
Proof.
  intros Hr HQ c Hc _. fin_split; [exact Hr | exact Hc | apply same_callers_refl | exact HQ].
Qed.

Lemma finishes_gets {A} (f : container -> A) (Q : A -> Prop) :
  (forall c, closed U c -> Q (f c)) -> finishes U n (gets f) Q.
Proof.
  intros HQ c Hc _. fin_split; [discriminate | exact Hc | apply same_callers_refl|].
  intros a [= <-]. now apply HQ.
Qed.

Lemma finishes_modify (f : container -> container) (Q : unit -> Prop) :
  (forall c, closed U c -> closed U (f c)) ->
  (forall c, callerStack (f c) = callerStack c /\ callerMap (f c) = callerMap c) ->
  Q tt ->
  finishes U n (modify f) Q.
Proof.
  intros Hf Hs HQ c Hc _. fin_split; [discriminate | now apply Hf | |now intros []].
  destruct (Hs c). now apply same_callers_frame.
Qed.

Lemma finishes_bind {A B} (m : M A) (k : A -> M B) (Q : A -> Prop) (Q' : B -> Prop) :
  finishes U n m Q -> (forall a, Q a -> finishes U n (k a) Q') -> finishes U n (m ≫= k) Q'.
Proof.
  intros Hm Hk c Hc Hp. unfold mbind, M_bind, bind.
  destruct (Hm c Hc Hp) as (Hn & Hc1 & Hs & HQ).
  destruct (m c) as [c1 [a| | |]]; cbn [fst snd] in *;
    try (fin_split; [discriminate | assumption | assumption | discriminate]).
  - assert (Hp1 : pending U c1 < n) by now rewrite (pending_same_callers U c c1 Hs).
    destruct (Hk a (HQ a eq_refl) c1 Hc1 Hp1) as (Hn2 & Hc2 & Hs2 & HQ2).
    fin_split; try assumption. apply (same_callers_trans _ _ _ Hs Hs2).
  - destruct Hn. reflexivity.
Qed.

Lemma finishes_weaken {A} (m : M A) (Q Q' : A -> Prop) :
  finishes U n m Q -> (forall a, Q a -> Q' a) -> finishes U n m Q'.
Proof.
  intros Hm HQ c Hc Hp. destruct (Hm c Hc Hp) as (Hn & Hc1 & Hs & HQ1).
  fin_split; try assumption. intros a Ha. apply HQ, HQ1, Ha.
Qed.

Lemma finishes_any {A} (m : M A) (Q : A -> Prop) : finishes U n m Q -> finishes U n m any.
Proof. intros H. apply (finishes_weaken m Q any H). intros; exact I. Qed.

End Finishes.

Lemma pending_pushCaller (U : list Location) (loc : Location) (c : container) :
  loc ∈ U -> callerSet c loc = false -> pending U (pushCaller loc c) < pending U c.
Proof.
  intros Hin Hloc. unfold pending.
  assert (E : filter (fun l => callerSet (pushCaller loc c) l = false) U
              = filter (fun l => callerSet (pushCaller loc c) l = false)
                  (filter (fun l => callerSet c l = false) U)).
  { rewrite list_filter_filter. apply list_filter_iff. intros l. split; [|tauto].
    intros H. split; [exact H|]. revert H. unfold callerSet. simpl.
    destruct (decide (loc = l)) as [<-|Hne].
    - now rewrite lookup_insert_eq.
    - now rewrite lookup_insert_ne. }
  rewrite E. apply (length_filter_lt _ _ loc).
  - apply list_elem_of_filter. split; assumption.
  - unfold callerSet. simpl. rewrite lookup_insert_eq. discriminate.
Qed.

Lemma findImplementingTypes_loop_within_budget (iface : rtype)
    (entries : list (string * option resolver)) :
  forall matches, findImplementingTypes_loop iface entries matches <> NoFuel.
Proof.
  induction entries as [|[k [r|]] rest IH]; intros matches; cbn [findImplementingTypes_loop];
    [discriminate | destruct (negb _ && _); apply IH | discriminate].
Qed.

Section FinishesResolution.

Context {assignability : reflect.Assignability}.

Variable U : list Location.
Variable n : nat.
Variable ρ : RangeOrder.

Ltac fin_split := split; [|split; [|split]].

Ltac fin_step :=
  match goal with
  | |- finishes _ _ (mret _) _ => apply finishes_ret; try exact I
  | |- finishes _ _ (fail _) _ => apply finishes_fail
  | |- finishes _ _ (panic _) _ => apply finishes_panic
  | |- finishes _ _ (_ ≫= _) _ =>
      first [ eapply finishes_bind; [solve [eauto with finishes] | intros ? ?]
            | apply (finishes_bind _ _ _ _ any); [|intros ? ?] ]
  | |- finishes _ _ (match ?x with _ => _ end) _ => destruct x
  | |- finishes _ _ (if ?b then _ else _) _ => destruct b
  | |- finishes _ _ _ _ => solve [eauto with finishes]
  end.

Ltac fin := repeat fin_step.

(** The goal at a container [c], for an operation applied to [c]. *)
Ltac fin_at c Hc Hp :=
  match goal with
  | |- (?m c).2 <> NoFuel /\ _ =>
      let K := fresh "K" in
      assert (K : finishes U n m any) by fin; exact (K c Hc Hp)
  end.

Lemma finishes_unchanged {A} (c : container) (r : result A) (Q : A -> Prop) :
  closed U c -> r <> NoFuel -> (forall a, r = Ok a -> Q a) ->
  (c, r).2 <> NoFuel /\ closed U (c, r).1 /\ same_callers c (c, r).1
  /\ forall a, (c, r).2 = Ok a -> Q a.
Proof. intros Hc Hr HQ. fin_split; [exact Hr | exact Hc | apply same_callers_refl | exact HQ]. Qed.

Lemma finishes_addResolver typ res :
  resolver_known_opt U res -> finishes U n (addResolver typ res) any.
Proof.
  intros Hres. unfold addResolver. apply finishes_modify; [|intros; split; reflexivity|exact I].
  intros c Hc. apply (closed_addResolver U typ res c Hres Hc).
Qed.

Lemma finishes_newGroupResolver typ : finishes U n (newGroupResolver typ) any.
Proof.
  intros c Hc _. fin_split; [discriminate | exact Hc | now apply same_callers_frame | now intros].
Qed.

#[local] Hint Resolve finishes_newGroupResolver : finishes.
#[local] Hint Extern 1 (finishes _ _ (addResolver _ _) _) =>
  apply finishes_addResolver; exact I : finishes.
#[local] Hint Extern 1 (finishes _ _ (modify (set_nextAddr _)) _) =>
  refine (finishes_modify _ _ _ any _ _ I);
  [intros ? ?; assumption | intros; split; reflexivity] : finishes.
#[local] Hint Extern 1 (finishes _ _ (modify (set_simpleProviders _)) _) =>
  refine (finishes_modify _ _ _ any _ _ I);
  [intros ? ?; assumption | intros; split; reflexivity] : finishes.
#[local] Hint Extern 1 (finishes _ _ (modify (set_moduleDepValues _)) _) =>
  refine (finishes_modify _ _ _ any _ _ I);
  [intros ? ?; assumption | intros; split; reflexivity] : finishes.
#[local] Hint Extern 1 (finishes _ _ (modify (set_fnCalls _)) _) =>
  refine (finishes_modify _ _ _ any _ _ I);
  [intros ? ?; assumption | intros; split; reflexivity] : finishes.
#[local] Hint Extern 2 (finishes _ _ (gets _) _) =>
  refine (finishes_gets _ _ _ any _); intros; exact I : finishes.

Lemma finishes_groupResolverFor elemType : finishes U n (groupResolverFor elemType) any.
Proof.
  intros c Hc Hp. unfold groupResolverFor.
  destruct (resolverByType elemType c) as [[[]|] ?];
    first [fin_at c Hc Hp | apply finishes_unchanged; [exact Hc | discriminate | now intros]].
Qed.

Lemma finishes_onePerModuleResolverFor elemType mapType :
  finishes U n (onePerModuleResolverFor elemType mapType) any.
Proof.
  intros c Hc Hp. unfold onePerModuleResolverFor. cbv zeta.
  destruct (resolverByType elemType c) as [[[]|] ?];
    first [fin_at c Hc Hp | apply finishes_unchanged; [exact Hc | discriminate | now intros]].
Qed.

#[local] Hint Resolve finishes_groupResolverFor finishes_onePerModuleResolverFor : finishes.

Lemma finishes_createContainerResolver elemType typ :
  finishes U n (createContainerResolver elemType typ) (resolver_known_opt U).
Proof. unfold createContainerResolver. fin. Qed.

Lemma finishes_getExplicitResolver typ key :
  finishes U n (getExplicitResolver typ key) (resolver_known_opt U).
Proof.
  intros c Hc _. unfold getExplicitResolver.
  assert (Hb : forall k b, interfaceBindings c !! k = Some b ->
            resolver_known_opt U (ib_resolver b)) by apply Hc.
  set (pref := match interfaceBindings c !! bindingKeyFromType typ key with
               | Some p => Some p
               | None => interfaceBindings c !! bindingKeyFromType typ None
               end).
  assert (Hpref : forall p, pref = Some p -> resolver_known_opt U (ib_resolver p)).
  { subst pref. intros p.
    destruct (interfaceBindings c !! bindingKeyFromType typ key) as [p'|] eqn:E.
    - intros [= <-]. apply (Hb _ _ E).
    - intros E'. apply (Hb _ _ E'). }
  destruct pref as [p|]; [|apply finishes_unchanged; [exact Hc | discriminate | now intros a [= <-]]].
  specialize (Hpref p eq_refl).
  destruct (ib_resolver p) as [r|];
    [apply finishes_unchanged; [exact Hc | discriminate | now intros a [= <-]]|].
  pose proof (closed_resolverByTypeName U (implTypeName p) c Hc) as Hres.
  destruct (resolverByTypeName (implTypeName p) c) as [res []];
    apply finishes_unchanged; try exact Hc; try discriminate.
  now intros a [= <-].
Qed.

Lemma finishes_resolveInterfaceType typ :
  finishes U n (resolveInterfaceType ρ typ) (resolver_known_opt U).
Proof.
  unfold resolveInterfaceType. destruct (negb _); [fin|].
  intros c Hc Hp.
  pose proof (findImplementingTypes_loop_within_budget typ
                (range_resolvers ρ (resolvers c)) []) as Hl.
  fold (findImplementingTypes ρ typ c) in Hl.
  destruct (findImplementingTypes ρ typ c) as [[|t [|t' l]]| | |];
    try (apply finishes_unchanged; [exact Hc | discriminate | now intros a [= <-]]);
    try (apply finishes_unchanged; [exact Hc | discriminate | discriminate]);
    try (destruct Hl; reflexivity).
  pose proof (closed_resolverByTypeName U (fullyQualifiedTypeName t) c Hc) as Hres.
  fold (resolverByType t c) in Hres.
  destruct (resolverByType t c) as [res ?]. cbn [fst] in Hres.
  assert (K : finishes U n (addResolver typ res;; mret res) (resolver_known_opt U)).
  { eapply finishes_bind; [apply finishes_addResolver; exact Hres|].
    intros _ _. apply finishes_ret. exact Hres. }
  exact (K c Hc Hp).
Qed.

Lemma finishes_getResolver typ key :
  finishes U n (getResolver ρ typ key) (resolver_known_opt U).
Proof.
  intros c Hc Hp. unfold getResolver.
  destruct (finishes_getExplicitResolver typ key c Hc Hp) as (Hn & Hc1 & Hs & HQ).
  destruct (getExplicitResolver typ key c) as [c1 [[r|]| | |]]; cbn [fst snd] in *;
    try (fin_split; assumption).
  assert (Hp1 : pending U c1 < n) by now rewrite (pending_same_callers U c c1 Hs).
  pose proof (closed_resolverByTypeName U (fullyQualifiedTypeName typ) c1 Hc1) as Hres.
  fold (resolverByType typ c1) in Hres.
  destruct (resolverByType typ c1) as [r []]; cbn [fst] in Hres.
  - fin_split; [discriminate | exact Hc1 | exact Hs | now intros a [= <-]].
  - destruct (decide _).
    + destruct (finishes_resolveInterfaceType typ c1 Hc1 Hp1) as (? & ? & Hs' & ?).
      fin_split; try assumption. apply (same_callers_trans _ _ _ Hs Hs').
    + destruct (finishes_createContainerResolver (getElementType typ) typ c1 Hc1 Hp1)
        as (? & ? & Hs' & ?).
      fin_split; try assumption. apply (same_callers_trans _ _ _ Hs Hs').
Qed.

#[local] Hint Resolve finishes_getResolver finishes_createContainerResolver : finishes.

Variable call_rec : providerDescriptor -> option moduleKey -> M (list Value).
Hypothesis finishes_call_rec :
  forall provider key, Location_ provider ∈ U -> finishes U n (call_rec provider key) any.

Lemma finishes_simpleProvider_resolveValues s :
  simpleProvider_Location s ∈ U -> finishes U n (simpleProvider_resolveValues call_rec s) any.
Proof.
  intros Hs. unfold simpleProvider_resolveValues.
  pose proof (finishes_call_rec (sp_provider s) (sp_moduleKey s) Hs). fin.
Qed.

Lemma finishes_valueAt values idx : finishes U n (valueAt values idx) any.
Proof. unfold valueAt. fin. Qed.

#[local] Hint Resolve finishes_valueAt : finishes.

Lemma finishes_appendValue slice value : finishes U n (lift (appendValue slice value)) any.
Proof. apply finishes_lift; [apply appendValue_within_budget | intros; exact I]. Qed.

Lemma finishes_reflect_MakeSlice typ cap :
  finishes U n (lift (reflect_MakeSlice typ cap)) any.
Proof. apply finishes_lift; [apply reflect_MakeSlice_within_budget | intros; exact I]. Qed.

#[local] Hint Resolve finishes_appendValue finishes_reflect_MakeSlice : finishes.

Lemma finishes_groupResolver_resolveValues_loop g providers :
  providers_known U providers ->
  forall i result,
    finishes U n (groupResolver_resolveValues_loop call_rec g i providers result) any.
Proof.
  induction providers as [|p rest IH]; intros Hk i result; simpl; [fin|].
  assert (Hp : simpleProvider_Location p ∈ U) by (apply Hk, list_elem_of_here).
  assert (Hrest : providers_known U rest)
    by (intros q Hq; apply Hk; now apply list_elem_of_further).
  pose proof (finishes_simpleProvider_resolveValues p Hp).
  pose proof (IH Hrest). fin.
Qed.

Lemma finishes_groupResolver_resolveValues g :
  finishes U n (groupResolver_resolveValues call_rec g) any.
Proof.
  unfold groupResolver_resolveValues.
  apply (finishes_bind _ _ _ _ (fun st => providers_known U (g_providers st))).
  { apply finishes_gets. intros c Hc. now apply closed_groupResolver_state. }
  intros st Hst. eapply finishes_bind; [apply finishes_reflect_MakeSlice|].
  intros result0 _. eapply finishes_bind.
  { apply (finishes_groupResolver_resolveValues_loop g _ Hst). }
  intros result _. unfold groupResolver_update.
  apply finishes_modify; [|intros; split; reflexivity | exact I].
  intros c Hc. apply closed_groupResolvers_insert; [|exact Hc].
  cbn. now apply closed_groupResolver_state.
Qed.

#[local] Hint Resolve finishes_groupResolver_resolveValues : finishes.

Lemma finishes_sliceGroupResolver_resolve g key caller :
  finishes U n (sliceGroupResolver_resolve call_rec g key caller) any.
Proof. unfold sliceGroupResolver_resolve. fin. Qed.

Lemma finishes_moduleDepResolver_resolve node idx key caller :
  Location_ (md_provider node) ∈ U ->
  finishes U n (moduleDepResolver_resolve call_rec node idx key caller) any.
Proof.
  intros Hn. unfold moduleDepResolver_resolve. destruct key as [k|]; [|fin].
  pose proof (finishes_call_rec (md_provider node) (Some k) Hn). fin.
Qed.

Lemma finishes_mapOfOnePerModuleResolver_loop providers :
  (forall e, e ∈ providers -> simpleProvider_Location e.1.2 ∈ U) ->
  forall entries,
    finishes U n (mapOfOnePerModuleResolver_loop call_rec providers entries) any.
Proof.
  induction providers as [|[[k p] idx] rest IH]; intros Hk entries; simpl; [fin|].
  assert (Hp : simpleProvider_Location p ∈ U) by (apply (Hk (k, p, idx)), list_elem_of_here).
  assert (Hrest : forall e, e ∈ rest -> simpleProvider_Location e.1.2 ∈ U)
    by (intros q Hq; apply Hk; now apply list_elem_of_further).
  pose proof (finishes_simpleProvider_resolveValues p Hp).
  pose proof (IH Hrest). fin.
Qed.

Lemma finishes_mapOfOnePerModuleResolver_resolve o key caller :
  finishes U n (mapOfOnePerModuleResolver_resolve call_rec o key caller) any.
Proof.
  unfold mapOfOnePerModuleResolver_resolve.
  apply (finishes_bind _ _ _ _
           (fun st => forall e, e ∈ o_providers st -> simpleProvider_Location e.1.2 ∈ U)).
  { apply finishes_gets. intros c Hc. now apply closed_onePerModuleResolver_state. }
  intros st Hst. destruct (o_resolved st); [fin|].
  eapply finishes_bind.
  { apply (finishes_mapOfOnePerModuleResolver_loop _ Hst). }
  intros entries _. apply (finishes_bind _ _ _ _ any); [|intros _ _; fin].
  apply finishes_modify; [|intros; split; reflexivity | exact I].
  intros c Hc. apply closed_onePerModuleResolvers_insert; [|exact Hc].
  cbn. now apply closed_onePerModuleResolver_state.
Qed.

Lemma finishes_resolver_resolve r key caller :
  resolver_known U r -> finishes U n (resolver_resolve call_rec r key caller) any.
Proof.
  destruct r as [sp ? ?| | | | |]; simpl; intros Hr.
  - unfold simpleResolver_resolve.
    pose proof (finishes_simpleProvider_resolveValues sp Hr). fin.
  - unfold groupResolver_resolve. fin.
  - apply finishes_sliceGroupResolver_resolve.
  - now apply finishes_moduleDepResolver_resolve.
  - unfold onePerModuleResolver_resolve. fin.
  - apply finishes_mapOfOnePerModuleResolver_resolve.
Qed.

Lemma finishes_resolve input key caller :
  finishes U n (resolve ρ call_rec input key caller) any.
Proof.
  unfold resolve. destruct (decide _); [fin|].
  eapply finishes_bind; [apply finishes_getResolver|].
  intros [r|] Hr; [|fin]. now apply finishes_resolver_resolve.
Qed.

#[local] Hint Resolve finishes_resolve : finishes.

Lemma finishes_resolveInputs inputs key loc :
  finishes U n (resolveInputs ρ call_rec inputs key loc) any.
Proof. induction inputs as [|input rest IH]; simpl; fin. Qed.

Lemma finishes_runFn provider inVals : finishes U n (runFn provider inVals) any.
Proof. unfold runFn. fin. Qed.

#[local] Hint Resolve finishes_resolveInputs finishes_runFn : finishes.

(** With a budget of one more, [call] itself finishes. *)
Lemma finishes_call_body provider key :
  Location_ provider ∈ U -> finishes U (S n) (call_body ρ call_rec provider key) any.
Proof.
  intros Hin c Hc Hp. unfold call_body.
  destruct (checkCyclicDependency (Location_ provider) c) eqn:E.
  { fin_split; [discriminate | exact Hc | apply same_callers_refl | discriminate]. }
  set (loc := Location_ provider) in *.
  assert (Hloc : callerSet c loc = false).
  { unfold checkCyclicDependency in E. unfold callerSet.
    destruct (default false (callerMap c !! loc)); [discriminate E | reflexivity]. }
  set (body := (inVals ← resolveInputs ρ call_rec (Inputs provider) key loc;
                runFn provider inVals)).
  assert (K : finishes U n body any) by (subst body; fin).
  change ((modify (pushCaller loc);; defer (popCaller loc) body) c)
    with (defer (popCaller loc) body (pushCaller loc c)).
  unfold defer.
  assert (Hp0 : pending U (pushCaller loc c) < n).
  { pose proof (pending_pushCaller U loc c Hin Hloc). lia. }
  destruct (K (pushCaller loc c) Hc Hp0) as (Hn & Hc1 & Hs1 & _).
  destruct (body (pushCaller loc c)) as [c1 r]. cbn [fst snd] in *.
  pose proof (same_callers_push_pop loc c c1 E Hs1) as Hs2.
  destruct Hs1 as [Hstack _]. simpl in Hstack.
  rewrite (popCaller_nonempty loc c1 (callerStack c) Hstack) in *. cbn [fst] in Hs2.
  destruct r; try (destruct Hn; reflexivity);
    (fin_split; [discriminate | exact Hc1 | exact Hs2 | now intros]).
Qed.

End FinishesResolution.

(** [call] with a budget above the number of pending locations finishes:
    each nested call adds a location of [U] to the caller set. *)
Lemma finishes_call {assignability : reflect.Assignability} (U : list Location) (ρ : RangeOrder) :
  forall fuel provider key,
    Location_ provider ∈ U -> finishes U fuel (call ρ fuel provider key) any.
Proof.
  induction fuel as [|fuel IH]; intros provider key Hin.
  - intros c _ Hp. lia.
  - simpl. apply finishes_call_body; assumption.
Qed.

(** ** Registration needs no budget *)

Section CheckTypeBudget.

Variable rune : Type.
Variable runes : string -> list rune.
Variable unicode_IsLower : rune -> bool.

Lemma checkNamedType_within_budget (t : rtype) :
  checkNamedType rune runes unicode_IsLower t <> NoFuel.
Proof.
  unfold checkNamedType, isExported. destruct (runes _); [discriminate|].
  destruct (negb _); [destruct (isInternalPackage _)|]; discriminate.
Qed.

Lemma check_within_budget :
  (forall t, isExportedType rune runes unicode_IsLower t <> NoFuel)
  /\ (forall sh, checkCompositeType rune runes unicode_IsLower sh <> NoFuel)
  /\ (forall ts, checkTypes rune runes unicode_IsLower ts <> NoFuel).
Proof.
  apply reflect.rtype_tshape_tlist_ind.
  - intros name pkgPath str ms sh IH.
    set (t := reflect.Ty name pkgPath str ms sh).
    change (isExportedType rune runes unicode_IsLower t)
      with (if isNamedType t then checkNamedType rune runes unicode_IsLower t
            else checkCompositeType rune runes unicode_IsLower sh).
    destruct (isNamedType t); [apply checkNamedType_within_budget | exact IH].
  - discriminate.
  - intros len e IH. exact IH.
  - intros e IH. exact IH.
  - intros e IH. exact IH.
  - intros e IH. exact IH.
  - intros k IHk e IHe. simpl.
    destruct (isExportedType rune runes unicode_IsLower k);
      [exact IHe | discriminate | discriminate | exact IHk].
  - intros ins IHi outs IHo. simpl.
    destruct (checkTypes rune runes unicode_IsLower ins);
      [exact IHo | discriminate | discriminate | exact IHi].
  - discriminate.
  - intros t IHt ts IHts. simpl.
    destruct (isExportedType rune runes unicode_IsLower t);
      [exact IHts | discriminate | discriminate | exact IHt].
Qed.

Lemma isExportedType_within_budget (t : rtype) :
  isExportedType rune runes unicode_IsLower t <> NoFuel.
Proof. apply check_within_budget. Qed.

End CheckTypeBudget.

Create HintDb within_budget.

Lemma within_budget_ret {A} (a : A) : within_budget (mret a).
Proof. intros c. discriminate. Qed.

Lemma within_budget_fail {A} (e : error) : within_budget (@fail A e).
Proof. intros c. discriminate. Qed.

Lemma within_budget_panic {A} (msg : string) : within_budget (@panic A msg).
Proof. intros c. discriminate. Qed.

Lemma within_budget_gets {A} (f : container -> A) : within_budget (gets f).
Proof. intros c. discriminate. Qed.

Lemma within_budget_modify (f : container -> container) : within_budget (modify f).
Proof. intros c. discriminate. Qed.

Lemma within_budget_lift {A} (r : result A) : r <> NoFuel -> within_budget (lift r).
Proof. intros Hr c. exact Hr. Qed.

Lemma within_budget_bind {A B} (m : M A) (k : A -> M B) :
  within_budget m -> (forall a, within_budget (k a)) -> within_budget (m ≫= k).
Proof.
  intros Hm Hk c. specialize (Hm c).
  change ((m ≫= k) c) with (bind m k c). unfold bind.
  destruct (m c) as [c1 [a| | |]];
    [apply Hk | discriminate | discriminate | destruct Hm; reflexivity].
Qed.

Lemma within_budget_forEach {A} (l : list A) (body : A -> M unit) :
  (forall x, within_budget (body x)) -> within_budget (forEach l body).
Proof.
  intros Hb. induction l as [|x l IH]; simpl; [apply (within_budget_ret tt)|].
  apply within_budget_bind; [apply Hb | intros _; exact IH].
Qed.

Lemma within_budget_forEachIndexed {A} (l : list A) (body : Z -> A -> M unit) :
  (forall i x, within_budget (body i x)) -> forall i, within_budget (forEachIndexed i l body).
Proof.
  intros Hb. induction l as [|x l IH]; intros i; simpl; [apply within_budget_ret|].
  apply within_budget_bind; [apply Hb | intros _; apply IH].
Qed.

(** An operation that ends with an error wrapped, as the configurations do
    with the errors of what they register. *)
Lemma within_budget_wrapped {A} (m : M A) (wrap : error -> error) :
  within_budget m ->
  within_budget (fun c =>
    match m c with
    | (c', Err err) => (c', Err (wrap err))
    | other => other
    end).
Proof.
  intros Hm c. specialize (Hm c).
  destruct (m c) as [c1 [a| | |]]; [discriminate | discriminate | discriminate | exact Hm].
Qed.

#[global] Hint Resolve within_budget_gets within_budget_modify isExportedType_within_budget
  : within_budget.

Ltac wb_step :=
  match goal with
  | |- within_budget (mret _) => apply within_budget_ret
  | |- within_budget (fail _) => apply within_budget_fail
  | |- within_budget (panic _) => apply within_budget_panic
  | |- within_budget (lift _) => apply within_budget_lift; auto with within_budget
  | |- within_budget (_ ≫= _) => apply within_budget_bind; [|intros ?]
  | |- within_budget (forEach _ _) => apply within_budget_forEach; intros ?
  | |- within_budget (forEachIndexed _ _ _) => apply within_budget_forEachIndexed; intros ? ?
  | |- within_budget (match ?x with _ => _ end) => destruct x
  | |- within_budget (if ?b then _ else _) => destruct b
  | |- within_budget _ => solve [eauto with within_budget]
  end.

Ltac wb := cbv zeta; repeat wb_step.

(** The goal at a container [c]. *)
Ltac wb_at c :=
  match goal with
  | |- (_, _).2 <> NoFuel => discriminate
  | |- (?m c).2 <> NoFuel =>
      let K := fresh "K" in
      assert (K : within_budget m) by wb; exact (K c)
  end.

Lemma within_budget_addResolver typ res : within_budget (addResolver typ res).
Proof. unfold addResolver. wb. Qed.

Lemma within_budget_addBinding p : within_budget (addBinding p).
Proof. unfold addBinding. wb. Qed.

Lemma within_budget_newGroupResolver typ : within_budget (newGroupResolver typ).
Proof. intros c. discriminate. Qed.

Lemma within_budget_groupResolver_addNode g provider idx :
  within_budget (groupResolver_addNode g provider idx).
Proof. unfold groupResolver_addNode, groupResolver_update. wb. Qed.

Lemma within_budget_createOrGetModuleKey moduleName :
  within_budget (createOrGetModuleKey moduleName).
Proof. intros c. unfold createOrGetModuleKey. destruct (_ !! _); discriminate. Qed.

#[global] Hint Resolve within_budget_addResolver within_budget_addBinding
  within_budget_newGroupResolver within_budget_groupResolver_addNode
  within_budget_createOrGetModuleKey : within_budget.

Lemma within_budget_groupResolverFor elemType : within_budget (groupResolverFor elemType).
Proof.
  intros c. unfold groupResolverFor.
  destruct (resolverByType elemType c) as [[[]|] ?]; wb_at c.
Qed.

Lemma within_budget_onePerModuleResolverFor elemType mapType :
  within_budget (onePerModuleResolverFor elemType mapType).
Proof.
  intros c. unfold onePerModuleResolverFor.
  destruct (resolverByType elemType c) as [[[]|] ?]; cbv zeta; wb_at c.
Qed.

#[global] Hint Resolve within_budget_groupResolverFor within_budget_onePerModuleResolverFor
  : within_budget.

Lemma within_budget_createContainerResolver elemType typ :
  within_budget (createContainerResolver elemType typ).
Proof. unfold createContainerResolver. wb. Qed.

Lemma within_budget_getExplicitResolver typ key : within_budget (getExplicitResolver typ key).
Proof.
  intros c. unfold getExplicitResolver. cbv zeta.
  repeat case_match; discriminate.
Qed.

Lemma within_budget_resolveInterfaceType ρ typ : within_budget (resolveInterfaceType ρ typ).
Proof.
  unfold resolveInterfaceType. destruct (negb _); [wb|]. intros c.
  pose proof (findImplementingTypes_loop_within_budget typ
                (range_resolvers ρ (resolvers c)) []) as Hl.
  fold (findImplementingTypes ρ typ c) in Hl.
  destruct (findImplementingTypes ρ typ c) as [[|t [|t' l]]| | |];
    try discriminate; [|destruct Hl; reflexivity].
  destruct (resolverByType t c) as [res ?]. wb_at c.
Qed.

Lemma within_budget_getResolver ρ typ key : within_budget (getResolver ρ typ key).
Proof.
  intros c. unfold getResolver.
  pose proof (within_budget_getExplicitResolver typ key c) as He.
  destruct (getExplicitResolver typ key c) as [c1 [[r|]| | |]];
    [discriminate | | discriminate | discriminate | exact He].
  destruct (resolverByType typ c1) as [r []]; [discriminate|]. cbv zeta.
  destruct (decide _);
    [apply within_budget_resolveInterfaceType | apply within_budget_createContainerResolver].
Qed.

#[global] Hint Resolve within_budget_getResolver : within_budget.

Section RegistrationBudget.

Variable rune : Type.
Variable runes : string -> list rune.
Variable unicode_IsLower : rune -> bool.
Variable ρ : RangeOrder.

Lemma within_budget_validateProviderInputs provider key :
  within_budget (validateProviderInputs rune runes unicode_IsLower ρ provider key).
Proof. unfold validateProviderInputs, validateInput, addInputTypeToGraph. wb. Qed.

Lemma within_budget_onePerModuleResolver_addNode o provider idx :
  within_budget (onePerModuleResolver_addNode o provider idx).
Proof. unfold onePerModuleResolver_addNode. wb. Qed.

#[local] Hint Resolve within_budget_validateProviderInputs
  within_budget_onePerModuleResolver_addNode : within_budget.

Lemma within_budget_addOutput sp i out :
  within_budget (addOutput rune runes unicode_IsLower sp i out).
Proof. unfold addOutput. wb. Qed.

#[local] Hint Resolve within_budget_addOutput : within_budget.

Lemma within_budget_addSimpleNode provider key :
  within_budget (addSimpleNode rune runes unicode_IsLower provider key).
Proof. unfold addSimpleNode. wb. Qed.

Lemma within_budget_addModuleScopedNode provider :
  within_budget (addModuleScopedNode rune runes unicode_IsLower provider).
Proof. unfold addModuleScopedNode. wb. Qed.

#[local] Hint Resolve within_budget_addSimpleNode within_budget_addModuleScopedNode
  : within_budget.

Lemma within_budget_addNode provider key :
  within_budget (addNode rune runes unicode_IsLower ρ provider key).
Proof. unfold addNode. wb. Qed.

Lemma within_budget_addInvoker provider key : within_budget (addInvoker provider key).
Proof. unfold addInvoker. wb. Qed.

Lemma within_budget_supply value loc :
  within_budget (supply rune runes unicode_IsLower value loc).
Proof. unfold supply. wb. Qed.

Lemma within_budget_provide key providers :
  within_budget (provide rune runes unicode_IsLower ρ key providers).
Proof.
  unfold provide. apply within_budget_forEach. intros provider.
  destruct provider as [desc|err]; simpl; [|apply within_budget_fail].
  intros c. pose proof (within_budget_addNode desc key c) as H.
  destruct (addNode rune runes unicode_IsLower ρ desc key c) as [c1 [a| | |]];
    [discriminate | discriminate | discriminate | destruct H; reflexivity].
Qed.

Lemma within_budget_invoke key invokers : within_budget (invoke key invokers).
Proof.
  unfold invoke. apply within_budget_forEach. intros invoker.
  destruct invoker as [desc|err]; simpl; [|apply within_budget_fail].
  apply (within_budget_wrapped _ errors_WithStack), within_budget_addInvoker.
Qed.

#[local] Hint Resolve within_budget_provide within_budget_invoke : within_budget.

Lemma within_budget_Configs (l : list Config) :
  Forall within_budget l -> within_budget (Configs l).
Proof.
  intros Hl. unfold Configs. induction Hl as [|cfg l Hc _ IH]; simpl; [apply within_budget_ret|].
  apply within_budget_bind; [|intros _; exact IH].
  apply (within_budget_wrapped _ errors_WithStack), Hc.
Qed.

Lemma within_budget_denote (e : ConfigExpr) :
  within_budget (denote rune runes unicode_IsLower ρ e).
Proof.
  revert e. fix IH 1. intros [ps|name ps|invs|name invs|i o|name i o|loc vs|err|configs];
    cbn [denote].
  - apply within_budget_provide.
  - unfold ProvideInModule. wb.
  - apply within_budget_invoke.
  - unfold InvokeInModule. wb.
  - unfold BindInterface, bindInterface. wb.
  - unfold BindInterfaceInModule, bindInterface. wb.
  - unfold Supply. apply within_budget_forEach. intros v.
    apply (within_budget_wrapped _ errors_WithStack), within_budget_supply.
  - apply within_budget_fail.
  - apply within_budget_Configs.
    induction configs as [|e configs IHc]; constructor; [apply IH | exact IHc].
Qed.

End RegistrationBudget.

(** ** The build within its budget *)

Lemma finishes_forEach (U : list Location) (n : nat) {A} (l : list A) (body : A -> M unit) :
  (forall x, x ∈ l -> finishes U n (body x) any) -> finishes U n (forEach l body) any.
Proof.
  induction l as [|x l IH]; intros Hb; simpl.
  - apply finishes_ret. exact I.
  - apply (finishes_bind U n _ _ any).
    + apply Hb, list_elem_of_here.
    + intros _ _. apply IH. intros y Hy. apply Hb. now apply list_elem_of_further.
Qed.

(** With a budget above the number of pending locations of [U], the build
    of a container closed in [U] does not run out of it. *)
Lemma finishes_build {assignability : reflect.Assignability} (U : list Location) (ρ : RangeOrder) (fuel : nat) loc outputs :
  finishes U fuel (build ρ fuel loc outputs) any.
Proof.
  unfold build. apply (finishes_bind U fuel _ _ any).
  { apply finishes_lift; [|intros; exact I].
    induction outputs as [|typ outputs IH]; simpl; [discriminate|].
    destruct (reflect.shape typ); try discriminate.
    destruct (foldr _ _ outputs); [discriminate | discriminate | discriminate|].
    destruct IH; reflexivity. }
  intros inputs _. apply (finishes_bind U fuel _ _ any).
  { apply (finishes_resolveInputs U fuel ρ (call ρ fuel) (finishes_call U ρ fuel)). }
  intros vals _.
  apply (finishes_bind U fuel _ _ (fun invs => forall inv, inv ∈ invs -> Location_ (inv_fn inv) ∈ U)).
  { apply finishes_gets. intros c Hc. apply Hc. }
  intros invs Hinvs. apply (finishes_bind U fuel _ _ any); [|intros _ _; now apply finishes_ret].
  apply finishes_forEach. intros inv Hinv. apply (finishes_bind U fuel _ _ any).
  - apply finishes_call, Hinvs, Hinv.
  - intros _ _. now apply finishes_ret.
Qed.

(** A budget above the number of descriptors registered is enough for the
    build: nested calls are at distinct locations, or the cycle is found. *)
Lemma Inject_within_budget {assignability : reflect.Assignability} (rune : Type) (runes : string -> list rune)
    (unicode_IsLower : rune -> bool) (ρ : RangeOrder) (loc : Location) (e : ConfigExpr)
    (outputs : list rtype) :
  exists fuel0, forall fuel,
    fuel0 <= fuel -> Inject ρ fuel loc (denote rune runes unicode_IsLower ρ e) outputs <> NoFuel.
Proof.
  unfold Inject, buildContainer, apply.
  pose proof (within_budget_denote rune runes unicode_IsLower ρ e newContainer) as Hd.
  destruct (denote rune runes unicode_IsLower ρ e newContainer) as [c1 [[]| | |]].
  - exists (S (length (universe c1))). intros fuel Hle.
    apply (finishes_build (universe c1) ρ fuel loc outputs c1 (closed_universe c1)).
    unfold pending.
    pose proof (length_filter (fun l => callerSet c1 l = false) (universe c1)). lia.
  - exists 0. discriminate.
  - exists 0. discriminate.
  - destruct Hd. reflexivity.
Qed.

(** ** Two runs of the build *)

(** C9. For a configuration written with the combinators of config.go and
    requested output types, with pure providers, two builds from the new
    container come to the same, whatever the order in which each ranges
    over its maps: the same output values, or an error in both (the same
    error, but for the order of the matches an ambiguous-binding error
    lists), or the same panic. This holds with one budget for both, and
    with two budgets when neither build runs out of its own; and there is
    a budget from which neither does. *)
Theorem Inject_deterministic {assignability : reflect.Assignability} :
  forall (rune : Type) (runes : string -> list rune) (unicode_IsLower : rune -> bool)
         (ρ1 ρ2 : RangeOrder) (loc : Location) (e : ConfigExpr) (outputs : list rtype),
    (forall fuel,
        same_outcome
          (Inject ρ1 fuel loc (denote rune runes unicode_IsLower ρ1 e) outputs)
          (Inject ρ2 fuel loc (denote rune runes unicode_IsLower ρ2 e) outputs))
    /\ (forall fuel1 fuel2,
          Inject ρ1 fuel1 loc (denote rune runes unicode_IsLower ρ1 e) outputs <> NoFuel ->
          Inject ρ2 fuel2 loc (denote rune runes unicode_IsLower ρ2 e) outputs <> NoFuel ->
          same_outcome
            (Inject ρ1 fuel1 loc (denote rune runes unicode_IsLower ρ1 e) outputs)
            (Inject ρ2 fuel2 loc (denote rune runes unicode_IsLower ρ2 e) outputs))
    /\ (exists fuel0, forall fuel1 fuel2,
          fuel0 <= fuel1 -> fuel0 <= fuel2 ->
          Inject ρ1 fuel1 loc (denote rune runes unicode_IsLower ρ1 e) outputs <> NoFuel
          /\ Inject ρ2 fuel2 loc (denote rune runes unicode_IsLower ρ2 e) outputs <> NoFuel).
Proof.
  intros rune runes unicode_IsLower ρ1 ρ2 loc e outputs. split; [|split].
  - intros fuel.
    pose proof (Inject_follows rune runes unicode_IsLower ρ1 ρ2 fuel fuel loc e outputs
                  (Nat.le_refl fuel)) as H12.
    pose proof (Inject_follows rune runes unicode_IsLower ρ2 ρ1 fuel fuel loc e outputs
                  (Nat.le_refl fuel)) as H21.
    destruct (Inject ρ1 fuel loc _ outputs) as [v1|e1|m1|] eqn:E1;
      try (apply H12; discriminate).
    destruct (Inject ρ2 fuel loc _ outputs) as [v2|e2|m2|] eqn:E2;
      try (apply same_outcome_sym, H21; discriminate).
    exact I.
  - intros fuel1 fuel2 H1 H2. destruct (Nat.le_ge_cases fuel1 fuel2) as [Hle|Hle].
    + apply Inject_follows; assumption.
    + apply same_outcome_sym. apply Inject_follows; assumption.
  - destruct (Inject_within_budget rune runes unicode_IsLower ρ1 loc e outputs) as [n1 H1],
      (Inject_within_budget rune runes unicode_IsLower ρ2 loc e outputs) as [n2 H2].
    exists (Nat.max n1 n2). intros fuel1 fuel2 Hle1 Hle2.
    split; [apply H1 | apply H2]; lia.
Qed.

(** C9 at the pond with one duck: in the order of the map and in the
    reverse order, with budgets 2 and 5, the pond gets the mallard. *)
Lemma Inject_deterministic_witness :
  Inject mapOrder 2 here (denote N ascii_runes ascii_IsLower mapOrder one_duck)
    [PointerTo PondType] = Ok [VPlain PondType "Pond{Mallard{}}"]
  /\ Inject reverseOrder 5 here (denote N ascii_runes ascii_IsLower reverseOrder one_duck)
       [PointerTo PondType] = Ok [VPlain PondType "Pond{Mallard{}}"]
  /\ same_outcome
       (Inject mapOrder 2 here (denote N ascii_runes ascii_IsLower mapOrder one_duck)
          [PointerTo PondType])
       (Inject reverseOrder 5 here (denote N ascii_runes ascii_IsLower reverseOrder one_duck)
          [PointerTo PondType]).
Proof.
  assert (H1 : Inject mapOrder 2 here (denote N ascii_runes ascii_IsLower mapOrder one_duck)
                 [PointerTo PondType] = Ok [VPlain PondType "Pond{Mallard{}}"])
    by (vm_compute; reflexivity).
  assert (H2 : Inject reverseOrder 5 here
                 (denote N ascii_runes ascii_IsLower reverseOrder one_duck)
                 [PointerTo PondType] = Ok [VPlain PondType "Pond{Mallard{}}"])
    by (vm_compute; reflexivity).
  split; [exact H1|]. split; [exact H2|].
  apply (proj1 (proj2 (Inject_deterministic N ascii_runes ascii_IsLower mapOrder reverseOrder
                         here one_duck [PointerTo PondType])) 2 5).
  - rewrite H1. discriminate.
  - rewrite H2. discriminate.
Defined.

(** With two ducks and no binding the build fails in both orders; the two
    errors list the implementations in the two orders. *)
Example Inject_two_ducks :
  Inject mapOrder 2 here (denote N ascii_runes ascii_IsLower mapOrder two_ducks)
    [PointerTo PondType]
  = Err (fmt_Errorf_w ErrProviderRegistration
           (errors_WithStack (errors_WithStack
              (ErrMultipleImplicitInterfaceBindings DuckType [CanvasbackType; MallardType]))))
  /\ Inject reverseOrder 2 here (denote N ascii_runes ascii_IsLower reverseOrder two_ducks)
       [PointerTo PondType]
     = Err (fmt_Errorf_w ErrProviderRegistration
              (errors_WithStack (errors_WithStack
                 (ErrMultipleImplicitInterfaceBindings DuckType [MallardType; CanvasbackType])))).
Proof. split; vm_compute; reflexivity. Qed.

(** * Further properties of the container *)

#[local] Arguments String.append !s1 s2 : simpl nomatch.

(** ** The names the registry is keyed by *)

(** The registry key of a slice type carries the package path of its
    element; the key of a slice of slices carries none, for the element, a
    slice type, has no package path. Two such types of element types that
    print alike (types of the same name in packages of the same last
    segment) therefore share one entry of the registry: what is registered
    for one is found for the other. *)
Theorem fullyQualifiedTypeName_nested_slice :
  (forall t : rtype,
      reflect.PkgPath t <> "" ->
      fullyQualifiedTypeName (reflect.SliceOf t)
      = reflect.PkgPath t +:+ "/[]" +:+ reflect.String_ t)
  /\ (forall t : rtype,
        fullyQualifiedTypeName (reflect.SliceOf (reflect.SliceOf t))
        = "[][]" +:+ reflect.String_ t)
  /\ (forall (t1 t2 : rtype) (r : option resolver) (c : container),
        reflect.String_ t1 = reflect.String_ t2 ->
        resolverByType (reflect.SliceOf (reflect.SliceOf t2))
          (addResolver (reflect.SliceOf (reflect.SliceOf t1)) r c).1 = (r, true)).
Proof.
  split; [|split].
  - intros t Hp. unfold fullyQualifiedTypeName. simpl.
    destruct (String.eqb_spec (reflect.PkgPath t) ""); [contradiction|].
    reflexivity.
  - intros t. reflexivity.
  - intros t1 t2 r c E. unfold resolverByType, resolverByTypeName, addResolver, modify.
    cbn [fst]. unfold fullyQualifiedTypeName. simpl. rewrite E.
    now rewrite lookup_insert_eq.
Qed.

(** Two types [T] of packages "a/foo" and "b/foo". *)
Lemma fullyQualifiedTypeName_nested_slice_witness :
  let t1 := reflect.Ty "T" "a/foo" "foo.T" [] (reflect.SPlain reflect.Struct) in
  let t2 := reflect.Ty "T" "b/foo" "foo.T" [] (reflect.SPlain reflect.Struct) in
  t1 <> t2
  /\ fullyQualifiedTypeName (reflect.SliceOf t1) = "a/foo/[]foo.T"
  /\ fullyQualifiedTypeName (reflect.SliceOf t2) = "b/foo/[]foo.T"
  /\ resolverByType (reflect.SliceOf (reflect.SliceOf t2))
       (addResolver (reflect.SliceOf (reflect.SliceOf t1)) None newContainer).1 = (None, true).
Proof.
  intros t1 t2. split; [discriminate|].
  split; [apply (proj1 fullyQualifiedTypeName_nested_slice t1); discriminate|].
  split; [apply (proj1 fullyQualifiedTypeName_nested_slice t2); discriminate|].
  apply (proj2 (proj2 fullyQualifiedTypeName_nested_slice) t1 t2 None newContainer).
  reflexivity.
Defined.

(** ** The keys of the binding table *)

Lemma bindingKey_split (n1 n2 s1 s2 : string) :
  has_byte ";" n1 = false -> has_byte ";" n2 = false ->
  n1 +:+ ";" +:+ s1 = n2 +:+ ";" +:+ s2 -> n1 = n2 /\ s1 = s2.
Proof.
  revert n2. induction n1 as [|a n1 IH]; intros [|b n2]; simpl; intros H1 H2 E.
  - injection E as ->. split; reflexivity.
  - injection E as <- _. simpl in H2. discriminate H2.
  - injection E as -> _. simpl in H1. discriminate H1.
  - injection E as -> E. apply orb_false_iff in H1 as [_ H1]. apply orb_false_iff in H2 as [_ H2].
    destruct (IH n2 H1 H2 E) as [-> ->]. split; reflexivity.
Qed.

(** For interface names without ";", the BindingKey tells the interface
    name and the scope name apart (nil and a key of the empty name are the
    one global scope); so a binding filed by [addBinding] leaves the
    bindings of every other interface and of every other scope where they
    are. *)
Theorem bindingKeyFromTypeName_inj :
  forall (n1 n2 : string) (k1 k2 : option moduleKey),
    has_byte ";" n1 = false -> has_byte ";" n2 = false ->
    (bindingKeyFromTypeName n1 k1 = bindingKeyFromTypeName n2 k2
     <-> n1 = n2 /\ scopeName k1 = scopeName k2)
    /\ (forall (impl : string) (r : option resolver) (c : container),
          ~ (n1 = n2 /\ scopeName k1 = scopeName k2) ->
          interfaceBindings (addBinding (mkInterfaceBinding n1 impl k1 r) c).1
            !! bindingKeyFromTypeName n2 k2
          = interfaceBindings c !! bindingKeyFromTypeName n2 k2).
Proof.
  intros n1 n2 k1 k2 H1 H2.
  assert (Hkey : forall n k, bindingKeyFromTypeName n k = n +:+ ";" +:+ scopeName k).
  { intros n [k|]; reflexivity. }
  assert (Hiff : bindingKeyFromTypeName n1 k1 = bindingKeyFromTypeName n2 k2
                 <-> n1 = n2 /\ scopeName k1 = scopeName k2).
  { rewrite !Hkey. split.
    - apply bindingKey_split; assumption.
    - intros [-> ->]. reflexivity. }
  split; [exact Hiff|].
  intros impl r c Hne. unfold addBinding, modify. cbn.
  apply lookup_insert_ne. intros E. apply Hne, Hiff, E.
Qed.

(** The binding of [Duck] in the module "pond" and its global binding. *)
Lemma bindingKeyFromTypeName_inj_witness :
  bindingKeyFromTypeName "example.com/app.Duck" (Some (mkModuleKey "pond"))
    <> bindingKeyFromTypeName "example.com/app.Duck" None
  /\ interfaceBindings
       (addBinding (mkInterfaceBinding "example.com/app.Duck" "example.com/app.Mallard"
                      (Some (mkModuleKey "pond")) None) newContainer).1
       !! bindingKeyFromTypeName "example.com/app.Duck" None = None.
Proof.
  pose proof (bindingKeyFromTypeName_inj "example.com/app.Duck" "example.com/app.Duck"
                (Some (mkModuleKey "pond")) None eq_refl eq_refl) as [Hiff Hkeep].
  split.
  - intros E. apply Hiff in E as [_ E]. discriminate E.
  - rewrite Hkeep; [reflexivity|]. intros [_ E]. discriminate E.
Defined.

(** ** The caller set and the active-call stack *)

Lemma keeps_same_callers_call {assignability : reflect.Assignability} (ρ : RangeOrder) (fuel : nat) (provider : providerDescriptor)
    (key : option moduleKey) :
  keeps same_callers (call ρ fuel provider key).
Proof.
  apply (keeps_call same_callers); [| exact same_callers_trans | exact same_callers_push_pop].
  intros c0 c0' Hs Hc. split; [exact Hs|]. intros l. unfold callerSet. now rewrite Hc.
Qed.

Lemma callers_mirror_same_callers (c c' : container) :
  same_callers c c' -> callers_mirror c -> callers_mirror c'.
Proof.
  intros [Hs Hc] [Hn Hm]. split; [now rewrite Hs|].
  intros l. rewrite Hc, Hs. apply Hm.
Qed.

(** In a container whose caller set mirrors its stack, the cyclic check
    fails exactly for the locations on the stack; pushing a location that
    passed the check, popping the location on top, and a whole [call] keep
    the mirror. *)
Theorem callers_mirror_kept {assignability : reflect.Assignability} :
  forall (loc : Location) (c : container),
    callers_mirror c ->
    (checkCyclicDependency loc c = None <-> loc ∉ callerStack c)
    /\ (loc ∉ callerStack c -> callers_mirror (pushCaller loc c))
    /\ (forall s, callerStack c = s ++ [loc] ->
          exists c', popCaller loc c = (c', Ok tt) /\ callerStack c' = s /\ callers_mirror c')
    /\ (forall ρ fuel provider key, callers_mirror (call ρ fuel provider key c).1).
Proof.
  intros loc c [Hn Hm]. split; [|split; [|split]].
  - unfold checkCyclicDependency. fold (callerSet c loc). rewrite <- Hm.
    destruct (callerSet c loc); split; try discriminate; try reflexivity.
    intros H. destruct H. reflexivity.
  - intros Hloc. split; simpl.
    + apply NoDup_app. split; [exact Hn|]. split; [|apply NoDup_singleton].
      intros x Hx Hx'. apply list_elem_of_singleton in Hx' as ->. contradiction.
    + intros l. unfold callerSet. simpl. rewrite elem_of_app, list_elem_of_singleton.
      destruct (decide (loc = l)) as [<-|Hne].
      * rewrite lookup_insert_eq. simpl. split; [intros _; right; reflexivity | reflexivity].
      * rewrite lookup_insert_ne by assumption. fold (callerSet c l). rewrite Hm.
        split; [intros H; left; exact H | intros [H|H]; [exact H | congruence]].
  - intros s Hs. rewrite (popCaller_nonempty loc c s Hs). eexists. split; [reflexivity|].
    assert (Hstack : take (length (callerStack c) - 1) (callerStack c) = s)
      by (rewrite Hs; apply take_removes_last).
    split; [exact Hstack|]. rewrite Hs in Hn. apply NoDup_app in Hn as (Hns & Hdis & _).
    split; simpl; rewrite Hstack; [exact Hns|].
    intros l. unfold callerSet. simpl. destruct (decide (loc = l)) as [<-|Hne].
    + rewrite lookup_delete_eq. simpl. split; [discriminate|].
      intros Hin. destruct (Hdis loc Hin). apply list_elem_of_singleton. reflexivity.
    + rewrite lookup_delete_ne by assumption. fold (callerSet c l). rewrite Hm, Hs.
      rewrite elem_of_app, list_elem_of_singleton.
      split; [intros [H|H]; [exact H | congruence] | intros H; left; exact H].
  - intros ρ fuel provider key.
    apply (callers_mirror_same_callers c); [|split; assumption].
    apply keeps_same_callers_call.
Qed.

(** The new container, where [here] is pushed. *)
Lemma callers_mirror_kept_witness :
  callers_mirror newContainer
  /\ checkCyclicDependency here newContainer = None
  /\ callers_mirror (pushCaller here newContainer).
Proof.
  assert (H : callers_mirror newContainer).
  { split; [apply NoDup_nil_2|]. intros l. unfold callerSet. simpl. rewrite lookup_empty.
    simpl. split; [discriminate | intros Hl; inversion Hl]. }
  split; [exact H|].
  destruct (callers_mirror_kept here newContainer H) as (Hcheck & Hpush & _).
  split; [apply Hcheck | apply Hpush]; simpl; intros Hl; inversion Hl.
Defined.

(** ** Implicit interface binding, once made *)

Lemma addResolvers_lookup (regs : list (rtype * option resolver)) (k : string) :
  Forall (fun reg => fullyQualifiedTypeName reg.1 <> k) regs ->
  forall c, resolvers (addResolvers regs c) !! k = resolvers c !! k.
Proof.
  unfold addResolvers. induction 1 as [|[t r] regs Hne _ IH]; intros c; simpl; [reflexivity|].
  rewrite IH. unfold addResolver, modify. simpl. now apply lookup_insert_ne.
Qed.

(** Once [resolveInterfaceType] has bound an interface type to the one
    implementation registered, the binding stays: whatever is registered
    afterwards under other names, further implementations of the interface
    included, [getResolver] returns the resolver bound first (as long as no
    explicit binding applies) and changes nothing. *)
Theorem implicit_binding_sticky :
  forall (ρ ρ' : RangeOrder) (iface : rtype) (key : option moduleKey) (c c1 : container)
         (r : resolver) (regs : list (rtype * option resolver)),
    reflect.Kind_ iface = reflect.Plain reflect.Interface ->
    resolveInterfaceType ρ iface c = (c1, Ok (Some r)) ->
    Forall (fun reg => fullyQualifiedTypeName reg.1 <> fullyQualifiedTypeName iface) regs ->
    getExplicitResolver iface key (addResolvers regs c1) = (addResolvers regs c1, Ok None) ->
    getResolver ρ' iface key (addResolvers regs c1) = (addResolvers regs c1, Ok (Some r)).
Proof.
  intros ρ ρ' iface key c c1 r regs Hk Hres Hregs Hexp.
  assert (H1 : resolvers c1 !! fullyQualifiedTypeName iface = Some (Some r)).
  { revert Hres. unfold resolveInterfaceType. rewrite Hk.
    rewrite bool_decide_eq_true_2 by reflexivity. cbn [negb].
    destruct (findImplementingTypes ρ iface c) as [[|t [|t' l]]| | |]; try discriminate.
    destruct (resolverByType t c) as [res ?].
    unfold addResolver, modify, mbind, M_bind, bind, mret, M_ret, ret. cbn.
    intros [= <- ->]. cbn. apply lookup_insert_eq. }
  unfold getResolver. rewrite Hexp. unfold resolverByType, resolverByTypeName.
  rewrite (addResolvers_lookup regs _ Hregs), H1. reflexivity.
Qed.

(** The mallard is provided and a [Duck] is asked for, which binds [Duck]
    to the mallard; the canvasback, provided afterwards, does not make
    [Duck] ambiguous. *)
Lemma implicit_binding_sticky_witness :
  let c := (Provide N ascii_runes ascii_IsLower mapOrder [ProviderFunc ProvideMallard]
              newContainer).1 in
  let mallard := simpleResolver (mkSimpleProvider 0 ProvideMallard None) 0 MallardType in
  let canvasback := simpleResolver (mkSimpleProvider 1 ProvideCanvasback None) 0 CanvasbackType in
  let c1 := (resolveInterfaceType mapOrder DuckType c).1 in
  let c2 := addResolvers [(CanvasbackType, Some canvasback)] c1 in
  resolveInterfaceType mapOrder DuckType c = (c1, Ok (Some mallard))
  /\ getResolver reverseOrder DuckType None c2 = (c2, Ok (Some mallard))
  /\ (resolveInterfaceType mapOrder DuckType
        (addResolvers [(CanvasbackType, Some canvasback)] c)).2
     = Err (ErrMultipleImplicitInterfaceBindings DuckType [CanvasbackType; MallardType]).
Proof.
  intros c mallard canvasback c1 c2.
  assert (H1 : resolveInterfaceType mapOrder DuckType c = (c1, Ok (Some mallard)))
    by (vm_compute; reflexivity).
  split; [exact H1|]. split; [|vm_compute; reflexivity].
  apply (implicit_binding_sticky mapOrder reverseOrder DuckType None c c1 mallard
           [(CanvasbackType, Some canvasback)] eq_refl H1).
  - repeat constructor. discriminate.
  - vm_compute. reflexivity.
Defined.

(** ** A contribution to a group that was resolved *)

(** [addNode] appends to the providers and to the indices of the group and
    leaves [resolved] and [values] alone: a provider that joins a group
    after its first resolution is in the list but not in the values, and
    the slice form goes on resolving to the values held, with no provider
    run. *)
Theorem groupResolver_addNode_after_resolve {assignability : reflect.Assignability} :
  forall (call_rec : providerDescriptor -> option moduleKey -> M (list Value))
         (g : groupResolver) (key : option moduleKey) (caller : Location)
         (provider : simpleProvider) (idx : Z) (c : container),
    g_resolved (groupResolver_state g c) = true ->
    let c1 := (groupResolver_addNode g provider idx c).1 in
    g_providers (groupResolver_state g c1) = g_providers (groupResolver_state g c) ++ [provider]
    /\ g_idxsInValues (groupResolver_state g c1)
       = g_idxsInValues (groupResolver_state g c) ++ [idx]
    /\ sliceGroupResolver_resolve call_rec g key caller c1
       = (c1, Ok (g_values (groupResolver_state g c))).
Proof.
  intros call_rec g key caller provider idx c Hres c1. subst c1.
  unfold groupResolver_addNode, groupResolver_update, modify. cbn [fst].
  rewrite !groupResolver_state_insert. cbn.
  split; [reflexivity|]. split; [reflexivity|].
  unfold sliceGroupResolver_resolve, mbind, M_bind, bind, gets.
  rewrite !groupResolver_state_insert. cbn. rewrite Hres. cbn.
  rewrite !groupResolver_state_insert. reflexivity.
Qed.

(** The group of tags is resolved to "a", "b", "c"; then a provider of "d"
    joins it. *)
Lemma groupResolver_addNode_after_resolve_witness :
  let c := (sliceGroupResolver_resolve (call mapOrder 1) tags_group None here tags_container).1 in
  let tag_d := mkSimpleProvider 3
                 (mkDescriptor [] [mkOutput TagType] (fun _ => fn_returns [tag "d"] None)
                    (mkLocation 4 "ProvideD" "example.com/app" "tags.go" 30)) None in
  let c1 := (groupResolver_addNode tags_group tag_d 0 c).1 in
  g_resolved (groupResolver_state tags_group c) = true
  /\ length (g_providers (groupResolver_state tags_group c1)) = 3
  /\ sliceGroupResolver_resolve (call mapOrder 1) tags_group None here c1
     = (c1, Ok (VSlice (reflect.SliceOf TagType) [tag "a"; tag "b"; tag "c"])).
Proof.
  intros c tag_d c1.
  assert (H : g_resolved (groupResolver_state tags_group c) = true) by (vm_compute; reflexivity).
  split; [exact H|].
  destruct (groupResolver_addNode_after_resolve (call mapOrder 1) tags_group None here
              tag_d 0 c H) as (Hp & _ & Hr).
  split; [fold c1 in Hp; rewrite Hp; vm_compute; reflexivity|].
  fold c1 in Hr. rewrite Hr. f_equal.
Defined.

(** ** The inputs of a provider *)

(** [resolveInputs] succeeds exactly when the inputs resolve one after the
    other, in their order, each from the container the one before has
    left; the values come in the order of the inputs, one for each. It
    stops at the first input that does not resolve: the error or panic of
    that input is returned, from the container it has left, and the inputs
    after it are not looked at. *)
Theorem resolveInputs_resolved {assignability : reflect.Assignability} :
  forall (ρ : RangeOrder) (call_rec : providerDescriptor -> option moduleKey -> M (list Value))
         (inputs : list providerInput) (key : option moduleKey) (loc : Location)
         (c c' : container) (vals : list Value),
    (resolveInputs ρ call_rec inputs key loc c = (c', Ok vals)
     <-> resolved_inputs ρ call_rec key loc inputs c vals c')
    /\ (resolveInputs ρ call_rec inputs key loc c = (c', Ok vals) ->
        length vals = length inputs)
    /\ (forall (input : providerInput) (rest : list providerInput) (c2 : container)
               (r : result Value),
          resolved_inputs ρ call_rec key loc inputs c vals c' ->
          resolve ρ call_rec input key loc c' = (c2, r) ->
          is_Ok r = false ->
          resolveInputs ρ call_rec (inputs ++ input :: rest) key loc c
          = (c2, match r with
                 | Ok _ => Ok []
                 | Err e => Err e
                 | Panic msg => Panic msg
                 | NoFuel => NoFuel
                 end)).
Proof.
  intros ρ call_rec inputs key loc c c' vals.
  assert (Hiff : resolveInputs ρ call_rec inputs key loc c = (c', Ok vals)
                 <-> resolved_inputs ρ call_rec key loc inputs c vals c').
  { revert c vals. induction inputs as [|input rest IH]; intros c vals; simpl.
    - split.
      + intros [= <- <-]. constructor.
      + intros H. inversion H; subst. reflexivity.
    - unfold mbind, M_bind, bind. split.
      + destruct (resolve ρ call_rec input key loc c) as [c1 [v| | |]] eqn:E; try discriminate.
        destruct (resolveInputs ρ call_rec rest key loc c1) as [c2 [vs| | |]] eqn:E2;
          try discriminate.
        intros [= <- <-]. econstructor; [exact E|]. apply IH. exact E2.
      + intros H. inversion H as [|? ? ? c1 ? v vs Hv Hrest]; subst.
        rewrite Hv. apply IH in Hrest. rewrite Hrest. reflexivity. }
  assert (Hstop : forall (input : providerInput) (rest : list providerInput) (c2 : container)
                         (r : result Value),
            resolved_inputs ρ call_rec key loc inputs c vals c' ->
            resolve ρ call_rec input key loc c' = (c2, r) ->
            is_Ok r = false ->
            resolveInputs ρ call_rec (inputs ++ input :: rest) key loc c
            = (c2, match r with
                   | Ok _ => Ok []
                   | Err e => Err e
                   | Panic msg => Panic msg
                   | NoFuel => NoFuel
                   end)).
  { intros input rest c2 r H Hr Hno. clear Hiff.
    induction H as [c0|input0 rest0 c0 c1 c3 v vs Hv _ IH]; simpl.
    - unfold mbind, M_bind, bind. rewrite Hr. destruct r; [discriminate Hno | ..]; reflexivity.
    - unfold mbind, M_bind, bind. rewrite Hv.
      rewrite (IH Hr). destruct r; [discriminate Hno | ..]; reflexivity. }
  split; [exact Hiff|]. split; [|exact Hstop].
  intros H. apply Hiff in H. clear Hiff Hstop.
  induction H as [|? ? ? ? ? ? ? _ _ IH]; simpl; [reflexivity | now rewrite IH].
Qed.

(** In the module "pond", a provider's inputs of the module key and of an
    optional [Duck] nobody provides. *)
Lemma resolveInputs_resolved_witness :
  let inputs := [mkInput moduleKeyType false; mkInput DuckType true] in
  resolveInputs mapOrder (call mapOrder 0) inputs (Some (mkModuleKey "pond")) here newContainer
    = (newContainer, Ok [VModuleKey "pond"; VZero DuckType])
  /\ length [VModuleKey "pond"; VZero DuckType] = length inputs.
Proof.
  intros inputs.
  assert (H : resolveInputs mapOrder (call mapOrder 0) inputs (Some (mkModuleKey "pond")) here
                newContainer = (newContainer, Ok [VModuleKey "pond"; VZero DuckType]))
    by (vm_compute; reflexivity).
  split; [exact H|].
  exact (proj1 (proj2 (resolveInputs_resolved mapOrder (call mapOrder 0) inputs
                         (Some (mkModuleKey "pond")) here newContainer newContainer _)) H).
Defined.

(** ** What a call comes to *)

Lemma keeps_same_callers_resolveInputs {assignability : reflect.Assignability} (ρ : RangeOrder) (fuel : nat)
    (inputs : list providerInput) (key : option moduleKey) (loc : Location) :
  keeps same_callers (resolveInputs ρ (call ρ fuel) inputs key loc).
Proof.
  apply keeps_resolveInputs; [| exact same_callers_trans | apply keeps_same_callers_call].
  intros c0 c0' Hs Hc. split; [exact Hs|]. intros l. unfold callerSet. now rewrite Hc.
Qed.

(** A call of a provider whose location is not in the caller set comes to
    what the resolution of its inputs and its function come to: the
    outputs of the function; the error of the function, wrapped with the
    location of the provider, its cause kept; the panic of the function;
    or the error or panic of the resolution of the inputs, as it is, the
    function not being run. *)
Theorem call_outcome {assignability : reflect.Assignability} :
  forall (ρ : RangeOrder) (fuel : nat) (provider : providerDescriptor)
         (key : option moduleKey) (c c1 : container) (r : result (list Value)),
    callerSet c (Location_ provider) = false ->
    resolveInputs ρ (call ρ fuel) (Inputs provider) key (Location_ provider)
      (pushCaller (Location_ provider) c) = (c1, r) ->
    (call ρ (S fuel) provider key c).2
    = match r with
      | Ok inVals =>
          match Fn provider inVals with
          | fn_returns _ (Some err) =>
              Err (errors_Wrapf err
                     ("error calling provider " +:+ Location_String (Location_ provider)))
          | fn_returns out None => Ok out
          | fn_panics v => Panic v
          end
      | Err e => Err e
      | Panic msg => Panic msg
      | NoFuel => NoFuel
      end
    /\ (forall inVals out err,
          r = Ok inVals -> Fn provider inVals = fn_returns out (Some err) ->
          exists e, (call ρ (S fuel) provider key c).2 = Err e /\ Cause e = Cause err)
    /\ (is_Ok r = false -> fnCalls (call ρ (S fuel) provider key c).1 = fnCalls c1).
Proof.
  intros ρ fuel provider key c c1 r Hloc Hres.
  set (loc := Location_ provider) in *.
  assert (Hcheck : checkCyclicDependency loc c = None).
  { unfold checkCyclicDependency. fold (callerSet c loc). now rewrite Hloc. }
  assert (Hstack : callerStack c1 = callerStack c ++ [loc]).
  { pose proof (keeps_same_callers_resolveInputs ρ fuel (Inputs provider) key loc
                  (pushCaller loc c)) as [Hs _].
    rewrite Hres in Hs. exact Hs. }
  assert (Hcall : call ρ (S fuel) provider key c
                  = defer (popCaller loc)
                      (inVals ← resolveInputs ρ (call ρ fuel) (Inputs provider) key loc;
                       runFn provider inVals) (pushCaller loc c)).
  { cbn [call]. unfold call_body. fold loc. rewrite Hcheck. reflexivity. }
  rewrite Hcall. unfold defer, mbind, M_bind, bind. rewrite Hres.
  assert (Hmain :
    (let '(c2, r0) :=
       match r with
       | Ok a => runFn provider a c1
       | Err e => (c1, Err e)
       | Panic msg => (c1, Panic msg)
       | NoFuel => (c1, NoFuel)
       end in
     match popCaller loc c2, r0 with
     | (c3, _), NoFuel => (c3, NoFuel)
     | (c3, Panic msg), _ => (c3, Panic msg)
     | (c3, NoFuel), _ => (c3, NoFuel)
     | (c3, _), _ => (c3, r0)
     end).2
    = match r with
      | Ok inVals =>
          match Fn provider inVals with
          | fn_returns _ (Some err) =>
              Err (errors_Wrapf err ("error calling provider " +:+ Location_String loc))
          | fn_returns out None => Ok out
          | fn_panics v => Panic v
          end
      | Err e => Err e
      | Panic msg => Panic msg
      | NoFuel => NoFuel
      end).
  { destruct r as [inVals|e|msg|].
    - unfold runFn, modify, mbind, M_bind, bind. cbn [fst snd].
      set (c2 := set_fnCalls _ c1).
      assert (Hs2 : callerStack c2 = callerStack c ++ [loc]) by exact Hstack.
      destruct (Fn provider inVals) as [out [err|]|v];
        unfold fail, panic, mret, M_ret, ret; rewrite (popCaller_nonempty loc c2 _ Hs2);
        reflexivity.
    - rewrite (popCaller_nonempty loc c1 _ Hstack). reflexivity.
    - rewrite (popCaller_nonempty loc c1 _ Hstack). reflexivity.
    - rewrite (popCaller_nonempty loc c1 _ Hstack). reflexivity. }
  split; [exact Hmain|]. split.
  - intros inVals out err -> HFn. rewrite Hmain, HFn. eexists. split; reflexivity.
  - intros Hr. destruct r; try discriminate Hr;
      rewrite (popCaller_nonempty loc c1 _ Hstack); reflexivity.
Qed.

(** The pond with the mallard: [ProvidePond] is called and gets its duck;
    without a duck its input does not resolve. *)
Lemma call_outcome_witness :
  let c := (denote N ascii_runes ascii_IsLower mapOrder one_duck newContainer).1 in
  (call mapOrder 2 ProvidePond None c).2 = Ok [VPlain PondType "Pond{Mallard{}}"].
Proof.
  intros c.
  destruct (resolveInputs mapOrder (call mapOrder 1) (Inputs ProvidePond) None
              (Location_ ProvidePond) (pushCaller (Location_ ProvidePond) c)) as [c1 r] eqn:E.
  assert (Hr : r = Ok [VPlain MallardType "Mallard{}"]).
  { apply (f_equal snd) in E. cbn [snd] in E. rewrite <- E. vm_compute. reflexivity. }
  rewrite (proj1 (call_outcome mapOrder 1 ProvidePond None c c1 r eq_refl E)).
  rewrite Hr. reflexivity.
Defined.

(** ** The errors of a configuration *)

Lemma forEach_error {A} (l : list A) (body : A -> M unit) (c c' : container) (err : error) :
  forEach l body c = (c', Err err) ->
  exists x c0 c0', x ∈ l /\ body x c0 = (c0', Err err).
Proof.
  revert c. induction l as [|x l IH]; intros c; simpl; [discriminate|].
  unfold mbind, M_bind, bind. destruct (body x c) as [c1 [[]|e|msg|]] eqn:E; try discriminate.
  - intros H. destruct (IH c1 H) as (y & c0 & c0' & Hy & Hb).
    exists y, c0, c0'. split; [now apply list_elem_of_further | exact Hb].
  - intros [= <- <-]. exists x, c, c1. split; [apply list_elem_of_here | exact E].
Qed.

Lemma wrapped_error {A} (m : M A) (c c' : container) (err : error) :
  (match m c with
   | (c', Err err) => (c', Err (errors_WithStack err))
   | other => other
   end) = (c', Err err) ->
  registration_error err.
Proof.
  destruct (m c) as [c1 [a|e|msg|]]; try discriminate.
  intros [= _ <-]. right. eexists. reflexivity.
Qed.

Section RegistrationErrors.

Variable rune : Type.
Variable runes : string -> list rune.
Variable unicode_IsLower : rune -> bool.
Variable ρ : RangeOrder.

Lemma provide_error key providers c c' err :
  provide rune runes unicode_IsLower ρ key providers c = (c', Err err) ->
  registration_error err.
Proof.
  unfold provide. intros H. apply forEach_error in H as (x & c0 & c0' & _ & H).
  destruct x as [desc|e]; simpl in H.
  - destruct (addNode rune runes unicode_IsLower ρ desc key c0) as [c1 [a|e|msg|]];
      try discriminate.
    injection H as _ <-. right. eexists. reflexivity.
  - injection H as _ <-. right. eexists. reflexivity.
Qed.

Lemma invoke_error key invokers c c' err :
  invoke key invokers c = (c', Err err) -> registration_error err.
Proof.
  unfold invoke. intros H. apply forEach_error in H as (x & c0 & c0' & _ & H).
  destruct x as [desc|e]; simpl in H.
  - apply (wrapped_error _ _ _ _ H).
  - injection H as _ <-. right. eexists. reflexivity.
Qed.

Lemma denote_error (e : ConfigExpr) c c' err :
  denote rune runes unicode_IsLower ρ e c = (c', Err err) -> registration_error err.
Proof.
  destruct e as [ps|name ps|invs|name invs|i o|name i o|loc vs|e0|configs]; cbn [denote].
  - apply provide_error.
  - unfold ProvideInModule. destruct (String.eqb name "").
    + intros [= _ <-]. left. reflexivity.
    + unfold mbind, M_bind, bind.
      pose proof (within_budget_createOrGetModuleKey name c) as Hk.
      destruct (createOrGetModuleKey name c) as [c1 [k| | |]] eqn:E.
      * apply provide_error.
      * revert E. unfold createOrGetModuleKey. destruct (_ !! _); discriminate.
      * discriminate.
      * discriminate.
  - apply invoke_error.
  - unfold InvokeInModule. destruct (String.eqb name "").
    + intros [= _ <-]. left. reflexivity.
    + unfold mbind, M_bind, bind.
      destruct (createOrGetModuleKey name c) as [c1 [k| | |]] eqn:E.
      * apply invoke_error.
      * revert E. unfold createOrGetModuleKey. destruct (_ !! _); discriminate.
      * discriminate.
      * discriminate.
  - discriminate.
  - discriminate.
  - unfold Supply. intros H. apply forEach_error in H as (x & c0 & c0' & _ & H).
    apply (wrapped_error _ _ _ _ H).
  - intros [= _ <-]. right. eexists. reflexivity.
  - unfold Configs. intros H. apply forEach_error in H as (x & c0 & c0' & _ & H).
    apply (wrapped_error _ _ _ _ H).
Qed.

End RegistrationErrors.

(** An error of a configuration built with the combinators of config.go is
    the sentinel of the empty module name or comes under [WithStack]; and
    [Inject] returns it under the registration sentinel. The three tests of
    errors.go, which look at the type of the error value itself, therefore
    say no to every error of the registration, also to those the package
    makes from the three error structs. *)
Theorem registration_errors_wrapped {assignability : reflect.Assignability} :
  forall (rune : Type) (runes : string -> list rune) (unicode_IsLower : rune -> bool)
         (ρ : RangeOrder) (e : ConfigExpr) (c c' : container) (err : error),
    denote rune runes unicode_IsLower ρ e c = (c', Err err) ->
    registration_error err
    /\ IsMultipleImplicitBindingsError err = false
    /\ IsNoTypeForBindingError err = false
    /\ IsDuplicateDefinitionError err = false
    /\ (c = newContainer ->
        forall (fuel : nat) (loc : Location) (outputs : list rtype),
        exists err',
          Inject ρ fuel loc (denote rune runes unicode_IsLower ρ e) outputs = Err err'
          /\ err' = fmt_Errorf_w ErrProviderRegistration err
          /\ IsMultipleImplicitBindingsError err' = false
          /\ IsNoTypeForBindingError err' = false
          /\ IsDuplicateDefinitionError err' = false).
Proof.
  intros rune runes unicode_IsLower ρ e c c' err H.
  pose proof (denote_error rune runes unicode_IsLower ρ e c c' err H) as Hreg.
  split; [exact Hreg|].
  assert (Hno : IsMultipleImplicitBindingsError err = false
                /\ IsNoTypeForBindingError err = false
                /\ IsDuplicateDefinitionError err = false).
  { destruct Hreg as [->|[cause ->]]; repeat split. }
  destruct Hno as (H1 & H2 & H3). repeat (split; [assumption|]).
  intros -> fuel loc outputs. eexists. split; [|repeat split].
  unfold Inject, buildContainer, apply. rewrite H. reflexivity.
Qed.

(** Two ducks and a pond: the registration fails with the ambiguous-binding
    error, which the test for it does not see. *)
Lemma registration_errors_wrapped_witness :
  exists c' matches,
    denote N ascii_runes ascii_IsLower mapOrder two_ducks newContainer
    = (c', Err (errors_WithStack (errors_WithStack
                 (ErrMultipleImplicitInterfaceBindings DuckType matches))))
    /\ IsMultipleImplicitBindingsError
         (errors_WithStack (errors_WithStack
            (ErrMultipleImplicitInterfaceBindings DuckType matches))) = false.
Proof.
  eexists. exists [CanvasbackType; MallardType].
  assert (H : denote N ascii_runes ascii_IsLower mapOrder two_ducks newContainer
              = ((denote N ascii_runes ascii_IsLower mapOrder two_ducks newContainer).1,
                 Err (errors_WithStack (errors_WithStack
                   (ErrMultipleImplicitInterfaceBindings DuckType
                      [CanvasbackType; MallardType])))))
    by (vm_compute; reflexivity).
  split; [exact H|].
  exact (proj1 (proj2 (registration_errors_wrapped N ascii_runes ascii_IsLower mapOrder
                         two_ducks newContainer _ _ H))).
Defined.

(** ** Configurations in sequence *)

(** [Configs] applies its configurations in their order and stops at the
    first that fails: bundling two lists is applying the first bundle and,
    if it succeeds, the second to the container it leaves; the empty bundle
    does nothing. *)
Theorem Configs_app :
  forall (l1 l2 : list Config) (c : container),
    Configs [] c = (c, Ok tt)
    /\ Configs (l1 ++ l2) c
       = match Configs l1 c with
         | (c1, Ok _) => Configs l2 c1
         | (c1, Err err) => (c1, Err err)
         | (c1, Panic msg) => (c1, Panic msg)
         | (c1, NoFuel) => (c1, NoFuel)
         end.
Proof.
  intros l1 l2 c. split; [reflexivity|].
  unfold Configs. revert c. induction l1 as [|cfg l1 IH]; intros c; simpl; [reflexivity|].
  unfold mbind, M_bind, bind. unfold apply at 1 3.
  destruct (cfg c) as [c1 [[]|e|msg|]]; try reflexivity. apply IH.
Qed.

(** ** Internal packages *)

(** A package path is internal exactly when "internal" stands in it as a
    whole segment: at the start or after a "/", and at the end or before a
    "/". A segment that only contains the word, as in "internals", does not
    count. *)
Theorem isInternalPackage_segment :
  forall pkgPath : string,
    isInternalPackage pkgPath = true
    <-> exists pre post,
          pkgPath = pre +:+ "internal" +:+ post
          /\ (pre = "" \/ exists pre', pre = pre' +:+ "/")
          /\ (post = "" \/ exists post', post = "/" +:+ post').
Proof.
  intros pkgPath. unfold isInternalPackage. rewrite slices_Contains_elem_of.
  unfold strings_Split. split.
  - intros H. apply strings_Split_aux_segment in H. exact H.
  - intros (pre & post & -> & Hpre & Hpost).
    assert (Hx : forall acc, acc = "" ->
              "internal" ∈ strings_Split_aux "/" ("internal" +:+ post) acc).
    { intros acc ->. destruct Hpost as [->|[post' ->]].
      - rewrite string_app_nil_r. rewrite strings_Split_aux_last by reflexivity.
        apply list_elem_of_here.
      - change ("/" +:+ post') with (String "/" post').
        rewrite strings_Split_aux_first by reflexivity. apply list_elem_of_here. }
    destruct Hpre as [->|[pre' ->]].
    + apply Hx. reflexivity.
    + rewrite string_app_assoc. change ("/" +:+ "internal" +:+ post)
        with (String "/" ("internal" +:+ post)).
      apply strings_Split_aux_later. apply Hx. reflexivity.
Qed.

(** ** The name of a function, split *)

#[local] Open Scope Z_scope.

Lemma string_length_app (s t : string) :
  String.length (s +:+ t) = (String.length s + String.length t)%nat.
Proof. induction s as [|a s IH]; simpl; [reflexivity | now rewrite IH]. Qed.

Lemma len_app (s t : string) : len (s +:+ t) = len s + len t.
Proof. unfold len. rewrite string_length_app. lia. Qed.

Lemma len_nonneg (s : string) : 0 <= len s.
Proof. unfold len. lia. Qed.

Lemma string_drop_length (n : nat) (s : string) :
  String.length (string_drop n s) = (String.length s - n)%nat.
Proof.
  revert s. induction n as [|n IH]; intros [|a s]; simpl; try reflexivity; try lia. apply IH.
Qed.

Lemma string_take_length (n : nat) (s : string) :
  (n <= String.length s)%nat -> String.length (string_take n s) = n.
Proof.
  revert s. induction n as [|n IH]; intros [|a s]; simpl; try reflexivity; try lia.
  intros H. rewrite IH; lia.
Qed.

Lemma string_drop_app (s t : string) : string_drop (String.length s) (s +:+ t) = t.
Proof. induction s as [|a s IH]; simpl; [destruct t; reflexivity | exact IH]. Qed.

Lemma string_take_app (s t : string) : string_take (String.length s) (s +:+ t) = s.
Proof. induction s as [|a s IH]; simpl; [destruct t; reflexivity | now rewrite IH]. Qed.

Lemma string_drop_app_le (n : nat) (s t : string) :
  (n <= String.length s)%nat -> string_drop n (s +:+ t) = string_drop n s +:+ t.
Proof.
  revert s. induction n as [|n IH]; intros [|a s]; simpl; try reflexivity; try lia.
  intros H. apply IH. lia.
Qed.

Lemma string_take_drop (n : nat) (s : string) : string_take n s +:+ string_drop n s = s.
Proof.
  revert s. induction n as [|n IH]; intros [|a s]; simpl; try reflexivity. now rewrite IH.
Qed.

Lemma string_take_all (s : string) : string_take (String.length s) s = s.
Proof. induction s as [|a s IH]; simpl; [reflexivity | now rewrite IH]. Qed.

Lemma has_byte_app (b : ascii) (s t : string) :
  has_byte b (s +:+ t) = has_byte b s || has_byte b t.
Proof. induction s as [|a s IH]; simpl; [reflexivity | now rewrite IH, orb_assoc]. Qed.

Lemma has_byte_drop (b : ascii) (n : nat) (s : string) :
  has_byte b s = false -> has_byte b (string_drop n s) = false.
Proof.
  revert s. induction n as [|n IH]; intros [|a s]; simpl; try easy.
  intros H. apply orb_false_iff in H as [_ H]. now apply IH.
Qed.

Lemma has_byte_drop_le (b : ascii) (n m : nat) (s : string) :
  (n <= m)%nat -> has_byte b (string_drop n s) = false -> has_byte b (string_drop m s) = false.
Proof.
  intros Hle H. replace m with ((m - n) + n)%nat by lia. clear Hle.
  assert (E : forall k s, string_drop (k + n) s = string_drop k (string_drop n s)).
  { clear. intros k. revert k. induction n as [|n IH]; intros k s.
    - now rewrite Nat.add_0_r.
    - rewrite Nat.add_succ_r. destruct s as [|a s]; simpl; [destruct k; reflexivity | apply IH]. }
  rewrite E. now apply has_byte_drop.
Qed.

Lemma prefix_length (s t : string) :
  String.prefix s t = true -> (String.length s <= String.length t)%nat.
Proof.
  revert t. induction s as [|a s IH]; intros [|b t]; simpl; try lia; try discriminate.
  destruct (ascii_dec a b); [|discriminate]. intros H. apply IH in H. lia.
Qed.

Lemma prefix_byte (b a : ascii) (s : string) :
  String.prefix (String b "") (String a s) = Ascii.eqb a b.
Proof.
  simpl. destruct (ascii_dec b a) as [->|Hne].
  - rewrite Ascii.eqb_refl. destruct s; reflexivity.
  - symmetry. apply Ascii.eqb_neq. congruence.
Qed.

(** *** The two searches *)

Lemma strings_Index_range (s substr : string) :
  strings_Index s substr = -1
  \/ (0 <= strings_Index s substr /\ strings_Index s substr + len substr <= len s).
Proof.
  induction s as [|a s IH]; cbn [strings_Index].
  - destruct (String.prefix substr "") eqn:E; [right|left; reflexivity].
    apply prefix_length in E. unfold len. lia.
  - destruct (String.prefix substr (String a s)) eqn:E.
    + right. apply prefix_length in E. unfold len. lia.
    + destruct (strings_Index s substr <? 0) eqn:El; [left; reflexivity|].
      right. apply Z.ltb_ge in El. destruct IH as [IH|IH]; [lia|].
      unfold len in *. cbn [String.length]. lia.
Qed.

Lemma strings_LastIndex_range (s substr : string) :
  strings_LastIndex s substr = -1
  \/ (0 <= strings_LastIndex s substr /\ strings_LastIndex s substr + len substr <= len s).
Proof.
  induction s as [|a s IH]; cbn [strings_LastIndex].
  - destruct (String.prefix substr "") eqn:E; [right|left; reflexivity].
    apply prefix_length in E. unfold len. lia.
  - destruct (0 <=? strings_LastIndex s substr) eqn:El.
    + right. apply Z.leb_le in El. destruct IH as [IH|IH]; [lia|].
      unfold len in *. cbn [String.length]. lia.
    + destruct (String.prefix substr (String a s)) eqn:E; [right|left; reflexivity].
      apply prefix_length in E. unfold len. lia.
Qed.

(** After the last [b] there is no [b]. *)
Lemma strings_LastIndex_byte_after (b : ascii) (s : string) :
  has_byte b (string_drop (Z.to_nat (strings_LastIndex s (String b "") + 1)) s) = false.
Proof.
  induction s as [|a s IH]; cbn [strings_LastIndex]; [reflexivity|].
  destruct (strings_LastIndex_range s (String b "")) as [E|[E _]].
  - rewrite E in *. cbn [Z.leb]. simpl in IH. rewrite prefix_byte.
    destruct (Ascii.eqb a b) eqn:Ea; simpl.
    + destruct s; exact IH.
    + rewrite Ea. simpl. destruct s; exact IH.
  - destruct (0 <=? strings_LastIndex s (String b "")) eqn:El; [|apply Z.leb_gt in El; lia].
    replace (Z.to_nat (strings_LastIndex s (String b "") + 1 + 1))
      with (S (Z.to_nat (strings_LastIndex s (String b "") + 1))) by lia.
    exact IH.
Qed.

(** The byte at the last [b] is [b]. *)
Lemma strings_LastIndex_byte_at (b : ascii) (s : string) :
  0 <= strings_LastIndex s (String b "") ->
  string_drop (Z.to_nat (strings_LastIndex s (String b ""))) s
  = String b (string_drop (Z.to_nat (strings_LastIndex s (String b "") + 1)) s).
Proof.
  induction s as [|a s IH]; cbn [strings_LastIndex]; [simpl; lia|].
  destruct (0 <=? strings_LastIndex s (String b "")) eqn:El.
  - apply Z.leb_le in El. intros _.
    replace (Z.to_nat (strings_LastIndex s (String b "") + 1 + 1))
      with (S (Z.to_nat (strings_LastIndex s (String b "") + 1))) by lia.
    replace (Z.to_nat (strings_LastIndex s (String b "") + 1))
      with (S (Z.to_nat (strings_LastIndex s (String b "")))) at 1 by lia.
    simpl. apply IH, El.
  - rewrite prefix_byte. destruct (Ascii.eqb_spec a b) as [->|Hne]; [|lia].
    intros _. reflexivity.
Qed.

Lemma strings_LastIndex_byte_none (b : ascii) (s : string) :
  has_byte b s = false -> strings_LastIndex s (String b "") = -1.
Proof.
  induction s as [|a s IH]; cbn [strings_LastIndex]; [reflexivity|].
  simpl has_byte. intros H. apply orb_false_iff in H as [Ha Hs].
  rewrite (IH Hs). cbn [Z.leb]. now rewrite prefix_byte, Ha.
Qed.

Lemma strings_LastIndex_byte_app (b : ascii) (s t : string) :
  has_byte b t = false ->
  strings_LastIndex (s +:+ t) (String b "") = strings_LastIndex s (String b "").
Proof.
  intros Ht. induction s as [|a s IH].
  - simpl. now apply strings_LastIndex_byte_none.
  - change (String a s +:+ t) with (String a (s +:+ t)). cbn [strings_LastIndex].
    rewrite IH, !prefix_byte. reflexivity.
Qed.

Lemma strings_Index_byte_app (b : ascii) (s t : string) :
  has_byte b s = false -> strings_Index (s +:+ String b t) (String b "") = len s.
Proof.
  induction s as [|a s IH]; intros H.
  - change ("" +:+ String b t) with (String b t). cbn [strings_Index].
    now rewrite prefix_byte, Ascii.eqb_refl.
  - simpl in H. apply orb_false_iff in H as [Ha Hs].
    change (String a s +:+ String b t) with (String a (s +:+ String b t)).
    cbn [strings_Index]. rewrite prefix_byte, Ha, (IH Hs).
    pose proof (len_nonneg s). destruct (len s <? 0) eqn:E; [apply Z.ltb_lt in E; lia|].
    unfold len. cbn [String.length]. lia.
Qed.

Lemma slice_from_ok (s : string) (lo : Z) :
  0 <= lo <= len s -> slice_from s lo = Ok (string_drop (Z.to_nat lo) s).
Proof.
  intros [H1 H2]. unfold slice_from, slice.
  destruct (Z.leb_spec 0 lo); [|lia]. destruct (Z.leb_spec lo (len s)); [|lia].
  rewrite Z.leb_refl. cbn [andb]. f_equal.
  replace (Z.to_nat (len s - lo)) with (String.length (string_drop (Z.to_nat lo) s)).
  - apply string_take_all.
  - rewrite string_drop_length. unfold len. lia.
Qed.

Lemma slice_to_ok (s : string) (hi : Z) :
  0 <= hi <= len s -> slice_to s hi = Ok (string_take (Z.to_nat hi) s).
Proof.
  intros [H1 H2]. unfold slice_to, slice. cbn [Z.leb].
  destruct (Z.leb_spec 0 hi); [|lia]. destruct (Z.leb_spec hi (len s)); [|lia].
  cbn [andb]. now rewrite Z.sub_0_r.
Qed.

Lemma formatFullName_not_empty (pkg name : string) :
  String.eqb (formatFullName pkg name) "" = false.
Proof. unfold formatFullName. destruct pkg; reflexivity. Qed.

(** splitFuncName returns for every name, whatever its form: no slice it
    takes is out of bounds; and the function part it gives has no "/". *)
Theorem splitFuncName_total :
  forall (unescape : string -> option string) (function : string),
    exists packageName functionName,
      splitFuncName unescape function = Ok (packageName, functionName)
      /\ has_byte "/" functionName = false.
Proof.
  intros unescape function. unfold splitFuncName.
  destruct (String.eqb function ""); [exists "", ""; split; reflexivity|].
  set (L := strings_LastIndex function "/").
  pose proof (strings_LastIndex_range function "/") as HL. fold L in HL.
  change (len "/") with 1 in HL.
  set (L' := if L <? 0 then 0 else L).
  assert (HL' : 0 <= L' <= len function /\ L <= L').
  { subst L'. pose proof (len_nonneg function). destruct (Z.ltb_spec L 0); lia. }
  destruct HL' as [HL' HLL]. cbv zeta.
  rewrite (slice_from_ok function L' HL'). cbn [and_then].
  set (rest := string_drop (Z.to_nat L') function).
  assert (Hrest : len rest = len function - L').
  { subst rest. unfold len. rewrite string_drop_length. unfold len in HL'. lia. }
  pose proof (strings_Index_range rest ".") as Hd. change (len ".") with 1 in Hd.
  destruct (Z.ltb_spec (strings_Index rest ".") 0) as [Hneg|Hpos].
  { exists function, "". split; reflexivity. }
  destruct Hd as [Hd|[_ Hd]]; [lia|].
  set (idx := L' + strings_Index rest ".").
  assert (Hidx : 0 <= idx /\ idx + 1 <= len function) by (subst idx; lia).
  rewrite (slice_to_ok function idx) by lia. cbn [and_then].
  rewrite (slice_from_ok function (idx + 1)) by lia. cbn [and_then].
  set (packageName := string_take (Z.to_nat idx) function).
  assert (Hname : has_byte "/" (string_drop (Z.to_nat (idx + 1)) function) = false).
  { apply (has_byte_drop_le "/" (Z.to_nat (L + 1))); [lia|].
    apply strings_LastIndex_byte_after. }
  pose proof (strings_Index_range packageName vendorPrefix) as Hv.
  change (len vendorPrefix) with 8 in *.
  destruct (Z.ltb_spec 0 (strings_Index packageName vendorPrefix)) as [Hvp|Hvn].
  - rewrite slice_from_ok by lia. cbn [and_then].
    eexists _, _. split; [reflexivity | exact Hname].
  - cbn [and_then]. eexists _, _. split; [reflexivity | exact Hname].
Qed.

(** The split at the dot after the package: of the name [raw.name], where
    the last segment of [raw] has no "." and [name] has no "/", the
    function part is [name] and the package part is [raw], cut after its
    first "/vendor/" if that is not at the start, and unescaped if it can
    be. *)
Lemma splitFuncName_formatFullName_raw (unescape : string -> option string)
    (raw name : string) :
  has_byte "." (lastSegment raw) = false ->
  has_byte "/" name = false ->
  exists packageName,
    (if 0 <? strings_Index raw vendorPrefix
     then slice_from raw (strings_Index raw vendorPrefix + len vendorPrefix)
     else Ok raw) = Ok packageName
    /\ splitFuncName unescape (formatFullName raw name)
       = Ok (match unescape packageName with
             | Some unescaped => unescaped
             | None => packageName
             end, name).
Proof.
  intros Hseg Hname. unfold splitFuncName. rewrite formatFullName_not_empty.
  unfold formatFullName.
  assert (HL : strings_LastIndex (raw +:+ "." +:+ name) "/" = strings_LastIndex raw "/").
  { apply strings_LastIndex_byte_app. simpl. exact Hname. }
  rewrite HL. set (L := strings_LastIndex raw "/").
  pose proof (strings_LastIndex_range raw "/") as HLr. fold L in HLr.
  change (len "/") with 1 in HLr.
  set (L' := if L <? 0 then 0 else L).
  assert (HL' : 0 <= L' <= len raw /\ L <= L').
  { subst L'. pose proof (len_nonneg raw). destruct (Z.ltb_spec L 0); lia. }
  destruct HL' as [HL' HLL]. cbv zeta.
  pose proof (len_app raw ("." +:+ name)) as Hlen. pose proof (len_nonneg ("." +:+ name)).
  rewrite (slice_from_ok _ L') by lia. cbn [and_then].
  rewrite string_drop_app_le by (unfold len in HL'; lia).
  set (seg := string_drop (Z.to_nat L') raw).
  assert (Hsegdot : has_byte "." seg = false).
  { subst seg L'. destruct (Z.ltb_spec L 0) as [Hneg|Hpos].
    - unfold lastSegment in Hseg. fold L in Hseg.
      replace (Z.to_nat (L + 1)) with (Z.to_nat 0) in Hseg by lia. exact Hseg.
    - unfold L. rewrite strings_LastIndex_byte_at by exact Hpos. simpl. exact Hseg. }
  assert (Hseglen : len seg = len raw - L').
  { subst seg. unfold len. rewrite string_drop_length. unfold len in HL'. lia. }
  change ("." +:+ name) with (String "." name).
  rewrite (strings_Index_byte_app "." seg name Hsegdot).
  pose proof (len_nonneg seg).
  destruct (Z.ltb_spec (len seg) 0); [lia|].
  replace (L' + len seg) with (len raw) by lia.
  assert (Hlen' : len (raw +:+ String "." name) = len raw + 1 + len name).
  { rewrite len_app. unfold len. cbn [String.length]. lia. }
  rewrite slice_to_ok by (pose proof (len_nonneg name); pose proof (len_nonneg raw); lia).
  cbn [and_then].
  rewrite (slice_from_ok _ (len raw + 1))
    by (pose proof (len_nonneg name); pose proof (len_nonneg raw); lia).
  cbn [and_then].
  replace (Z.to_nat (len raw)) with (String.length raw) by (unfold len; lia).
  replace (Z.to_nat (len raw + 1)) with (S (String.length raw)) by (unfold len; lia).
  rewrite string_take_app.
  assert (Hdrop : string_drop (S (String.length raw)) (raw +:+ String "." name) = name).
  { clear. induction raw as [|a raw IH]; simpl; [destruct name; reflexivity | exact IH]. }
  rewrite Hdrop.
  pose proof (strings_Index_range raw vendorPrefix) as Hv.
  change (len vendorPrefix) with 8 in *.
  destruct (Z.ltb_spec 0 (strings_Index raw vendorPrefix)) as [Hvp|Hvn].
  - rewrite slice_from_ok by lia. cbn [and_then]. eexists. split; reflexivity.
  - cbn [and_then]. eexists. split; reflexivity.
Qed.

(** [formatFullName], which gives [Name()], and splitFuncName are inverse
    to each other on the names of functions in packages that are not
    vendored and need no unescaping: of [pkg.name], where the last segment
    of [pkg] has no ".", [name] has no "/", no "/vendor/" stands in [pkg]
    after its start, and unescaping leaves [pkg] as it is or fails, the
    parts are [pkg] and [name]. Of the name of a function in a vendored
    package, [prefix/vendor/pkg.name], the package part is [pkg]. *)
Theorem splitFuncName_formatFullName :
  forall unescape : string -> option string,
  (forall pkg name : string,
      has_byte "." (lastSegment pkg) = false ->
      has_byte "/" name = false ->
      strings_Index pkg vendorPrefix <= 0 ->
      (unescape pkg = None \/ unescape pkg = Some pkg) ->
      splitFuncName unescape (formatFullName pkg name) = Ok (pkg, name))
  /\ (forall front pkg name : string,
        has_byte "." (lastSegment (front +:+ vendorPrefix +:+ pkg)) = false ->
        has_byte "/" name = false ->
        front <> "" ->
        strings_Index (front +:+ vendorPrefix +:+ pkg) vendorPrefix = len front ->
        (unescape pkg = None \/ unescape pkg = Some pkg) ->
        splitFuncName unescape (formatFullName (front +:+ vendorPrefix +:+ pkg) name)
        = Ok (pkg, name)).
Proof.
  intros unescape. split.
  - intros pkg name Hseg Hname Hv Hu.
    destruct (splitFuncName_formatFullName_raw unescape pkg name Hseg Hname) as (p & Hp & ->).
    destruct (Z.ltb_spec 0 (strings_Index pkg vendorPrefix)); [lia|].
    injection Hp as <-. destruct Hu as [->| ->]; reflexivity.
  - intros front pkg name Hseg Hname Hfront Hv Hu.
    destruct (splitFuncName_formatFullName_raw unescape _ name Hseg Hname) as (p & Hp & ->).
    rewrite Hv in Hp.
    assert (Hpos : 0 < len front).
    { unfold len. destruct front; [contradiction | simpl; lia]. }
    destruct (Z.ltb_spec 0 (len front)); [|lia].
    pose proof (len_app front (vendorPrefix +:+ pkg)) as Hlen.
    pose proof (len_app vendorPrefix pkg) as Hlen2. pose proof (len_nonneg pkg).
    pose proof (len_nonneg vendorPrefix).
    assert (E : string_drop (String.length (front +:+ vendorPrefix))
                  (front +:+ vendorPrefix +:+ pkg) = pkg)
      by (rewrite <- string_app_assoc; apply string_drop_app).
    rewrite slice_from_ok, <- len_app in Hp by lia.
    replace (Z.to_nat (len (front +:+ vendorPrefix)))
      with (String.length (front +:+ vendorPrefix)) in Hp by (unfold len; lia).
    rewrite E in Hp. injection Hp as <-.
    destruct Hu as [->| ->]; reflexivity.
Qed.

(** The function [Inject] of the package, a method of a vendored copy of
    the package, and a function of a package whose path is escaped. *)
Lemma splitFuncName_formatFullName_witness :
  splitFuncName QueryUnescape "cosmossdk.io/depinject.Inject"
    = Ok ("cosmossdk.io/depinject", "Inject")
  /\ splitFuncName QueryUnescape "example.com/app/vendor/cosmossdk.io/depinject.(*container).call"
     = Ok ("cosmossdk.io/depinject", "(*container).call")
  /\ splitFuncName QueryUnescape "gopkg.in/yaml%2ev3.Marshal" = Ok ("gopkg.in/yaml.v3", "Marshal").
Proof.
  split; [|split].
  - apply (proj1 (splitFuncName_formatFullName QueryUnescape) "cosmossdk.io/depinject" "Inject");
      [reflexivity | reflexivity | vm_compute; discriminate | right; reflexivity].
  - apply (proj2 (splitFuncName_formatFullName QueryUnescape) "example.com/app"
             "cosmossdk.io/depinject" "(*container).call");
      [reflexivity | reflexivity | discriminate | reflexivity | right; reflexivity].
  - reflexivity.
Defined.

#[local] Close Scope Z_scope.

(** * The debug configuration *)

(** ** Logging *)

Lemma buffers_cons_sink (sink : logSink) (ls : list logger) :
  buffers (logger_to sink :: ls) = buffers ls.
Proof. unfold buffers. rewrite filter_cons_False; [reflexivity | discriminate]. Qed.

Lemma buffers_cons_logBuf (ls : list logger) : buffers (logger_logBuf :: ls) = S (buffers ls).
Proof. unfold buffers. rewrite filter_cons_True; reflexivity. Qed.

Lemma buffers_app (l1 l2 : list logger) : buffers (l1 ++ l2) = buffers l1 + buffers l2.
Proof. unfold buffers. now rewrite filter_app, length_app. Qed.

Lemma sinks_app (l1 l2 : list logger) : sinks (l1 ++ l2) = sinks l1 ++ sinks l2.
Proof. unfold sinks. apply omap_app. Qed.

(** The call of a sink that returns is recorded, and that is all. *)
Lemma call_sink_returns (sink : logSink) (s : string) (c : debugConfig) :
  sink_returns sink ->
  call_sink sink s c = (set_dc_events (fun evs => evs ++ [ev_logged sink s]) c, Ok tt).
Proof.
  destruct sink as [[|id panics]| |]; cbn; intros H;
    [destruct H | rewrite H; reflexivity | reflexivity | reflexivity].
Qed.

(** The loop of [logf] over the loggers [ls]. *)
Lemma call_loggers_spec (line : string) (ls : list logger) :
  forall c : debugConfig,
    (dc_logBuf c = None -> buffers ls = 0) ->
    Forall logger_returns ls ->
    DM_forEach ls (fun l => call_logger l line) c
    = (set_dc_events (fun evs => evs ++ map (fun sink => ev_logged sink line) (sinks ls))
         (set_dc_logBuf (option_map (fun buf => buf ++ replicate (buffers ls) line)) c),
       Ok tt).
Proof.
  induction ls as [|l ls IH]; intros c Hbuf Hls.
  - destruct c as [? ? [buf|] ? ? ? ? ? ? ?]; cbn; unfold set_dc_events, set_dc_logBuf; cbn;
      rewrite ?app_nil_r; reflexivity.
  - apply Forall_cons in Hls as [Hl Hls].
    cbn [DM_forEach]. unfold DM_seq, DM_bind. destruct l as [sink|].
    + cbn [call_logger]. rewrite (call_sink_returns sink line c Hl). rewrite IH.
      * rewrite buffers_cons_sink. destruct c; cbn. unfold set_dc_events, set_dc_logBuf; cbn.
        now rewrite <- app_assoc.
      * intros H. rewrite buffers_cons_sink in Hbuf. apply Hbuf. exact H.
      * exact Hls.
    + cbn [call_logger]. destruct (dc_logBuf c) as [buf|] eqn:E.
      * rewrite IH by (cbn; first [discriminate | exact Hls]). rewrite buffers_cons_logBuf.
        destruct c; cbn in *. subst. unfold set_dc_events, set_dc_logBuf; cbn.
        now rewrite <- app_assoc.
      * specialize (Hbuf eq_refl). rewrite buffers_cons_logBuf in Hbuf. discriminate.
Qed.

Lemma logf_spec (msg : string) (c : debugConfig) :
  buffers (dc_loggers c) = match dc_logBuf c with Some _ => 1 | None => 0 end ->
  Forall logger_returns (dc_loggers c) ->
  logf msg c = (logged (dc_indentStr c +:+ msg) c, Ok tt).
Proof.
  intros Hwf Hls. unfold logf. rewrite call_loggers_spec.
  - unfold logged. rewrite Hwf. destruct c as [? ? [buf|] ? ? ? ? ? ? ?]; reflexivity.
  - intros E. rewrite Hwf, E. reflexivity.
  - exact Hls.
Qed.

Lemma config_wf_logged (line : string) (c : debugConfig) : config_wf c -> config_wf (logged line c).
Proof. destruct c as [? ? [buf|] ? ? ? ? ? ? ?]; exact id. Qed.

Lemma config_wf_events (f : list debugEvent -> list debugEvent) (c : debugConfig) :
  config_wf c -> config_wf (set_dc_events f c).
Proof. exact id. Qed.

(** ** The calls of the container *)

Lemma run_debugCall_spec (a : debugCall) (c : debugConfig) :
  config_wf c ->
  dedents_ok (String.length (dc_indentStr c)) [a] = true ->
  run_debugCall a c = (after_debugCall a c, Ok tt).
Proof.
  intros Hwf Hd. destruct a as [msg| | |g]; cbn [run_debugCall after_debugCall].
  - apply logf_spec; apply Hwf.
  - reflexivity.
  - unfold dedentLogger. destruct c as [? [|x s] ? ? ? ? ? ? ? ?]; [discriminate Hd | reflexivity].
  - reflexivity.
Qed.

Lemma config_wf_after_debugCall (a : debugCall) (c : debugConfig) :
  config_wf c -> config_wf (after_debugCall a c).
Proof. destruct a; [apply config_wf_logged | exact id | exact id | exact id]. Qed.

Lemma string_length_drop_1 (s : string) : String.length (string_drop 1 s) = String.length s - 1.
Proof. destruct s; simpl; lia. Qed.

(** The configuration after the calls of the container, field by field. *)
Lemma containerRun_spec (calls : list debugCall) (outcome : result unit) :
  forall c : debugConfig,
    config_wf c ->
    dedents_ok (String.length (dc_indentStr c)) calls = true ->
    exists c',
      containerRun calls outcome c = (c', outcome)
      /\ config_wf c'
      /\ c' = mkDebugConfig (dc_loggers c) (indent_after (dc_indentStr c) calls)
                (option_map (fun buf => buf ++ transcript (dc_indentStr c) calls) (dc_logBuf c))
                (graph_after (dc_graph c) calls) (dc_visualizers c) (dc_logVisualizer c)
                (dc_onError c) (dc_onSuccess c) (dc_cleanup c)
                (dc_events c
                 ++ flat_map (fun line => map (fun sink => ev_logged sink line)
                                            (sinks (dc_loggers c)))
                      (transcript (dc_indentStr c) calls)).
Proof.
  unfold containerRun, DM_seq, DM_bind.
  induction calls as [|a calls IH]; intros c Hwf Hd.
  - exists c. split; [reflexivity|]. split; [exact Hwf|].
    destruct c as [? ? [buf|] ? ? ? ? ? ? ?]; cbn; rewrite ?app_nil_r; reflexivity.
  - assert (Ha : dedents_ok (String.length (dc_indentStr c)) [a] = true).
    { destruct a; try reflexivity. simpl in *. destruct (String.length (dc_indentStr c));
        [discriminate Hd | reflexivity]. }
    cbn [DM_forEach]. unfold DM_seq, DM_bind. rewrite (run_debugCall_spec a c Hwf Ha).
    pose proof (config_wf_after_debugCall a c Hwf) as Hwf1.
    assert (Hd1 : dedents_ok (String.length (dc_indentStr (after_debugCall a c))) calls = true).
    { destruct a as [msg| | |g]; cbn [after_debugCall]; cbn [dedents_ok] in Hd.
      - destruct c as [? ? [buf|] ? ? ? ? ? ? ?]; exact Hd.
      - destruct c; cbn in *. rewrite string_length_app. cbn.
        now rewrite Nat.add_1_r.
      - destruct c as [? [|x s] ? ? ? ? ? ? ? ?]; cbn in *; [discriminate Hd | exact Hd].
      - destruct c; exact Hd. }
    destruct (IH _ Hwf1 Hd1) as (c' & Hrun & Hwf' & Hc').
    exists c'. split; [exact Hrun|]. split; [exact Hwf'|].
    rewrite Hc'. clear. destruct a as [msg| | |g]; destruct c as [? ? [buf|] ? ? ? ? ? ? ?];
      cbn; rewrite <- ?app_assoc; reflexivity.
Qed.

(** ** Applying an option *)

#[local] Arguments buffers : simpl never.
#[local] Arguments sinks : simpl never.

Lemma DM_forEach_sink_spec (sink : logSink) (lines : list string) (c : debugConfig) :
  sink_returns sink ->
  DM_forEach lines (call_sink sink) c
  = (set_dc_events (fun evs => evs ++ map (ev_logged sink) lines) c, Ok tt).
Proof.
  intros Hs. revert c. induction lines as [|line lines IH]; intros c.
  - destruct c; cbn. unfold set_dc_events; cbn. now rewrite app_nil_r.
  - cbn [DM_forEach]. unfold DM_seq, DM_bind. rewrite (call_sink_returns sink line c Hs).
    rewrite IH. destruct c; cbn. unfold set_dc_events; cbn. now rewrite <- app_assoc.
Qed.

(** [Logger] calls the logger with its greeting and with the lines of the
    buffer, and adds it to the loggers. *)
Lemma applyConfig_Logger (sink : logSink) (c : debugConfig) :
  sink_returns sink ->
  applyConfig (Logger sink) c
  = (set_dc_events
       (fun evs => evs ++ map (ev_logged sink)
                            ("Initializing logger" :: default [] (dc_logBuf c)))
       (set_dc_loggers (fun l => l ++ [logger_to sink]) c), Ok tt).
Proof.
  intros Hs. cbn [applyConfig]. unfold DM_seq, DM_bind.
  rewrite (call_sink_returns sink _ c Hs). unfold DM_modify, sendBufferedLogs.
  destruct c as [? ? [buf|] ? ? ? ? ? ? ?]; cbn.
  - rewrite (DM_forEach_sink_spec sink buf _ Hs). unfold set_dc_events; cbn.
    now rewrite <- app_assoc.
  - reflexivity.
Qed.

Lemma config_wf_initLogBuf (c : debugConfig) :
  config_wf c -> (initLogBuf c).2 = Ok tt /\ config_wf (initLogBuf c).1.
Proof.
  intros (Hb & He & Hs & Hl & Hv & Hc). unfold initLogBuf.
  destruct c as [ls ? [buf|] ? ? ? ? ? ? ?]; cbn in *.
  - split; [reflexivity|]. repeat split; assumption.
  - split; [reflexivity|]. repeat split; try assumption; cbn.
    + rewrite buffers_app, Hb. reflexivity.
    + apply Forall_app. split; [exact Hl|]. apply Forall_cons. split; [exact I | constructor].
Qed.

(** What the fields other than the loggers and the events are after
    [Logger]. *)
Lemma config_wf_add_logger (sink : logSink) (f : list debugEvent -> list debugEvent)
    (c : debugConfig) :
  sink_returns sink -> config_wf c ->
  config_wf (set_dc_events f (set_dc_loggers (fun l => l ++ [logger_to sink]) c)).
Proof.
  intros Hsink (Hb & He & Hs & Hl & Hv & Hc). repeat split; try assumption; cbn.
  - rewrite buffers_app, Hb, buffers_cons_sink. change (buffers []) with 0. lia.
  - apply Forall_app. split; [exact Hl|]. apply Forall_cons. split; [exact Hsink | constructor].
Qed.

(** An applicable option is applied without an error and without a panic,
    and leaves a configuration in order. *)
Lemma applyConfig_applicable :
  forall (opt : DebugOption) (c : debugConfig),
    applicable opt -> config_wf c ->
    (applyConfig opt c).2 = Ok tt /\ config_wf (applyConfig opt c).1.
Proof.
  fix IH 1. intros [|v| |filename|sink|o|o|f|options] c Happ Hwf.
  - inversion Happ.
  - inversion Happ as [v' Hret| | | | | | |]; subst. split; [reflexivity|].
    destruct Hwf as (Hb & He & Hs & Hl & Hv & Hc). repeat split; try assumption. cbn.
    apply Forall_app. split; [exact Hv|]. apply Forall_cons. split; [exact Hret | constructor].
  - split; [reflexivity | exact Hwf].
  - split; [reflexivity|].
    destruct Hwf as (Hb & He & Hs & Hl & Hv & Hc). repeat split; try assumption. cbn.
    apply Forall_app. split; [exact Hv|]. apply Forall_cons. split; [exact I | constructor].
  - inversion Happ as [| | |sink' Hret| | | |]; subst.
    rewrite (applyConfig_Logger sink c Hret). split; [reflexivity|].
    apply config_wf_add_logger; assumption.
  - inversion Happ as [| | | |o' Ho| | |]; subst.
    cbn [applyConfig]. unfold DM_seq, DM_bind, DM_modify.
    destruct (config_wf_initLogBuf c Hwf) as [E (Hb & He & Hs & Hl & Hv & Hc)].
    destruct (initLogBuf c) as [c1 r]. cbn in E. subst r. cbn.
    split; [reflexivity|]. repeat split; assumption.
  - inversion Happ as [| | | | |o' Ho| |]; subst.
    cbn [applyConfig]. unfold DM_seq, DM_bind, DM_modify.
    destruct (config_wf_initLogBuf c Hwf) as [E (Hb & He & Hs & Hl & Hv & Hc)].
    destruct (initLogBuf c) as [c1 r]. cbn in E. subst r. cbn.
    split; [reflexivity|]. repeat split; assumption.
  - inversion Happ as [| | | | | |f' Hret|]; subst. split; [reflexivity|].
    destruct Hwf as (Hb & He & Hs & Hl & Hv & Hc). repeat split; try assumption. cbn.
    apply Forall_app. split; [exact Hc|]. apply Forall_cons. split; [exact Hret | constructor].
  - inversion Happ as [| | | | | | |options' Hall]; subst. cbn [applyConfig].
    revert c Hwf. induction options as [|opt rest IHrest]; intros c Hwf.
    + split; [reflexivity | exact Hwf].
    + inversion Hall as [|? ? Hopt Hrest]; subst.
      unfold DM_seq, DM_bind. destruct (IH opt c Hopt Hwf) as [E Hwf1].
      destruct (applyConfig opt c) as [c1 r]. cbn in E. subst r. cbn [fst] in Hwf1.
      apply (IHrest (applicable_DebugOptions rest Hrest) Hrest c1 Hwf1).
Qed.

Lemma call_sink_no_error (sink : logSink) (s : string) (c : debugConfig) (err : error) :
  (call_sink sink s c).2 <> Err err.
Proof.
  destruct sink as [[|id panics]| |]; cbn; try discriminate.
  destruct (panics _ _); discriminate.
Qed.

Lemma DM_forEach_sink_no_error (sink : logSink) (lines : list string) (err : error) :
  forall c : debugConfig, (DM_forEach lines (call_sink sink) c).2 <> Err err.
Proof.
  induction lines as [|line lines IH]; intros c; [discriminate|].
  cbn [DM_forEach]. unfold DM_seq, DM_bind.
  pose proof (call_sink_no_error sink line c) as Hl.
  destruct (call_sink sink line c) as [c1 [[]|e|msg|]]; cbn; try discriminate.
  - apply IH.
  - intros _. apply (Hl e). reflexivity.
Qed.

(** No option, applicable or not, comes to an error: the constructors of
    debug.go give closures that return nil. *)
Lemma applyConfig_no_error :
  forall (opt : DebugOption) (c : debugConfig) (err : error), (applyConfig opt c).2 <> Err err.
Proof.
  fix IH 1. intros [|v| |filename|sink|o|o|f|options] c err; try discriminate.
  - cbn [applyConfig]. unfold DM_seq, DM_bind.
    pose proof (call_sink_no_error sink "Initializing logger" c) as Hl.
    destruct (call_sink sink "Initializing logger" c) as [c1 [[]|e|msg|]]; cbn;
      try discriminate.
    + unfold sendBufferedLogs. destruct (dc_logBuf _); [|discriminate].
      apply DM_forEach_sink_no_error.
    + intros _. apply (Hl e). reflexivity.
  - cbn [applyConfig]. unfold DM_seq, DM_bind, DM_modify, initLogBuf.
    destruct (dc_logBuf c); discriminate.
  - cbn [applyConfig]. unfold DM_seq, DM_bind, DM_modify, initLogBuf.
    destruct (dc_logBuf c); discriminate.
  - cbn [applyConfig]. revert c. induction options as [|opt rest IHrest]; intros c.
    + discriminate.
    + unfold DM_seq, DM_bind. pose proof (IH opt c) as Hopt.
      destruct (applyConfig opt c) as [c1 [[]|e|msg|]]; cbn; try discriminate.
      * apply IHrest.
      * intros _. apply (Hopt e). reflexivity.
Qed.

(** Every option comes to no error. One without nil options, whose
    functions of the caller return, is applied without a panic, to a
    configuration in order, which it leaves in order: the buffer has its
    one logger, whether [OnError], [OnSuccess] or both have asked for it.
    [Logger] calls its function when it is applied: with a nil function,
    or with one that panics at its greeting, applying the option panics.
    [Visualizer] and [DebugCleanup] only keep their function, nil or not,
    for the end of the run. *)
Theorem applyConfig_never_fails :
  (forall (opt : DebugOption) (c : debugConfig) (err : error),
      (applyConfig opt c).2 <> Err err)
  /\ (forall (opt : DebugOption) (c : debugConfig),
        applicable opt -> config_wf c ->
        (applyConfig opt c).2 = Ok tt /\ config_wf (applyConfig opt c).1)
  /\ (forall c : debugConfig,
        applyConfig (Logger (sink_func func_nil)) c
        = (c, Panic "invalid memory address or nil pointer dereference"))
  /\ (forall (c : debugConfig) (id : N) (panics : nat -> string -> option string) (v : string),
        panics (length (dc_events c)) "Initializing logger" = Some v ->
        (applyConfig (Logger (sink_func (func_of id panics))) c).2 = Panic v)
  /\ (forall (c : debugConfig) (f : callerFunc),
        (applyConfig (Visualizer f) c).2 = Ok tt
        /\ (applyConfig (DebugCleanup (cleanup_func f)) c).2 = Ok tt).
Proof.
  split; [exact applyConfig_no_error|]. split; [exact applyConfig_applicable|].
  split; [reflexivity|]. split.
  - intros c id panics v Hp. cbn [applyConfig]. unfold DM_seq, DM_bind. cbn.
    rewrite Hp. reflexivity.
  - intros c f. split; reflexivity.
Qed.

Lemma applicable_AutoDebug : applicable AutoDebug.
Proof.
  apply applicable_DebugOptions. apply Forall_cons. split; [|apply Forall_cons; split].
  - apply applicable_OnError. right. apply applicable_DebugOptions.
    apply Forall_cons. split; [apply applicable_Logger; exact I|].
    apply Forall_cons. split; [apply applicable_FileVisualizer | apply Forall_nil_2].
  - apply applicable_OnSuccess. right. apply applicable_DebugCleanup. exact I.
  - apply Forall_nil_2.
Qed.

Lemma config_wf_newDebugConfig (g : string) : config_wf (newDebugConfig g).
Proof. repeat split; try (left; reflexivity); constructor. Qed.

(** [AutoDebug] on the new configuration: one buffer, its one logger. *)
Lemma applyConfig_never_fails_witness :
  (applyConfig AutoDebug (newDebugConfig "digraph {}")).2 = Ok tt
  /\ dc_loggers (applyConfig AutoDebug (newDebugConfig "digraph {}")).1 = [logger_logBuf]
  /\ config_wf (applyConfig AutoDebug (newDebugConfig "digraph {}")).1.
Proof.
  destruct (proj1 (proj2 applyConfig_never_fails) AutoDebug (newDebugConfig "digraph {}")
              applicable_AutoDebug (config_wf_newDebugConfig "digraph {}")) as [H1 H2].
  split; [exact H1|]. split; [reflexivity | exact H2].
Defined.

(** ** A logger that joins late *)

(** With a buffer, a logger added by [Logger] after the container has
    logged gets its greeting and then every line of the buffer: those
    logged before and those of the container, in their order, each once,
    with its indentation. Without a buffer it gets the greeting only. This
    is for a logger that returns; one that takes the greeting and panics
    on the first line of the buffer is joined to the loggers, and its
    panic is the panic of the option. *)
Theorem Logger_replays_buffer :
  (forall (calls : list debugCall) (sink : logSink) (c : debugConfig),
      sink_returns sink ->
      config_wf c ->
      dedents_ok (String.length (dc_indentStr c)) calls = true ->
      exists c1 c2,
        containerRun calls (Ok tt) c = (c1, Ok tt)
        /\ applyConfig (Logger sink) c1 = (c2, Ok tt)
        /\ dc_loggers c2 = dc_loggers c ++ [logger_to sink]
        /\ match dc_logBuf c with
           | Some buf =>
               dc_logBuf c2 = Some (buf ++ transcript (dc_indentStr c) calls)
               /\ dc_events c2
                  = dc_events c1
                    ++ map (ev_logged sink)
                         ("Initializing logger" :: buf ++ transcript (dc_indentStr c) calls)
           | None =>
               dc_logBuf c2 = None
               /\ dc_events c2 = dc_events c1 ++ [ev_logged sink "Initializing logger"]
           end)
  /\ (forall (c : debugConfig) (id : N) (panics : nat -> string -> option string)
             (line : string) (rest : list string) (v : string),
        let sink := sink_func (func_of id panics) in
        dc_logBuf c = Some (line :: rest) ->
        panics (length (dc_events c)) "Initializing logger" = None ->
        panics (S (length (dc_events c))) line = Some v ->
        exists c2,
          applyConfig (Logger sink) c = (c2, Panic v)
          /\ dc_loggers c2 = dc_loggers c ++ [logger_to sink]
          /\ dc_events c2
             = dc_events c ++ [ev_logged sink "Initializing logger"; ev_logged sink line]).
Proof.
  split.
  - intros calls sink c Hsink Hwf Hd.
    destruct (containerRun_spec calls (Ok tt) c Hwf Hd) as (c1 & Hrun & Hwf1 & Hc1).
    exists c1. eexists. split; [exact Hrun|]. rewrite (applyConfig_Logger sink c1 Hsink).
    split; [reflexivity|]. rewrite Hc1. cbn. split; [reflexivity|].
    destruct (dc_logBuf c) as [buf|]; cbn; split; reflexivity.
  - intros c id panics line rest v sink Hbuf Hg Hl. subst sink.
    cbn [applyConfig]. unfold DM_seq, DM_bind, call_sink, call_callerFunc.
    rewrite Hg. unfold DM_modify, sendBufferedLogs. cbn. rewrite Hbuf.
    cbn [DM_forEach]. unfold DM_seq, DM_bind, call_sink, call_callerFunc. cbn.
    replace (length (dc_events c ++ [ev_logged (sink_func (func_of id panics))
                                       "Initializing logger"]))
      with (S (length (dc_events c)))
      by (rewrite length_app; cbn; lia).
    rewrite Hl. eexists. split; [reflexivity|]. cbn. split; [reflexivity|].
    rewrite <- app_assoc. reflexivity.
Qed.

(** The buffer is asked for, the container registers a provider, and a
    logger of the caller joins. *)
Lemma Logger_replays_buffer_witness :
  let c := (applyConfig (OnError nilDebugOption) (newDebugConfig "digraph {}")).1 in
  let calls := [do_logf "Registering providers"; do_indentLogger; do_logf "Registering f";
                do_dedentLogger] in
  let sink := sink_func (func_of 1 (fun _ _ => None)) in
  exists c1 c2,
    containerRun calls (Ok tt) c = (c1, Ok tt)
    /\ applyConfig (Logger sink) c1 = (c2, Ok tt)
    /\ dc_events c2
       = [ev_logged sink "Initializing logger";
          ev_logged sink "Registering providers";
          ev_logged sink " Registering f"].
Proof.
  intros c calls sink.
  assert (Hwf : config_wf c).
  { apply (applyConfig_applicable (OnError nilDebugOption));
      [constructor; left; reflexivity | apply config_wf_newDebugConfig]. }
  destruct (proj1 Logger_replays_buffer calls sink c (fun _ _ => eq_refl) Hwf eq_refl)
    as (c1 & c2 & H1 & H2 & _ & _ & H3).
  exists c1, c2. split; [exact H1|]. split; [exact H2|].
  rewrite H3. apply (f_equal fst) in H1. cbn [fst] in H1. rewrite <- H1. reflexivity.
Defined.

(** ** The run of an injection *)

(** The options leave the indentation alone. *)
Lemma call_sink_indentStr (sink : logSink) (line : string) (c : debugConfig) :
  dc_indentStr (call_sink sink line c).1 = dc_indentStr c.
Proof.
  destruct sink as [[|id panics]| |]; cbn; try reflexivity.
  destruct (panics _ _); reflexivity.
Qed.

Lemma DM_forEach_sink_indentStr (sink : logSink) (lines : list string) :
  forall c : debugConfig,
    dc_indentStr (DM_forEach lines (call_sink sink) c).1 = dc_indentStr c.
Proof.
  induction lines as [|line lines IH]; intros c; [reflexivity|].
  cbn [DM_forEach]. unfold DM_seq, DM_bind.
  pose proof (call_sink_indentStr sink line c) as Hl.
  destruct (call_sink sink line c) as [c1 [[]|e|msg|]]; cbn [fst] in *; try exact Hl.
  now rewrite IH.
Qed.

Lemma applyConfig_indentStr :
  forall (opt : DebugOption) (c : debugConfig),
    dc_indentStr (applyConfig opt c).1 = dc_indentStr c.
Proof.
  fix IH 1. intros [|v| |filename|sink|o|o|f|options] c; try reflexivity.
  - cbn [applyConfig]. unfold DM_seq, DM_bind.
    pose proof (call_sink_indentStr sink "Initializing logger" c) as Hl.
    destruct (call_sink sink "Initializing logger" c) as [c1 [[]|e|msg|]]; cbn [fst] in *;
      try exact Hl.
    unfold DM_modify, sendBufferedLogs. cbn.
    destruct (dc_logBuf c1); [|exact Hl].
    rewrite DM_forEach_sink_indentStr. exact Hl.
  - cbn [applyConfig]. unfold DM_seq, DM_bind, DM_modify, initLogBuf.
    destruct (dc_logBuf c); reflexivity.
  - cbn [applyConfig]. unfold DM_seq, DM_bind, DM_modify, initLogBuf.
    destruct (dc_logBuf c); reflexivity.
  - cbn [applyConfig]. revert c. induction options as [|opt rest IHrest]; intros c.
    + reflexivity.
    + unfold DM_seq, DM_bind. pose proof (IH opt c) as Hopt.
      destruct (applyConfig opt c) as [c1 [[]|e|msg|]]; cbn in *; try exact Hopt.
      now rewrite IHrest.
Qed.

Section DebugRunSpec.

Variable os_WriteFile : nat -> string -> string -> option error.
Variable filepath_Abs : nat -> string -> option string.
Variable os_Stat : nat -> string -> bool.
Variable fmt_v : error -> string.
Variable fmt_plus_v : error -> string.

Lemma call_callerFunc_returns (f : callerFunc) (ev : N -> debugEvent) (arg : string)
    (c : debugConfig) :
  returns f -> config_wf c ->
  exists c', call_callerFunc f ev arg c = (c', Ok tt) /\ config_wf c'.
Proof.
  intros Hf Hwf. destruct f as [|id panics]; [destruct Hf|]. cbn. rewrite Hf.
  eexists. split; [reflexivity | exact Hwf].
Qed.

Lemma call_visualizer_ok (v : visualizer) (dotStr : string) (c : debugConfig) :
  visualizer_returns v -> config_wf c ->
  exists c', call_visualizer os_WriteFile filepath_Abs fmt_plus_v v dotStr c = (c', Ok tt)
             /\ config_wf c'.
Proof.
  intros Hv Hwf. destruct v as [f|filename]; cbn [call_visualizer].
  - apply call_callerFunc_returns; assumption.
  - unfold DM_bind, saveGraphToFile.
    destruct (os_WriteFile (length (dc_events c)) filename (dc_graph c)) as [err|].
    + rewrite logf_spec by apply Hwf. eexists. split; [reflexivity|].
      now apply config_wf_logged.
    + cbv zeta. set (c1 := set_dc_events _ c).
      assert (Hwf1 : config_wf c1) by exact Hwf.
      destruct (filepath_Abs (length (dc_events c1)) filename) as [path|].
      * unfold DM_seq, DM_bind. rewrite logf_spec by apply Hwf1. cbn.
        eexists. split; [reflexivity|]. now apply config_wf_logged.
      * eexists. split; [reflexivity | exact Hwf1].
Qed.

Lemma generateGraph_ok (c : debugConfig) :
  config_wf c ->
  exists c', generateGraph os_WriteFile filepath_Abs fmt_plus_v c = (c', Ok tt) /\ config_wf c'.
Proof.
  intros Hwf. unfold generateGraph. cbv zeta. unfold DM_seq, DM_bind.
  assert (Hlog : exists c1,
            (if dc_logVisualizer c then logf ("DOT Graph: " +:+ dc_graph c) else DM_ret tt) c
            = (c1, Ok tt) /\ config_wf c1).
  { destruct (dc_logVisualizer c).
    - rewrite logf_spec by apply Hwf. eexists. split; [reflexivity|].
      now apply config_wf_logged.
    - exists c. split; [reflexivity | exact Hwf]. }
  destruct Hlog as (c1 & -> & Hwf1). clear Hwf.
  assert (Hvs : Forall visualizer_returns (dc_visualizers c1)) by apply Hwf1.
  revert Hvs. generalize (dc_visualizers c1) as vs. intros vs. revert c1 Hwf1.
  induction vs as [|v vs IH]; intros c1 Hwf1 Hvs.
  - exists c1. split; [reflexivity | exact Hwf1].
  - apply Forall_cons in Hvs as [Hv Hvs].
    cbn [DM_forEach]. unfold DM_seq, DM_bind.
    destruct (call_visualizer_ok v (dc_graph c) c1 Hv Hwf1) as (c2 & -> & Hwf2).
    apply IH; assumption.
Qed.

Lemma call_cleanup_ok (f : cleanupFunc) (c : debugConfig) :
  cleanup_returns f -> config_wf c ->
  exists c', call_cleanup os_Stat f c = (c', Ok tt) /\ config_wf c'.
Proof.
  intros Hf Hwf. destruct f as [f|filename]; cbn [call_cleanup].
  - apply call_callerFunc_returns; assumption.
  - unfold deleteIfExists. destruct (os_Stat (length (dc_events c)) filename);
      eexists; (split; [reflexivity | exact Hwf]).
Qed.

Lemma runCleanup_ok (c : debugConfig) :
  config_wf c -> exists c', runCleanup os_Stat c = (c', Ok tt).
Proof.
  intros Hwf. unfold runCleanup.
  assert (Hfs : Forall cleanup_returns (dc_cleanup c)) by apply Hwf.
  revert Hfs. generalize (dc_cleanup c) as fs. intros fs. revert c Hwf.
  induction fs as [|f fs IH]; intros c Hwf Hfs.
  - exists c. reflexivity.
  - apply Forall_cons in Hfs as [Hf Hfs].
    cbn [DM_forEach]. unfold DM_seq, DM_bind.
    destruct (call_cleanup_ok f c Hf Hwf) as (c1 & -> & Hwf1). apply IH; assumption.
Qed.

(** The deferred function of runInjection returns. *)
Lemma deferred_ok (c : debugConfig) :
  config_wf c ->
  exists c',
    DM_seq (generateGraph os_WriteFile filepath_Abs fmt_plus_v) (runCleanup os_Stat) c
    = (c', Ok tt).
Proof.
  intros Hwf. unfold DM_seq, DM_bind.
  destruct (generateGraph_ok c Hwf) as (c1 & -> & Hwf1). apply runCleanup_ok, Hwf1.
Qed.

Lemma handleInjectionError_spec (err : error) (c : debugConfig) :
  config_wf c ->
  exists c', handleInjectionError fmt_v err c = (c', Err err) /\ config_wf c'.
Proof.
  intros Hwf. unfold handleInjectionError, DM_seq, DM_bind.
  rewrite logf_spec by apply Hwf.
  set (c1 := logged _ c).
  assert (Hwf1 : config_wf c1) by now apply config_wf_logged.
  destruct (proj1 (proj2 Hwf1)) as [He|He].
  - rewrite He. exists c1. split; [reflexivity | exact Hwf1].
  - destruct (applyConfig_applicable _ c1 He Hwf1) as [E Hwf2].
    destruct (dc_onError c1) eqn:Eo; [inversion He | ..];
      (destruct (applyConfig _ c1) as [c2 r]; cbn in E; subst r;
       exists c2; split; [reflexivity | exact Hwf2]).
Qed.

Lemma handleInjectionSuccess_spec (c : debugConfig) :
  config_wf c ->
  exists c', handleInjectionSuccess fmt_v c = (c', Ok tt) /\ config_wf c'.
Proof.
  intros Hwf. unfold handleInjectionSuccess.
  destruct (proj1 (proj2 (proj2 Hwf))) as [Hs|Hs].
  - rewrite Hs. exists c. split; [reflexivity | exact Hwf].
  - destruct (applyConfig_applicable _ c Hs Hwf) as [E Hwf2].
    destruct (dc_onSuccess c) eqn:Eo; [inversion Hs | ..];
      (destruct (applyConfig _ c) as [c2 r]; cbn in E; subst r;
       exists c2; split; [reflexivity | exact Hwf2]).
Qed.

Lemma performInjection_spec (debugOpt : DebugOption) (calls : list debugCall)
    (outcome : result unit) (g : string) :
  debugOpt = nilDebugOption \/ applicable debugOpt ->
  dedents_ok 0 calls = true ->
  exists c',
    performInjection debugOpt (containerRun calls outcome) (newDebugConfig g) = (c', outcome)
    /\ config_wf c'.
Proof.
  intros Hopt Hd. unfold performInjection, DM_seq, DM_bind.
  assert (Happ : exists c0,
            (match debugOpt with
             | nilDebugOption => DM_ret tt
             | _ => applyConfig debugOpt
             end) (newDebugConfig g) = (c0, Ok tt)
            /\ config_wf c0 /\ dc_indentStr c0 = "").
  { destruct Hopt as [->|Happ].
    - eexists. split; [reflexivity|]. split; [apply config_wf_newDebugConfig | reflexivity].
    - destruct (applyConfig_applicable debugOpt (newDebugConfig g) Happ
                  (config_wf_newDebugConfig g)) as [E Hwf].
      pose proof (applyConfig_indentStr debugOpt (newDebugConfig g)) as Hind.
      destruct (applyConfig debugOpt (newDebugConfig g)) as [c0 r] eqn:Eapp.
      cbn in E, Hwf, Hind. subst r. exists c0. split; [|split; assumption].
      destruct debugOpt; [inversion Happ | ..]; exact Eapp. }
  destruct Happ as (c0 & -> & Hwf0 & Hind).
  assert (Hd0 : dedents_ok (String.length (dc_indentStr c0)) calls = true)
    by (rewrite Hind; exact Hd).
  destruct (containerRun_spec calls outcome c0 Hwf0 Hd0) as (c' & -> & Hwf' & _).
  exists c'. split; [reflexivity | exact Hwf'].
Qed.

End DebugRunSpec.

(** runInjection returns what the container comes to, nil, its error or
    its panic: the debug option, the options set for the error and for the
    success, the drawing of the graph and the cleanup do not fail and do
    not put another error in its place. (The option has no nil option in
    it, the functions of the caller it holds return, and the container
    does not take the indentation below nothing.) A function of the caller
    that does not return takes the outcome over: with a nil visualizer or
    a nil cleanup function, or one that panics, runInjection panics at its
    end although the container has succeeded. *)
Theorem runInjection_outcome :
  forall (os_WriteFile : nat -> string -> string -> option error)
         (filepath_Abs : nat -> string -> option string) (os_Stat : nat -> string -> bool)
         (fmt_v fmt_plus_v : error -> string) (graphviz_NewGraph : string),
    let run := runInjection os_WriteFile filepath_Abs os_Stat fmt_v fmt_plus_v
                 graphviz_NewGraph in
    (forall (debugOpt : DebugOption) (calls : list debugCall) (outcome : result unit),
        debugOpt = nilDebugOption \/ applicable debugOpt ->
        dedents_ok 0 calls = true ->
        (run debugOpt (containerRun calls outcome)).2 = outcome)
    /\ (run (Visualizer func_nil) (containerRun [] (Ok tt))).2
       = Panic "invalid memory address or nil pointer dereference"
    /\ (run (DebugCleanup (cleanup_func func_nil)) (containerRun [] (Ok tt))).2
       = Panic "invalid memory address or nil pointer dereference"
    /\ (forall (id : N) (panics : nat -> string -> option string) (v : string),
          panics 0 graphviz_NewGraph = Some v ->
          (run (Visualizer (func_of id panics)) (containerRun [] (Ok tt))).2 = Panic v).
Proof.
  intros os_WriteFile filepath_Abs os_Stat fmt_v fmt_plus_v g run. subst run. cbv beta.
  split; [|split; [reflexivity|split; [reflexivity|]]].
  - intros debugOpt calls outcome Hopt Hd. unfold runInjection, DM_defer.
    destruct (performInjection_spec debugOpt calls outcome g Hopt Hd) as (c1 & -> & Hwf1).
    assert (Hbody : exists c2,
              match outcome with
              | Ok _ => handleInjectionSuccess fmt_v c1
              | Err err => handleInjectionError fmt_v err c1
              | Panic msg => (c1, Panic msg)
              | NoFuel => (c1, NoFuel)
              end = (c2, outcome) /\ config_wf c2).
    { destruct outcome as [[]|err|msg|].
      - apply handleInjectionSuccess_spec, Hwf1.
      - apply handleInjectionError_spec, Hwf1.
      - exists c1. split; [reflexivity | exact Hwf1].
      - exists c1. split; [reflexivity | exact Hwf1]. }
    destruct Hbody as (c2 & -> & Hwf2).
    destruct (deferred_ok os_WriteFile filepath_Abs os_Stat fmt_plus_v c2 Hwf2) as (c3 & ->).
    reflexivity.
  - intros id panics v Hp. cbv. rewrite Hp. reflexivity.
Qed.

(** The default option, [AutoDebug], and a container that registers and
    fails with an error no hook replaces. *)
Lemma runInjection_outcome_witness :
  (runInjection (fun _ _ _ => None) (fun _ f => Some ("/tmp/" +:+ f)) (fun _ _ => true)
     (fun _ => "an error") (fun _ => "an error, in full") "digraph {}" AutoDebug
     (containerRun [do_logf "Registering providers"; do_indentLogger; do_dedentLogger]
        (Err ErrInvalidInvoker))).2
  = Err ErrInvalidInvoker.
Proof.
  apply (proj1 (runInjection_outcome (fun _ _ _ => None) (fun _ f => Some ("/tmp/" +:+ f))
                  (fun _ _ => true) (fun _ => "an error") (fun _ => "an error, in full")
                  "digraph {}"));
    [right; apply applicable_AutoDebug | reflexivity].
Defined.

(** ** The default option *)

Lemma flat_map_nil {A B} (l : list A) : flat_map (fun _ : A => @nil B) l = [].
Proof. induction l as [|x l IH]; [reflexivity | exact IH]. Qed.

Lemma applicable_Debug : applicable Debug.
Proof.
  apply applicable_DebugOptions.
  apply Forall_cons. split; [apply applicable_Logger; exact I|].
  apply Forall_cons. split; [apply applicable_FileVisualizer | apply Forall_nil_2].
Qed.

(** The container under [AutoDebug]: its lines go to the buffer, and to
    nobody else. *)
Lemma containerRun_AutoDebug (g : string) (calls : list debugCall) (outcome : result unit) :
  dedents_ok 0 calls = true ->
  performInjection AutoDebug (containerRun calls outcome) (newDebugConfig g)
  = (mkDebugConfig [logger_logBuf] (indent_after "" calls) (Some (transcript "" calls))
       (graph_after g calls) [] false Debug
       (DebugCleanup (cleanup_deleteIfExists defaultDebugFile)) [] [],
     outcome).
Proof.
  intros Hd.
  set (c0 := mkDebugConfig [logger_logBuf] "" (Some []) g [] false Debug
               (DebugCleanup (cleanup_deleteIfExists defaultDebugFile)) [] []).
  change (performInjection AutoDebug (containerRun calls outcome) (newDebugConfig g))
    with (containerRun calls outcome c0).
  assert (Hwf : config_wf c0).
  { split; [reflexivity|]. split; [right; exact applicable_Debug|].
    split; [right; apply applicable_DebugCleanup; exact I|].
    split; [|split]; repeat constructor. }
  destruct (containerRun_spec calls outcome c0 Hwf Hd) as (c1 & -> & _ & ->).
  subst c0. cbn. change (sinks [logger_logBuf]) with (@nil logSink). cbn.
  now rewrite flat_map_nil.
Qed.

Lemma applyConfig_Debug (c : debugConfig) :
  applyConfig Debug c
  = (set_dc_visualizers (fun l => l ++ [visualizer_file defaultDebugFile])
       (set_dc_events
          (fun evs => evs ++ map (ev_logged sink_Stderr)
                               ("Initializing logger" :: default [] (dc_logBuf c)))
          (set_dc_loggers (fun l => l ++ [logger_to sink_Stderr]) c)), Ok tt).
Proof.
  change (applyConfig Debug c)
    with (DM_seq (applyConfig (Logger sink_Stderr))
            (DM_seq (applyConfig (FileVisualizer defaultDebugFile)) (DM_ret tt)) c).
  unfold DM_seq at 1. unfold DM_bind at 1. rewrite (applyConfig_Logger sink_Stderr c I).
  reflexivity.
Qed.

Section AutoDebugRun.

Variable os_WriteFile : nat -> string -> string -> option error.
Variable filepath_Abs : nat -> string -> option string.
Variable os_Stat : nat -> string -> bool.
Variable fmt_v : error -> string.
Variable fmt_plus_v : error -> string.

(** The graph drawn to one file. *)
Lemma generateGraph_one_file (c : debugConfig) (filename : string) :
  buffers (dc_loggers c) = match dc_logBuf c with Some _ => 1 | None => 0 end ->
  Forall logger_returns (dc_loggers c) ->
  dc_logVisualizer c = false ->
  dc_visualizers c = [visualizer_file filename] ->
  generateGraph os_WriteFile filepath_Abs fmt_plus_v c
  = match os_WriteFile (length (dc_events c)) filename (dc_graph c) with
    | Some e =>
        (logged (dc_indentStr c +:+ "Error saving graphviz file " +:+ filename +:+ ": "
                 +:+ fmt_plus_v e) c, Ok tt)
    | None =>
        let c' := set_dc_events (fun evs => evs ++ [ev_WriteFile filename (dc_graph c)]) c in
        match filepath_Abs (length (dc_events c')) filename with
        | Some path =>
            (logged (dc_indentStr c +:+ "Saved graph of container to " +:+ path) c', Ok tt)
        | None => (c', Ok tt)
        end
    end.
Proof.
  intros Hb Hls Hl Hv. unfold generateGraph. cbv zeta. rewrite Hl. unfold DM_seq, DM_bind.
  cbn [DM_ret]. rewrite Hv. cbn [DM_forEach call_visualizer].
  unfold DM_seq, DM_bind, saveGraphToFile.
  destruct (os_WriteFile (length (dc_events c)) filename (dc_graph c)) as [e|].
  - rewrite logf_spec by assumption. reflexivity.
  - cbv zeta. set (c' := set_dc_events _ c).
    destruct (filepath_Abs (length (dc_events c')) filename) as [path|]; [|reflexivity].
    unfold DM_seq, DM_bind. rewrite logf_spec by assumption. reflexivity.
Qed.

Lemma handleInjectionError_applicable (err : error) (c : debugConfig) :
  buffers (dc_loggers c) = match dc_logBuf c with Some _ => 1 | None => 0 end ->
  Forall logger_returns (dc_loggers c) ->
  applicable (dc_onError c) ->
  (applyConfig (dc_onError c) (logged (dc_indentStr c +:+ "Error: " +:+ fmt_v err) c)).2 = Ok tt ->
  handleInjectionError fmt_v err c
  = ((applyConfig (dc_onError c) (logged (dc_indentStr c +:+ "Error: " +:+ fmt_v err) c)).1,
     Err err).
Proof.
  intros Hb Hls Happ Hok. unfold handleInjectionError, DM_seq, DM_bind.
  rewrite logf_spec by assumption. set (c1 := logged _ c) in *.
  change (dc_onError c1) with (dc_onError c).
  destruct (dc_onError c) eqn:Eo; [inversion Happ | ..];
    (destruct (applyConfig _ c1) as [c2 r]; cbn in Hok; subst r; reflexivity).
Qed.

End AutoDebugRun.

(** A run under [AutoDebug], which is what [Inject] runs with. When the
    container succeeds, nothing is printed and no graph is written, and the
    debug file is removed if there is one. When the container fails with
    an error, the error comes back as it is; the standard error gets the
    greeting of the logger, every line the container has logged, and the
    line of the error; and the graph is written to the debug file, which
    stays, with a line on where it is, or a line on why it could not
    be. *)
Theorem AutoDebug_run :
  forall (os_WriteFile : nat -> string -> string -> option error)
         (filepath_Abs : nat -> string -> option string) (os_Stat : nat -> string -> bool)
         (fmt_v fmt_plus_v : error -> string) (graphviz_NewGraph : string)
         (calls : list debugCall),
    dedents_ok 0 calls = true ->
    let run := fun outcome =>
      runInjection os_WriteFile filepath_Abs os_Stat fmt_v fmt_plus_v graphviz_NewGraph
        AutoDebug (containerRun calls outcome) in
    let indent := indent_after "" calls in
    let g := graph_after graphviz_NewGraph calls in
    ((run (Ok tt)).2 = Ok tt
     /\ dc_events (run (Ok tt)).1
        = if os_Stat 0 defaultDebugFile then [ev_Remove defaultDebugFile] else [])
    /\ (forall err : error,
          let printed :=
            map (ev_logged sink_Stderr)
              ("Initializing logger"
               :: transcript "" calls ++ [indent +:+ "Error: " +:+ fmt_v err]) in
          (run (Err err)).2 = Err err
          /\ dc_events (run (Err err)).1
             = printed
               ++ match os_WriteFile (length printed) defaultDebugFile g with
                  | Some e =>
                      [ev_logged sink_Stderr
                         (indent +:+ "Error saving graphviz file " +:+ defaultDebugFile
                          +:+ ": " +:+ fmt_plus_v e)]
                  | None =>
                      ev_WriteFile defaultDebugFile g
                      :: match filepath_Abs (S (length printed)) defaultDebugFile with
                         | Some path =>
                             [ev_logged sink_Stderr
                                (indent +:+ "Saved graph of container to " +:+ path)]
                         | None => []
                         end
                  end).
Proof.
  intros os_WriteFile filepath_Abs os_Stat fmt_v fmt_plus_v g0 calls Hd run indent g.
  subst run. cbv beta. unfold runInjection, DM_defer. split.
  - rewrite (containerRun_AutoDebug g0 calls (Ok tt) Hd).
    cbv [handleInjectionSuccess dc_onSuccess applyConfig generateGraph runCleanup DM_forEach
         DM_seq DM_bind DM_modify DM_ret call_cleanup deleteIfExists call_visualizer
         dc_logVisualizer dc_visualizers dc_cleanup dc_events dc_graph set_dc_cleanup
         set_dc_events app length dc_loggers dc_indentStr dc_logBuf dc_onError fst snd].
    destruct (os_Stat 0 defaultDebugFile); split; reflexivity.
  - intros err. set (printed := map (ev_logged sink_Stderr) _).
    rewrite (containerRun_AutoDebug g0 calls (Err err) Hd).
    set (c1 := mkDebugConfig _ _ _ _ _ _ _ _ _ _).
    assert (Hls1 : Forall logger_returns (dc_loggers c1)) by (repeat constructor).
    rewrite (handleInjectionError_applicable fmt_v err c1 eq_refl Hls1 applicable_Debug)
      by (change (dc_onError c1) with Debug; rewrite applyConfig_Debug; reflexivity).
    change (dc_onError c1) with Debug. rewrite applyConfig_Debug. cbn [fst].
    set (c2 := set_dc_visualizers _ _).
    unfold DM_seq, DM_bind.
    assert (Hls2 : Forall logger_returns (dc_loggers c2)) by (repeat constructor).
    rewrite (generateGraph_one_file os_WriteFile filepath_Abs fmt_plus_v c2 defaultDebugFile
               eq_refl Hls2 eq_refl eq_refl).
    change (dc_events c2) with printed. change (dc_graph c2) with g.
    change (dc_indentStr c2) with indent.
    destruct (os_WriteFile (length printed) defaultDebugFile g) as [e|].
    + split; reflexivity.
    + cbv zeta.
      change (length (dc_events (set_dc_events
                (fun evs => evs ++ [ev_WriteFile defaultDebugFile g]) c2)))
        with (length (printed ++ [ev_WriteFile defaultDebugFile g])).
      rewrite length_app, Nat.add_1_r.
      destruct (filepath_Abs (S (length printed)) defaultDebugFile) as [path|].
      * split; [reflexivity|]. cbn. now rewrite <- app_assoc.
      * split; reflexivity.
Qed.

(** A container that logs two lines and fails, when the file can be
    written. *)
Lemma AutoDebug_run_witness :
  let run := runInjection (fun _ _ _ => None) (fun _ f => Some ("/tmp/" +:+ f))
               (fun _ _ => true) (fun _ => "an error") (fun _ => "an error, in full")
               "digraph {}" AutoDebug
               (containerRun [do_logf "Registering providers"; do_indentLogger;
                              do_logf "Registering f"; do_dedentLogger; do_graph "digraph {f}"]
                  (Err ErrInvalidInvoker)) in
  run.2 = Err ErrInvalidInvoker
  /\ dc_events run.1
     = [ev_logged sink_Stderr "Initializing logger";
        ev_logged sink_Stderr "Registering providers";
        ev_logged sink_Stderr " Registering f";
        ev_logged sink_Stderr "Error: an error";
        ev_WriteFile "debug_container.dot" "digraph {f}";
        ev_logged sink_Stderr "Saved graph of container to /tmp/debug_container.dot"].
Proof.
  exact (proj2 (AutoDebug_run (fun _ _ _ => None) (fun _ f => Some ("/tmp/" +:+ f))
                  (fun _ _ => true) (fun _ => "an error") (fun _ => "an error, in full")
                  "digraph {}"
                  [do_logf "Registering providers"; do_indentLogger;
                   do_logf "Registering f"; do_dedentLogger; do_graph "digraph {f}"]
                  eq_refl) ErrInvalidInvoker).
Defined.
